(** * A shallow embedding of the Sweeper solver ([src/sweeper.py])

    The solver keeps a store of _bomb equations_ ("the number of bombs among
    these tiles is one of these numbers"), folds new observations into that
    store, counts the bomb layouts that satisfy a store, and projects the counts
    onto a board of display strings.

    Python data is modelled as follows.
    - [int] is [Z]; a tile [(row, column)] is a pair of [Z].
    - [frozenset[tuple[int,int]]] is [gset tile]; iterating over a frozenset
      is iterating over [elements], some fixed enumeration of the set.
    - [tuple[int]] and [list] are [list]; [dict] is [gmap].
    - an exception is a value [Raise e]; loops and recursions whose
      termination is not structural take a [fuel] argument and answer
      [OutOfFuel] when it is used up. *)

From stdpp Require Import ssreflect.
Set Warnings "-rewrite-rw,-clear-no-such-hyp".
From stdpp Require Import gmap strings list fin_maps sorting pretty.

Open Scope Z_scope.

(** ** Results of partial computations *)

Inductive exn : Set := IndexError | ValueError | KeyError.

Inductive result (A : Type) : Type :=
| Ok (a : A)
| Raise (e : exn)
| OutOfFuel.
Arguments Ok {A} a.
Arguments Raise {A} e.
Arguments OutOfFuel {A}.

#[global] Instance result_ret : MRet result := λ A a, Ok a.
#[global] Instance result_bind : MBind result := λ A B f m,
  match m with
  | Ok a => f a
  | Raise e => Raise e
  | OutOfFuel => OutOfFuel
  end.

(** A [for] loop whose body may raise. *)
Fixpoint foldlM {A B} (f : B → A → result B) (b : B) (l : list A) : result B :=
  match l with
  | [] => Ok b
  | x :: l' => b' ← f b x; foldlM f b' l'
  end.

(** [l.pop()]: the last element and the list without it. *)
Fixpoint list_pop {A} (l : list A) : option (list A * A) :=
  match l with
  | [] => None
  | [x] => Some ([], x)
  | x :: l' =>
      match list_pop l' with
      | Some (l'', y) => Some (x :: l'', y)
      | None => None
      end
  end.

(** [l.remove(x)]: drops the first element equal to [x]; [ValueError] when
    there is none. *)
Fixpoint list_remove_first `{EqDecision A} (x : A) (l : list A) : result (list A) :=
  match l with
  | [] => Raise ValueError
  | y :: l' =>
      if decide (x = y) then Ok l'
      else l'' ← list_remove_first x l'; Ok (y :: l'')
  end.

(** [for x in xs: l.remove(x)] *)
Definition list_remove_each `{EqDecision A} (xs : list A) (l : list A) : result (list A) :=
  foldlM (λ l x, list_remove_first x l) l xs.

(** [l[i]] with Python's negative indices. *)
Definition py_index {A} (l : list A) (i : Z) : result A :=
  let n := Z.of_nat (length l) in
  let j := if i <? 0 then i + n else i in
  if (j <? 0) || (n <=? j) then Raise IndexError
  else match l !! Z.to_nat j with
       | Some x => Ok x
       | None => Raise IndexError
       end.

(** [l[i] = x] with Python's negative indices. *)
Definition py_set_index {A} (l : list A) (i : Z) (x : A) : result (list A) :=
  let n := Z.of_nat (length l) in
  let j := if i <? 0 then i + n else i in
  if (j <? 0) || (n <=? j) then Raise IndexError
  else Ok (<[Z.to_nat j := x]> l).

(** ** [comb] *)

(** [math.comb] is the binomial coefficient; the model reads it off Pascal's
    triangle, built row by row. *)
Definition pascal_next (row : list Z) : list Z :=
  zip_with Z.add (0 :: row) (row ++ [0]).

Fixpoint pascal_row (n : nat) : list Z :=
  match n with
  | O => [1]
  | S n' => pascal_next (pascal_row n')
  end.

Definition math_comb (n k : nat) : Z := default 0 (pascal_row n !! k).

Definition comb (n k : Z) : Z :=
  if (k <? 0) || (n <? k) then 0
  else math_comb (Z.to_nat n) (Z.to_nat k).

(** ** [BombEquation] *)

Abbreviation tile := (Z * Z)%type.

Record BombEquation : Type := mkBombEquation {
  tiles : gset tile;
  bombs : list Z;
}.

#[global] Instance BombEquation_eq_dec : EqDecision BombEquation.
Proof. solve_decision. Defined.

(** [BombEquation.__init__]: both arguments are iterables. *)
Definition BombEquation_init (tiles_in : list tile) (bombs_in : list Z) : BombEquation :=
  let self_tiles : gset tile := list_to_set tiles_in in
  let num_tiles := Z.of_nat (size self_tiles) in
  {| tiles := self_tiles;
     bombs := filter (λ bomb_num, 0 ≤ bomb_num ≤ num_tiles) bombs_in |}.

(** [BombEquation.__le__] *)
Definition BombEquation_le (self other : BombEquation) : bool :=
  bool_decide (tiles self ⊆ tiles other) && bool_decide (length (bombs self) = 1%nat).

(** [BombEquation.__ge__] *)
Definition BombEquation_ge (self other : BombEquation) : bool :=
  bool_decide (tiles other ⊆ tiles self) && bool_decide (length (bombs other) = 1%nat).

(** [BombEquation.__sub__]; [other.bombs[0]] raises on an empty tuple. *)
Definition BombEquation_sub (self other : BombEquation) : result BombEquation :=
  match bombs other with
  | [] => Raise IndexError
  | other_bomb_num :: _ =>
      Ok (BombEquation_init (elements (tiles self ∖ tiles other))
            (map (λ self_bomb_num, self_bomb_num - other_bomb_num) (bombs self)))
  end.

Definition is_trivial (self : BombEquation) : bool :=
  bool_decide (size (tiles self) = 1%nat) && bool_decide (length (bombs self) = 1%nat).

Definition is_splittable (self : BombEquation) : bool :=
  negb (bool_decide (size (tiles self) = 1%nat))
  && ((bool_decide (length (bombs self) = 1%nat)
       && match bombs self with
          | b0 :: _ => bool_decide (b0 = 0) || bool_decide (b0 = Z.of_nat (size (tiles self)))
          | [] => false
          end)
      || bool_decide (length (bombs self) = (size (tiles self) + 1)%nat)).

Definition split (self : BombEquation) : result (list BombEquation) :=
  if bool_decide (1 < length (bombs self))%nat then
    Ok (map (λ t, BombEquation_init [t] [0; 1]) (elements (tiles self)))
  else
    match bombs self with
    | [] => Raise IndexError
    | b0 :: _ =>
        let bomb := if bool_decide (b0 = 0) then 0 else 1 in
        Ok (map (λ t, BombEquation_init [t] [bomb]) (elements (tiles self)))
    end.

Definition is_impossible (self : BombEquation) : bool :=
  bool_decide (bombs self = []).

(** The inner [for old_bomb_eq in constraints] loop of
    [integrate_new_bomb_eqs].  It returns the worklist, the list
    [updated_constraints] and the flag [add_new_bomb_eq]. *)
Fixpoint integrate_scan (new_bomb_eq : BombEquation) (constraints : list BombEquation)
    (new_bomb_eqs updated_constraints : list BombEquation)
    : result (list BombEquation * list BombEquation * bool) :=
  match constraints with
  | [] => Ok (new_bomb_eqs, updated_constraints, true)
  | old_bomb_eq :: rest =>
      if decide (new_bomb_eq = old_bomb_eq) then
        Ok (new_bomb_eqs, updated_constraints, false)
      else if BombEquation_le new_bomb_eq old_bomb_eq then
        d ← BombEquation_sub old_bomb_eq new_bomb_eq;
        integrate_scan new_bomb_eq rest (new_bomb_eqs ++ [d]) (updated_constraints ++ [old_bomb_eq])
      else if BombEquation_le old_bomb_eq new_bomb_eq then
        d ← BombEquation_sub new_bomb_eq old_bomb_eq;
        Ok (new_bomb_eqs ++ [d], updated_constraints, false)
      else integrate_scan new_bomb_eq rest new_bomb_eqs updated_constraints
  end.

(** One iteration of the [while new_bomb_eqs] loop of
    [integrate_new_bomb_eqs]: either the call returns ([inl], the flag and
    the store), or the loop goes on with a new store and worklist ([inr]). *)
Definition integrate_iteration (constraints new_bomb_eqs : list BombEquation)
    : result ((bool * list BombEquation) + (list BombEquation * list BombEquation)) :=
  match list_pop new_bomb_eqs with
  | None => Ok (inl (true, constraints))
  | Some (new_bomb_eqs, new_bomb_eq) =>
      if is_impossible new_bomb_eq then Ok (inl (false, constraints))
      else if is_splittable new_bomb_eq then
        parts ← split new_bomb_eq;
        Ok (inr (constraints, new_bomb_eqs ++ parts))
      else
        '(new_bomb_eqs, updated_constraints, add_new_bomb_eq) ←
          integrate_scan new_bomb_eq constraints new_bomb_eqs [];
        constraints ← list_remove_each updated_constraints constraints;
        Ok (inr (if add_new_bomb_eq : bool then constraints ++ [new_bomb_eq] else constraints,
                 new_bomb_eqs))
  end.

(** [BombEquation.integrate_new_bomb_eqs]: one iteration per unit of fuel.
    The answer is the returned flag together with the store as the call
    leaves it. *)
Fixpoint integrate_new_bomb_eqs (fuel : nat) (constraints new_bomb_eqs : list BombEquation)
    : result (bool * list BombEquation) :=
  match fuel with
  | O => OutOfFuel
  | S fuel' =>
      r ← integrate_iteration constraints new_bomb_eqs;
      match r with
      | inl answer => Ok answer
      | inr (constraints, new_bomb_eqs) =>
          integrate_new_bomb_eqs fuel' constraints new_bomb_eqs
      end
  end.

(** ** [Solution]

    [bombs_to_tile_bomb_frequency] maps a number of bombs to the pair of a
    per-tile bomb count and a number of layouts.  A [for] loop over a dict
    is a left fold over a list of its items; the model takes the items in
    the order of [map_to_list]. *)

Abbreviation Solution := (gmap Z (gmap tile Z * Z)).

(** [for tile, bomb_count in other_bomb_instances.items():
       bomb_instances[tile] = bomb_instances.get(tile, 0) + bomb_count] *)
Definition add_bomb_counts (bomb_instances : gmap tile Z) (items : list (tile * Z))
    : gmap tile Z :=
  foldl (λ bomb_instances '(t, bomb_count),
           <[t := default 0 (bomb_instances !! t) + bomb_count]> bomb_instances)
        bomb_instances items.

(** The [for other_num_bombs, other_layout_totals in ...items()] loop of
    [Solution.__iadd__]. *)
Definition iadd_items (self : Solution) (items : list (Z * (gmap tile Z * Z))) : Solution :=
  foldl (λ (self : Solution) '(other_num_bombs, (other_bomb_instances, other_num_layouts)),
           let '(bomb_instances, num_layouts) := default (∅, 0) (self !! other_num_bombs) in
           <[other_num_bombs :=
               (add_bomb_counts bomb_instances (map_to_list other_bomb_instances),
                num_layouts + other_num_layouts)]> self)
        self items.

(** [Solution.__iadd__] *)
Definition Solution_iadd (self other : Solution) : Solution :=
  if decide (self = ∅) then other else iadd_items self (map_to_list other).

(** The body of the two nested loops of [Solution.__mul__]: the one-entry
    Solution that is added to [result_solution]. *)
Definition mul_entry (e1 e2 : Z * (gmap tile Z * Z)) : Solution :=
  let '(num_bombs, (bomb_instances, num_layouts)) := e1 in
  let '(other_num_bombs, (other_bomb_instances, other_num_layouts)) := e2 in
  let new_bomb_instances : gmap tile Z :=
    foldl (λ acc '(t, c), <[t := c * other_num_layouts]> acc) ∅ (map_to_list bomb_instances) in
  let new_bomb_instances : gmap tile Z :=
    foldl (λ acc '(t, c), <[t := c * num_layouts]> acc) new_bomb_instances
          (map_to_list other_bomb_instances) in
  {[ num_bombs + other_num_bombs := (new_bomb_instances, num_layouts * other_num_layouts) ]}.

(** [Solution.__mul__] *)
Definition Solution_mul (self other : Solution) : Solution :=
  foldl (λ result_solution e1,
           foldl (λ result_solution e2, Solution_iadd result_solution (mul_entry e1 e2))
                 result_solution (map_to_list other))
        ∅ (map_to_list self).

(** ** Grouping the constraints by shared tiles *)

(** An area: the equations grouped together and the tiles they mention. *)
Abbreviation area := (list BombEquation * gset tile)%type.

(** [for tile in bomb_eq.tiles: if tile in tiles: ...; break] *)
Definition shares_tile (bomb_eq : BombEquation) (a : area) : bool :=
  existsb (λ t, bool_decide (t ∈ a.2)) (elements (tiles bomb_eq)).

(** Index of the first area sharing a tile with [bomb_eq]. *)
Fixpoint first_common (bomb_eq : BombEquation) (areas : list area) : option nat :=
  match areas with
  | [] => None
  | a :: rest =>
      if shares_tile bomb_eq a then Some O else S <$> first_common bomb_eq rest
  end.

(** One iteration of the outer loop of [group_constraints].  The first area
    in common is updated in place; the other areas in common are removed,
    last first, by [list.remove]. *)
Definition group_step (grouped_constraints : list area) (bomb_eq : BombEquation)
    : result (list area) :=
  let tiles_in_common := filter (λ a, shares_tile bomb_eq a = true) grouped_constraints in
  match tiles_in_common, first_common bomb_eq grouped_constraints with
  | first :: others, Some i =>
      let first_constraints :=
        foldl (λ acc (a : area), acc ++ a.1) first.1 others ++ [bomb_eq] in
      let first_tiles :=
        foldl (λ acc (a : area), acc ∪ a.2) first.2 others ∪ tiles bomb_eq in
      list_remove_each (reverse others)
        (<[i := (first_constraints, first_tiles)]> grouped_constraints)
  | _, _ => Ok (grouped_constraints ++ [([bomb_eq], tiles bomb_eq)])
  end.

(** [Solution.group_constraints] *)
Definition group_constraints (constraints : list BombEquation)
    : result (list (list BombEquation)) :=
  grouped_constraints ← foldlM group_step [] constraints;
  Ok (map fst grouped_constraints).

(** [Solution.find_tile_to_recurse_on] *)
Definition find_tile_to_recurse_on (constraints : list BombEquation) : tile :=
  fst (foldl (λ st constraint,
                foldl (λ '(tile_to_return, tile_counts) t,
                         let tile_count := default 0 (tile_counts !! t) + 1 in
                         let tile_counts : gmap tile Z := <[t := tile_count]> tile_counts in
                         if bool_decide (default 0 (tile_counts !! tile_to_return) < tile_count)
                         then (t, tile_counts) else (tile_to_return, tile_counts))
                      st (elements (tiles constraint)))
             ((-1, -1), {[ (-1, -1) := 0 ]}) constraints).

(** ** [Solution.solve_area] *)

(** The Solution of a single equation: the loop over [only_constraint.bombs]. *)
Definition solve_single (only_constraint : BombEquation) : Solution :=
  let num_tiles := Z.of_nat (size (tiles only_constraint)) in
  foldl (λ solution_so_far bombs,
           Solution_iadd solution_so_far
             {[ bombs := (gset_to_gmap (comb (num_tiles - 1) (bombs - 1)) (tiles only_constraint),
                           comb num_tiles bombs) ]})
        ∅ (bombs only_constraint).

Fixpoint solve_area (fuel : nat) (constraints : list BombEquation) : result Solution :=
  match fuel with
  | O => OutOfFuel
  | S fuel' =>
      match constraints with
      | [] => Ok {[ 0 := (∅, 1) ]}
      | [only_constraint] => Ok (solve_single only_constraint)
      | _ =>
          grouped_constraints ← group_constraints constraints;
          foldlM (λ (solution_so_far : Solution) constraint_group,
                    let recurse_tile := find_tile_to_recurse_on constraint_group in
                    group_solution ←
                      foldlM (λ (group_solution : Solution) bomb,
                                let new_bomb_eq := BombEquation_init [recurse_tile] [bomb] in
                                '(ok, constraint_group_copy) ←
                                  integrate_new_bomb_eqs fuel constraint_group [new_bomb_eq];
                                if ok : bool then
                                  constraint_group_copy ←
                                    list_remove_first new_bomb_eq constraint_group_copy;
                                  sub ← solve_area fuel' constraint_group_copy;
                                  Ok (Solution_iadd group_solution
                                        (Solution_mul {[ bomb := ({[ recurse_tile := bomb ]}, 1) ]}
                                                      sub))
                                else Ok group_solution)
                             ∅ [0; 1];
                    Ok (Solution_mul solution_so_far group_solution))
                 {[ 0 := (∅, 1) ]} grouped_constraints
      end
  end.

(** ** [return_neighbours] *)

(** [[x] * cond] *)
Definition list_if {A} (cond : bool) (l : list A) : list A := if cond then l else [].

Definition return_neighbours (row column height width : Z) : list tile :=
  list_if (0 <? row)
    (list_if (0 <? column) [(row - 1, column - 1)]
     ++ [(row - 1, column)]
     ++ list_if (column <? width - 1) [(row - 1, column + 1)])
  ++ list_if (0 <? column) [(row, column - 1)]
  ++ list_if (column <? width - 1) [(row, column + 1)]
  ++ list_if (row <? height - 1)
       (list_if (0 <? column) [(row + 1, column - 1)]
        ++ [(row + 1, column)]
        ++ list_if (column <? width - 1) [(row + 1, column + 1)]).

(** ** [Sweeper] *)

Inductive version_t : Set := Classic | ThrillDigger.

Definition BOMB_KEY (v : version_t) : gmap string (list Z) :=
  match v with
  | Classic =>
      list_to_map [("0", [0]); ("1", [1]); ("2", [2]); ("3", [3]); ("4", [4]);
                   ("5", [5]); ("6", [6]); ("7", [7]); ("8", [8])]
  | ThrillDigger =>
      list_to_map [("Green", [0]); ("Blue", [1; 2]); ("Red", [3; 4]);
                   ("Silver", [5; 6]); ("Gold", [7; 8])]
  end%string.

(** The attributes of a Sweeper.  The attribute [bombs] is [sw_bombs] here,
    and likewise for the others, as [bombs] names the field of
    [BombEquation]. *)
Record Sweeper : Type := mkSweeper {
  sw_version : version_t;
  sw_height : Z;
  sw_width : Z;
  sw_bombs : Z;
  sw_board : list (list string);
  sw_constraints : list BombEquation;
  sw_unconstrained_tiles : list tile;
  sw_message : string;
}.

Definition set_board (s : Sweeper) (b : list (list string)) : Sweeper :=
  mkSweeper (sw_version s) (sw_height s) (sw_width s) (sw_bombs s) b
            (sw_constraints s) (sw_unconstrained_tiles s) (sw_message s).
Definition set_constraints (s : Sweeper) (c : list BombEquation) : Sweeper :=
  mkSweeper (sw_version s) (sw_height s) (sw_width s) (sw_bombs s) (sw_board s)
            c (sw_unconstrained_tiles s) (sw_message s).
Definition set_unconstrained_tiles (s : Sweeper) (u : list tile) : Sweeper :=
  mkSweeper (sw_version s) (sw_height s) (sw_width s) (sw_bombs s) (sw_board s)
            (sw_constraints s) u (sw_message s).
Definition set_message (s : Sweeper) (m : string) : Sweeper :=
  mkSweeper (sw_version s) (sw_height s) (sw_width s) (sw_bombs s) (sw_board s)
            (sw_constraints s) (sw_unconstrained_tiles s) m.

(** [range(n)] *)
Definition py_range (n : Z) : list Z := Z.of_nat <$> seq 0 (Z.to_nat n).

(** [Sweeper.reset] *)
Definition reset (s : Sweeper) : Sweeper :=
  mkSweeper (sw_version s) (sw_height s) (sw_width s) (sw_bombs s)
    (replicate (Z.to_nat (sw_height s)) (replicate (Z.to_nat (sw_width s)) ""%string))
    []
    (i ← py_range (sw_height s); j ← py_range (sw_width s); [(i, j)])
    "".

(** [Sweeper.__init__] *)
Definition Sweeper_init (v : version_t) : Sweeper :=
  match v with
  | Classic => reset (mkSweeper Classic 9 9 10 [] [] [] "")
  | ThrillDigger => reset (mkSweeper ThrillDigger 4 5 4 [] [] [] "")
  end.

(** [Sweeper.set_custom] *)
Definition set_custom (height width bombs : Z) (s : Sweeper) : Sweeper :=
  reset (mkSweeper (sw_version s) height width bombs
           (sw_board s) (sw_constraints s) (sw_unconstrained_tiles s) (sw_message s)).

(** [if x in l: l.remove(x)] *)
Fixpoint list_discard `{EqDecision A} (x : A) (l : list A) : list A :=
  match l with
  | [] => []
  | y :: l' => if decide (x = y) then l' else y :: list_discard x l'
  end.

(** [self.board[row][column]] *)
Definition board_get (board : list (list string)) (t : tile) : result string :=
  r ← py_index board t.1; py_index r t.2.

(** [self.board[row][column] = label] *)
Definition board_set (board : list (list string)) (t : tile) (label : string)
    : result (list (list string)) :=
  r ← py_index board t.1;
  r' ← py_set_index r t.2 label;
  py_set_index board t.1 r'.

(** [Sweeper.integrate_new_info] *)
Definition integrate_new_info (fuel : nat) (row column : Z) (info : string) (s : Sweeper)
    : result Sweeper :=
  board ← board_set (sw_board s) (row, column) info;
  let s := set_board s board in
  let t := (row, column) in
  match BOMB_KEY (sw_version s) !! info with
  | Some counts =>
      let s := set_unconstrained_tiles s (list_discard t (sw_unconstrained_tiles s)) in
      let neighbours := return_neighbours row column (sw_height s) (sw_width s) in
      let s := set_unconstrained_tiles s
                 (foldl (λ u neighbour, list_discard neighbour u)
                        (sw_unconstrained_tiles s) neighbours) in
      '(ok, constraints) ←
        integrate_new_bomb_eqs fuel (sw_constraints s)
          [BombEquation_init [t] [0]; BombEquation_init neighbours counts];
      let s := set_constraints s constraints in
      Ok (if ok : bool then s else set_message s "Impossible layout")
  | None =>
      if bool_decide (info = "B"%string) || bool_decide (info = "Rupoor"%string) then
        let s := set_unconstrained_tiles s (list_discard t (sw_unconstrained_tiles s)) in
        '(ok, constraints) ←
          integrate_new_bomb_eqs fuel (sw_constraints s) [BombEquation_init [t] [1]];
        let s := set_constraints s constraints in
        Ok (if ok : bool then s else set_message s "Impossible layout")
      else Ok s
  end.

(** The body of the loop of [calculate_bomb_fractions] over the items of the
    solution; the key [(-1, -1)] stands for each unconstrained tile. *)
Definition fraction_step (num_unconstrained_tiles bombs : Z)
    (acc : gmap tile Z * Z) (item : Z * (gmap tile Z * Z)) : gmap tile Z * Z :=
  let '(bomb_instances, num_layouts) := acc in
  let '(num_bombs, (partial_bomb_instances, partial_num_layouts)) := item in
  let num_unconstrained_tile_layouts := comb num_unconstrained_tiles (bombs - num_bombs) in
  let bomb_instances : gmap tile Z :=
    foldl (λ (bomb_instances : gmap tile Z) '(t, bomb_occurences),
             <[t := default 0 (bomb_instances !! t)
                    + bomb_occurences * num_unconstrained_tile_layouts]> bomb_instances)
          bomb_instances (map_to_list partial_bomb_instances) in
  let bomb_instances : gmap tile Z :=
    <[(-1, -1) := default 0 (bomb_instances !! (-1, -1))
                  + partial_num_layouts
                    * comb (num_unconstrained_tiles - 1) (bombs - num_bombs - 1)]>
      bomb_instances in
  (bomb_instances, num_layouts + partial_num_layouts * num_unconstrained_tile_layouts).

(** [Sweeper.calculate_bomb_fractions] *)
Definition calculate_bomb_fractions (s : Sweeper) (solution : Solution)
    : result (gmap tile Z * Z) :=
  let num_unconstrained_tiles := Z.of_nat (length (sw_unconstrained_tiles s)) in
  let '(bomb_instances, num_layouts) :=
    foldl (fraction_step num_unconstrained_tiles (sw_bombs s))
          ((∅ : gmap tile Z), 0) (map_to_list solution) in
  match bomb_instances !! (-1, -1) with
  | None => Raise KeyError
  | Some unconstrained_tile_instances =>
      let bomb_instances := delete (-1, -1) bomb_instances in
      Ok (foldl (λ (bomb_instances : gmap tile Z) unconstrained_tile,
                   <[unconstrained_tile := unconstrained_tile_instances]> bomb_instances)
                bomb_instances (sw_unconstrained_tiles s),
          num_layouts)
  end.

Section with_percent_label.

(** The label [f'{round(100 * m / n)}%'] is computed in floating point; the
    model takes it as a function of the two counts. *)
Variable percent_label : Z → Z → string.

(** One iteration of the loop of [process_bomb_fractions] over the tiles
    of [bomb_instances]; the state carries [consistent_tiles]. *)
Definition process_tile (total_num_layouts : Z) (st : Sweeper * list BombEquation)
    (item : tile * Z) : result (Sweeper * list BombEquation) :=
  let '(s, consistent_tiles) := st in
  let '(t, count) := item in
  if bool_decide (count = 0) then
    label ← board_get (sw_board s) t;
    match BOMB_KEY (sw_version s) !! label with
    | Some _ => Ok (s, consistent_tiles)
    | None =>
        board ← board_set (sw_board s) t "S";
        let s := set_board s board in
        let s := set_unconstrained_tiles s (list_discard t (sw_unconstrained_tiles s)) in
        Ok (s, consistent_tiles ++ [BombEquation_init [t] [0]])
    end
  else if bool_decide (count = total_num_layouts) then
    let consistent_tiles := consistent_tiles ++ [BombEquation_init [t] [1]] in
    let s := set_unconstrained_tiles s (list_discard t (sw_unconstrained_tiles s)) in
    label ← board_get (sw_board s) t;
    if bool_decide (label = "B"%string) || bool_decide (label = "Rupoor"%string) then
      Ok (s, consistent_tiles)
    else
      board ← board_set (sw_board s) t "B/R";
      Ok (set_board s board, consistent_tiles)
  else
    board ← board_set (sw_board s) t (percent_label count total_num_layouts);
    Ok (set_board s board, consistent_tiles).

Definition process_tiles (total_num_layouts : Z) (items : list (tile * Z))
    (st : Sweeper * list BombEquation) : result (Sweeper * list BombEquation) :=
  foldlM (process_tile total_num_layouts) st items.

(** [Sweeper.process_bomb_fractions]; the flag returned by the final
    integration is dropped, as in the source. *)
Definition process_bomb_fractions (fuel : nat) (bomb_instances : gmap tile Z)
    (total_num_layouts : Z) (s : Sweeper) : result Sweeper :=
  if bool_decide (total_num_layouts = 0) then Ok (set_message s "Impossible layout")
  else
    '(s, consistent_tiles) ←
      process_tiles total_num_layouts (map_to_list bomb_instances) (s, []);
    '(_, constraints) ← integrate_new_bomb_eqs fuel (sw_constraints s) consistent_tiles;
    Ok (set_constraints s constraints).

(** [Sweeper.calculate_board] *)
Definition calculate_board (fuel : nat) (s : Sweeper) : result Sweeper :=
  solution ← solve_area fuel (sw_constraints s);
  '(bomb_instances, denominator) ← calculate_bomb_fractions s solution;
  process_bomb_fractions fuel bomb_instances denominator s.

End with_percent_label.

(** ** Vocabulary of the statements *)

(** The label [f'{round(100 * m / n)}%'] read in exact arithmetic, with
    ties to the even integer as [round] has them.  The statements below
    hold for every [percent_label]; this one instantiates them on concrete
    boards. *)
Definition percent_label_exact (m n : Z) : string :=
  let q := (100 * m) `div` n in
  let r := (100 * m) `mod` n in
  let rounded :=
    if 2 * r <? n then q
    else if n <? 2 * r then q + 1
    else if Z.even q then q else q + 1 in
  pretty rounded +:+ "%".

(** A tile of the board of [s]. *)
Definition in_board (s : Sweeper) (t : tile) : Prop :=
  0 ≤ t.1 < sw_height s ∧ 0 ≤ t.2 < sw_width s.

(** The states a Sweeper reaches from [reset] by observations on tiles of
    its board. *)
Inductive reachable (s0 : Sweeper) : Sweeper → Prop :=
| reachable_reset : reachable s0 (reset s0)
| reachable_integrate s fuel row column info s' :
    reachable s0 s →
    in_board s (row, column) →
    integrate_new_info fuel row column info s = Ok s' →
    reachable s0 s'.

(** The equations that [integrate_new_info] hands to the integrator, and
    [None] for a label that is neither in the bomb key nor a bomb label. *)
Definition observation_eqs (s : Sweeper) (row column : Z) (info : string)
    : option (list BombEquation) :=
  match BOMB_KEY (sw_version s) !! info with
  | Some counts =>
      Some [BombEquation_init [(row, column)] [0];
            BombEquation_init (return_neighbours row column (sw_height s) (sw_width s)) counts]
  | None =>
      if bool_decide (info = "B"%string) || bool_decide (info = "Rupoor"%string)
      then Some [BombEquation_init [(row, column)] [1]]
      else None
  end.


(** The sum of [f] over the items of a Solution. *)
Definition sum_items (f : Z → gmap tile Z → Z → Z) (items : list (Z * (gmap tile Z * Z))) : Z :=
  foldr (λ '(k, (F, N)) acc, f k F N + acc) 0 items.

(** The three sums of the projection onto the board, for [U] unconstrained
    tiles and [B] bombs in total: the number of layouts, the number of
    layouts with a bomb on the constrained tile [t], and the number of
    layouts with a bomb on one given unconstrained tile. *)
Definition total_layouts (U B : Z) (solution : Solution) : Z :=
  sum_items (λ k _ N, N * comb U (B - k)) (map_to_list solution).

Definition constrained_count (U B : Z) (solution : Solution) (t : tile) : Z :=
  sum_items (λ k F _, default 0 (F !! t) * comb U (B - k)) (map_to_list solution).

Definition unconstrained_count (U B : Z) (solution : Solution) : Z :=
  sum_items (λ k _ N, N * comb (U - 1) (B - k - 1)) (map_to_list solution).

(** The tiles that a Solution counts bombs for. *)
Definition solution_tiles (solution : Solution) : gset tile :=
  map_fold (λ _ '(F, _) acc, dom F ∪ acc) ∅ solution.

(** The value of a result, with a default for the other cases. *)
Definition from_Ok {A} (d : A) (r : result A) : A :=
  match r with
  | Ok a => a
  | _ => d
  end.

(** *** Bomb layouts

    A layout is the set of the tiles that hold a bomb.  It satisfies an
    equation when the number of its bombs among the tiles of the equation is
    one of the bomb numbers of the equation. *)
Definition satisfies (A : gset tile) (e : BombEquation) : Prop :=
  Z.of_nat (size (A ∩ tiles e)) ∈ bombs e.

#[global] Instance satisfies_dec A e : Decision (satisfies A e).
Proof. unfold satisfies. apply _. Defined.

(** The tiles mentioned by a list of equations. *)
Definition store_tiles (constraints : list BombEquation) : gset tile :=
  ⋃ (tiles <$> constraints).

(** All the sets of tiles drawn from a list of tiles: the 0/1 assignments
    to these tiles. *)
Fixpoint subsets (l : list tile) : list (gset tile) :=
  match l with
  | [] => [∅]
  | t :: l' => subsets l' ++ ((λ A, {[ t ]} ∪ A) <$> subsets l')
  end.

(** The layouts over the tiles of [constraints] that satisfy every equation. *)
Definition layouts (constraints : list BombEquation) : list (gset tile) :=
  filter (λ A, Forall (satisfies A) constraints) (subsets (elements (store_tiles constraints))).

(** The number of these layouts with exactly [k] bombs, and the number of
    those with a bomb on [t]. *)
Definition count_layouts (constraints : list BombEquation) (k : Z) : Z :=
  Z.of_nat (length (filter (λ A, Z.of_nat (size A) = k) (layouts constraints))).

Definition count_layouts_with (constraints : list BombEquation) (k : Z) (t : tile) : Z :=
  Z.of_nat (length (filter (λ A, Z.of_nat (size A) = k ∧ t ∈ A) (layouts constraints))).

(** [N_k] and [F_k[t]] of a Solution; a missing entry counts as [0]. *)
Definition num_layouts_of (solution : Solution) (k : Z) : Z :=
  match solution !! k with
  | Some (_, N) => N
  | None => 0
  end.

Definition bomb_count_of (solution : Solution) (k : Z) (t : tile) : Z :=
  match solution !! k with
  | Some (F, _) => default 0 (F !! t)
  | None => 0
  end.

(** *** The store and its invariants *)

(** A single-tile equation that allows both [0] and [1]. *)
Definition is_inert (e : BombEquation) : bool :=
  bool_decide (size (tiles e) = 1%nat) && bool_decide (bombs e = [0; 1]).

(** The representation invariant of [BombEquation]: the bomb numbers are
    strictly ascending and lie between [0] and the number of tiles. *)
Definition wf_eq (e : BombEquation) : Prop :=
  StronglySorted Z.lt (bombs e)
  ∧ Forall (λ n, 0 ≤ n ≤ Z.of_nat (size (tiles e))) (bombs e).

(** An equation that the integrator may keep. *)
Definition reduced (e : BombEquation) : Prop :=
  is_impossible e = false ∧ is_splittable e = false.

(** A trivial equation is the only equation of the store on its tile. *)
Definition trivial_isolated (constraints : list BombEquation) : Prop :=
  ∀ e e', e ∈ constraints → e' ∈ constraints →
          is_trivial e = true → e ≠ e' → tiles e ## tiles e'.

(** The stores that the integrator produces. *)
Definition store_ok (constraints : list BombEquation) : Prop :=
  NoDup constraints
  ∧ Forall wf_eq constraints
  ∧ Forall reduced constraints
  ∧ trivial_isolated constraints.

(** What the scan of the store for the equation [new] does: the
    differences it pushes on the worklist, the old equations it marks for
    removal, the equations that stay, and whether [new] is to be added. *)
Inductive scan_result (new : BombEquation)
  : list BombEquation → list BombEquation → list BombEquation → list BombEquation → bool → Prop :=
| scan_end : scan_result new [] [] [] [] true
| scan_equal cs : scan_result new (new :: cs) [] [] (new :: cs) false
| scan_simplify_old old cs d ds ms kept add :
    new ≠ old →
    BombEquation_le new old = true →
    BombEquation_sub old new = Ok d →
    scan_result new cs ds ms kept add →
    scan_result new (old :: cs) (d :: ds) (old :: ms) kept add
| scan_simplify_new old cs d :
    new ≠ old →
    BombEquation_le new old = false →
    BombEquation_le old new = true →
    BombEquation_sub new old = Ok d →
    scan_result new (old :: cs) [d] [] (old :: cs) false
| scan_skip old cs ds ms kept add :
    new ≠ old →
    BombEquation_le new old = false →
    BombEquation_le old new = false →
    scan_result new cs ds ms kept add →
    scan_result new (old :: cs) ds ms (old :: kept) add.

(** The measure that decreases along the iterations of the integrator: an
    equation over [n] tiles weighs [3 n²] in the store and one more on the
    worklist. *)
Definition eq_weight (e : BombEquation) : nat :=
  (3 * size (tiles e) * size (tiles e))%nat.

Definition integrate_measure (constraints new_bomb_eqs : list BombEquation) : nat :=
  (sum_list_with eq_weight constraints
   + sum_list_with (λ e, S (eq_weight e)) new_bomb_eqs)%nat.

(** *** The two operations on Solutions, entry by entry *)

(** Pointwise addition of two entries [(F, N)]. *)
Definition entry_add (e1 e2 : gmap tile Z * Z) : gmap tile Z * Z :=
  (union_with (λ x y, Some (x + y)) e1.1 e2.1, e1.2 + e2.2).

(** The entry for a pair of entries over two areas: each count is
    multiplied by the number of layouts of the other area; on a tile that
    both mention the second entry wins. *)
Definition entry_mul (e1 e2 : gmap tile Z * Z) : gmap tile Z * Z :=
  (((λ c, c * e1.2) <$> e2.1) ∪ ((λ c, c * e2.2) <$> e1.1), e1.2 * e2.2).

(** The sum, by [Solution_iadd], of the Solutions [g x] for [x] in [l]. *)
Definition big_sum {A} (g : A → Solution) (l : list A) : Solution :=
  foldr (λ x acc, Solution_iadd (g x) acc) ∅ l.

(** *** The Solution of a list of layouts *)

(** The per-tile counts of one layout [A] over the tiles [X]: [1] on the
    tiles with a bomb and [0] on the others. *)
Definition indicator (X A : gset tile) : gmap tile Z :=
  gset_to_gmap 1 (A ∩ X) ∪ gset_to_gmap 0 X.

(** The Solution that counts the single layout [A]. *)
Definition layout_solution (X A : gset tile) : Solution :=
  {[ Z.of_nat (size A) := (indicator X A, 1) ]}.

(** The Solution that counts the layouts of the list [L] over the tiles [X]. *)
Definition layouts_solution (X : gset tile) (L : list (gset tile)) : Solution :=
  big_sum (layout_solution X) L.

(** The layouts over two disjoint areas: all unions of a layout of the one
    and a layout of the other. *)
Definition layouts_product (L1 L2 : list (gset tile)) : list (gset tile) :=
  A1 ← L1; A2 ← L2; [A1 ∪ A2].

(** *** Order of tiles *)

(** The order of Python on pairs: by the first component, then by the
    second. *)
Definition tile_lt (a b : tile) : Prop :=
  a.1 < b.1 ∨ (a.1 = b.1 ∧ a.2 < b.2).

(** *** Grouping and the choice of the tile *)

(** The number of equations of [constraints] that mention the tile [t]. *)
Definition occurrences (t : tile) (constraints : list BombEquation) : Z :=
  Z.of_nat (length (filter (λ e, t ∈ tiles e) constraints)).

(** [R] holds between every two elements at different positions of [l]. *)
Fixpoint pairwise {A} (R : A → A → Prop) (l : list A) : Prop :=
  match l with
  | [] => True
  | x :: l' => Forall (R x) l' ∧ pairwise R l'
  end.

(** The body of the inner loop of [find_tile_to_recurse_on]: the tile [t]
    is counted, and it becomes the tile to return when its count is
    greater than the count of the current one. *)
Definition count_tile : tile * gmap tile Z → tile → tile * gmap tile Z :=
  λ '(tile_to_return, tile_counts) t,
    let tile_count := default 0 (tile_counts !! t) + 1 in
    let tile_counts : gmap tile Z := <[t := tile_count]> tile_counts in
    if bool_decide (default 0 (tile_counts !! tile_to_return) < tile_count)
    then (t, tile_counts) else (tile_to_return, tile_counts).

(** The invariant of the list of areas in [group_constraints]: no area
    is empty, the tiles of an area are the tiles of its equations, and no
    two areas share a tile. *)
Definition areas_ok (areas : list area) : Prop :=
  Forall (λ a : area, a.1 ≠ [] ∧ a.2 = store_tiles a.1) areas
  ∧ pairwise (λ a b : area, a.2 ## b.2) areas.

(** *** The loops of [solve_area] *)

(** The body of the loop [for bomb in (0, 1)] of [solve_area], with the
    recursive call as [solve_area_rec]. *)
Definition solve_branch (solve_area_rec : list BombEquation → result Solution) (fuel : nat)
    (constraint_group : list BombEquation) (recurse_tile : tile)
    (group_solution : Solution) (bomb : Z) : result Solution :=
  let new_bomb_eq := BombEquation_init [recurse_tile] [bomb] in
  '(ok, constraint_group_copy) ←
    integrate_new_bomb_eqs fuel constraint_group [new_bomb_eq];
  if ok : bool then
    constraint_group_copy ← list_remove_first new_bomb_eq constraint_group_copy;
    sub ← solve_area_rec constraint_group_copy;
    Ok (Solution_iadd group_solution
          (Solution_mul {[ bomb := ({[ recurse_tile := bomb ]}, 1) ]} sub))
  else Ok group_solution.

(** The body of the loop [for constraint_group in grouped_constraints]. *)
Definition solve_group (solve_area_rec : list BombEquation → result Solution) (fuel : nat)
    (solution_so_far : Solution) (constraint_group : list BombEquation) : result Solution :=
  let recurse_tile := find_tile_to_recurse_on constraint_group in
  group_solution ←
    foldlM (solve_branch solve_area_rec fuel constraint_group recurse_tile) ∅ [0; 1];
  Ok (Solution_mul solution_so_far group_solution).

(** The Solution that counts the layouts of a store. *)
Definition exact_solution (constraints : list BombEquation) : Solution :=
  layouts_solution (store_tiles constraints) (layouts constraints).

(** *** The invariant of a Sweeper *)

(** The tiles that an observation takes out of the unconstrained tiles, in
    the order in which [integrate_new_info] removes them. *)
Definition observation_tiles (s : Sweeper) (row column : Z) (info : string) : list tile :=
  match BOMB_KEY (sw_version s) !! info with
  | Some _ => (row, column) :: return_neighbours row column (sw_height s) (sw_width s)
  | None =>
      if bool_decide (info = "B"%string) || bool_decide (info = "Rupoor"%string)
      then [(row, column)] else []
  end.

(** The board has [sw_height] rows of [sw_width] cells. *)
Definition board_ok (s : Sweeper) : Prop :=
  length (sw_board s) = Z.to_nat (sw_height s)
  ∧ Forall (λ r, length r = Z.to_nat (sw_width s)) (sw_board s).

(** What holds of a Sweeper between two calls: the board has the size of
    the game, the store satisfies the store invariant, every tile of the
    store and every unconstrained tile is a tile of the board, and no tile
    is both unconstrained and mentioned by the store. *)
Definition sweeper_ok (s : Sweeper) : Prop :=
  board_ok s
  ∧ store_ok (sw_constraints s)
  ∧ NoDup (sw_unconstrained_tiles s)
  ∧ (∀ t, t ∈ sw_unconstrained_tiles s → in_board s t)
  ∧ (∀ t, t ∈ store_tiles (sw_constraints s) → in_board s t)
  ∧ (∀ t, t ∈ sw_unconstrained_tiles s → t ∉ store_tiles (sw_constraints s)).

(** The invariant of the loop of [process_bomb_fractions] over the tiles,
    started in the state [s]: the game, the store and the message stay as
    they are, the unconstrained tiles only get fewer, and [consistent_tiles]
    holds single-tile facts on tiles of the board that are no longer
    unconstrained. *)
Definition process_inv (s : Sweeper) (st : Sweeper * list BombEquation) : Prop :=
  sw_version st.1 = sw_version s ∧ sw_height st.1 = sw_height s
  ∧ sw_width st.1 = sw_width s ∧ sw_bombs st.1 = sw_bombs s
  ∧ sw_constraints st.1 = sw_constraints s ∧ sw_message st.1 = sw_message s
  ∧ board_ok st.1
  ∧ NoDup (sw_unconstrained_tiles st.1)
  ∧ (∀ t, t ∈ sw_unconstrained_tiles st.1 → t ∈ sw_unconstrained_tiles s)
  ∧ Forall (λ e, ∃ t b, e = BombEquation_init [t] [b] ∧ 0 ≤ b ≤ 1
                        ∧ in_board s t ∧ t ∉ sw_unconstrained_tiles st.1) st.2.

(** The states that a Sweeper reaches from [reset] by observations on
    tiles of its board and by calls of [calculate_board]. *)
Inductive sweeper_run (percent_label : Z → Z → string) (s0 : Sweeper) : Sweeper → Prop :=
| run_reset : sweeper_run percent_label s0 (reset s0)
| run_integrate s fuel row column info s' :
    sweeper_run percent_label s0 s →
    in_board s (row, column) →
    integrate_new_info fuel row column info s = Ok s' →
    sweeper_run percent_label s0 s'
| run_calculate s fuel s' :
    sweeper_run percent_label s0 s →
    calculate_board percent_label fuel s = Ok s' →
    sweeper_run percent_label s0 s'.

(** *** The layouts of a whole game *)

(** The sum of [f] over a list. *)
Definition Zsum {A} (f : A → Z) (l : list A) : Z := foldr (λ x acc, f x + acc) 0 l.

(** The tiles that the Sweeper counts bombs for: the tiles of the store
    and the unconstrained tiles. *)
Definition known_tiles (s : Sweeper) : gset tile :=
  store_tiles (sw_constraints s) ∪ list_to_set (sw_unconstrained_tiles s).

(** The layouts of the game in the state [s]: the sets of known tiles
    with as many bombs as the game has that satisfy every equation of the
    store. *)
Definition global_layouts (s : Sweeper) : list (gset tile) :=
  filter (λ G, Z.of_nat (size G) = sw_bombs s ∧ Forall (satisfies G) (sw_constraints s))
         (subsets (elements (known_tiles s))).

(** *** The labels that [process_bomb_fractions] writes *)

(** The cell of the board at a tile with non-negative coordinates. *)
Definition cell (board : list (list string)) (t : tile) : option string :=
  r ← board !! Z.to_nat t.1; r !! Z.to_nat t.2.

(** The board with the label [label] written at such a tile. *)
Definition set_cell (board : list (list string)) (t : tile) (label : string)
    : list (list string) :=
  match board !! Z.to_nat t.1 with
  | Some r => <[Z.to_nat t.1 := <[Z.to_nat t.2 := label]> r]> board
  | None => board
  end.

(** The label of a tile after [process_bomb_fractions], from the number
    [count] of layouts with a bomb on the tile, the number [total] of
    layouts and the label [old] that the tile had. *)
Definition tile_label (percent_label : Z → Z → string) (v : version_t)
    (count total : Z) (old : string) : string :=
  if bool_decide (count = 0) then
    match BOMB_KEY v !! old with
    | Some _ => old
    | None => "S"
    end
  else if bool_decide (count = total) then
    if bool_decide (old = "B") || bool_decide (old = "Rupoor") then old else "B/R"
  else percent_label count total.

(** The single-tile facts that [process_bomb_fractions] collects for a
    tile. *)
Definition tile_facts (v : version_t) (count total : Z) (old : string) (t : tile)
    : list BombEquation :=
  if bool_decide (count = 0) then
    match BOMB_KEY v !! old with
    | Some _ => []
    | None => [BombEquation_init [t] [0]]
    end
  else if bool_decide (count = total) then [BombEquation_init [t] [1]]
  else [].

(** The facts collected for a list of tiles with their counts, the old
    labels read from [board]. *)
Definition facts_of (v : version_t) (total : Z) (board : list (list string))
    (items : list (tile * Z)) : list BombEquation :=
  items ≫= (λ item, match cell board item.1 with
                    | Some old => tile_facts v item.2 total old item.1
                    | None => []
                    end).

(** The number of layouts of the game with a bomb on the tile [t]. *)
Definition layout_count (s : Sweeper) (t : tile) : Z :=
  Z.of_nat (length (filter (λ G, t ∈ G) (global_layouts s))).

(** *** Small boards *)

(** A custom board of one row of three tiles with one bomb. *)
Definition small_board : Sweeper := set_custom 1 3 1 (Sweeper_init Classic).

(** The small board with a "1" at [(0, 0)]: the bomb is on [(0, 1)]. *)
Definition small_one : Sweeper :=
  from_Ok small_board (integrate_new_info 10 0 0 "1" small_board).

(** The small board with bombs reported on [(0, 0)] and on [(0, 1)]: one
    more than the game has. *)
Definition small_two : Sweeper :=
  from_Ok small_board
    (s ← integrate_new_info 10 0 0 "B" small_board;
     integrate_new_info 10 0 1 "B" s).

(** *** Example states *)

(** A Classic board on which the tile [(0, 0)] was reported as a bomb. *)
Definition bomb_at_origin : Sweeper :=
  from_Ok (Sweeper_init Classic) (integrate_new_info 10 0 0 "B" (Sweeper_init Classic)).

(** A Classic board with a "6" at [(1, 1)] and a "1" next to it at
    [(1, 2)]: the four tiles that both numbers see would have to hold at
    least three bombs and at most one. *)
Definition six_beside_one : Sweeper :=
  from_Ok (Sweeper_init Classic)
    (s ← integrate_new_info 10 1 1 "6" (Sweeper_init Classic);
     integrate_new_info 10 1 2 "1" s).

(** Three equations that ask for one bomb in each pair of three tiles. *)
Definition three_cycle : list BombEquation :=
  [BombEquation_init [(0, 0); (0, 1)] [1];
   BombEquation_init [(0, 0); (0, 2)] [1];
   BombEquation_init [(0, 1); (0, 2)] [1]].

(** Solutions over three different tiles, each with one layout without a
    bomb and one with a bomb. *)
Definition one_tile_solution (t : tile) : Solution :=
  {[ 0 := ({[ t := 0 ]}, 1); 1 := ({[ t := 1 ]}, 1) ]}.

(** * Properties *)

(** ** The result monad and the list helpers *)

Lemma bind_Ok {A B} (m : result A) (f : A → result B) (b : B) :
  m ≫= f = Ok b ↔ ∃ a, m = Ok a ∧ f a = Ok b.
Proof.
  destruct m; simpl; split; try (intros [? [? ?]]); try done; eauto.
  by simplify_eq.
Qed.

Lemma list_pop_snoc {A} (l : list A) (x : A) : list_pop (l ++ [x]) = Some (l, x).
Proof.
  induction l as [|y l IH]; [done|].
  simpl. rewrite IH. by destruct l.
Qed.

Lemma list_pop_Some {A} (l l' : list A) (x : A) :
  list_pop l = Some (l', x) ↔ l = l' ++ [x].
Proof.
  split; [|intros ->; apply list_pop_snoc].
  destruct (decide (l = [])) as [->|Hne]; [done|].
  destruct (exists_last Hne) as (l0 & y & ->).
  rewrite list_pop_snoc. by intros [= -> ->].
Qed.

Lemma list_pop_None {A} (l : list A) : list_pop l = None ↔ l = [].
Proof.
  split; [|by intros ->].
  destruct (decide (l = [])) as [->|Hne]; [done|].
  destruct (exists_last Hne) as (l0 & y & ->). by rewrite list_pop_snoc.
Qed.

(** ** [BombEquation]: construction and subtraction *)

Lemma list_to_set_elements_tiles (X : gset tile) : list_to_set (elements X) = X.
Proof. apply list_to_set_elements_L. Qed.

Lemma list_to_set_single_tile (t : tile) : (list_to_set [t] : gset tile) = {[ t ]}.
Proof. simpl. apply (right_id_L ∅ (∪)). Qed.

Lemma tiles_init ts bs : tiles (BombEquation_init ts bs) = list_to_set ts.
Proof. done. Qed.

Lemma bombs_init ts bs :
  bombs (BombEquation_init ts bs)
  = filter (λ n, 0 ≤ n ≤ Z.of_nat (size (list_to_set ts : gset tile))) bs.
Proof. done. Qed.

Lemma bombs_init_in_range ts bs :
  Forall (λ n, 0 ≤ n ≤ Z.of_nat (size (tiles (BombEquation_init ts bs))))
         (bombs (BombEquation_init ts bs)).
Proof. rewrite bombs_init tiles_init. apply Forall_forall. by intros n [? _]%list_elem_of_filter. Qed.

Lemma StronglySorted_filter {A} (R : relation A) (P : A → Prop) `{∀ x, Decision (P x)} l :
  StronglySorted R l → StronglySorted R (filter P l).
Proof.
  induction 1 as [|x l Hs IH Hx]; [constructor|].
  rewrite filter_cons. case_decide; [|done].
  constructor; [done|].
  apply Forall_forall. intros y [_ Hy]%list_elem_of_filter.
  by eapply Forall_forall in Hx.
Qed.

(** C9 (as amended).  The constructor keeps exactly the bomb numbers
    between [0] and the number of tiles: [B(e)] is the [bombs] argument
    with the numbers out of this range dropped, in the order given.  It
    neither sorts nor removes duplicates, so the result is strictly
    ascending whenever the argument is. *)
Theorem BombEquation_init_bombs (ts : list tile) (bs : list Z) :
  let e := BombEquation_init ts bs in
  tiles e = list_to_set ts
  ∧ bombs e = filter (λ n, 0 ≤ n ≤ Z.of_nat (size (tiles e))) bs
  ∧ Forall (λ n, 0 ≤ n ≤ Z.of_nat (size (tiles e))) (bombs e)
  ∧ (StronglySorted Z.lt bs → StronglySorted Z.lt (bombs e)).
Proof.
  split; [done|]. split; [done|]. split; [apply bombs_init_in_range|].
  intros Hs. rewrite bombs_init. by apply StronglySorted_filter.
Qed.

Lemma BombEquation_init_bombs_witness :
  let e := BombEquation_init [(0, 0); (0, 1)] [0; 1; 2; 3] in
  tiles e = list_to_set [(0, 0); (0, 1)]
  ∧ bombs e = filter (λ n, 0 ≤ n ≤ Z.of_nat (size (tiles e))) [0; 1; 2; 3]
  ∧ Forall (λ n, 0 ≤ n ≤ Z.of_nat (size (tiles e))) (bombs e)
  ∧ StronglySorted Z.lt (bombs e).
Proof.
  destruct (BombEquation_init_bombs [(0, 0); (0, 1)] [0; 1; 2; 3]) as (H1 & H2 & H3 & H4).
  split; [exact H1|]. split; [exact H2|]. split; [exact H3|]. apply H4.
  repeat (constructor; [|repeat (constructor; try lia)]). constructor.
Defined.

(** C9 as stated fails: the constructor returns the bomb numbers in the
    order given, duplicates included. *)
Lemma BombEquation_init_unsorted :
  let e := BombEquation_init [(0, 0)] [1; 1; 0] in
  bombs e = [1; 1; 0] ∧ ¬ Sorted Z.le (bombs e) ∧ ¬ NoDup (bombs e).
Proof.
  assert (Hb : bombs (BombEquation_init [(0, 0)] [1; 1; 0]) = [1; 1; 0]) by by vm_compute.
  cbv zeta. rewrite Hb. split; [done|]. split.
  - intros Hs. apply Sorted_inv in Hs as [Hs _]. apply Sorted_inv in Hs as [_ Hs].
    apply HdRel_inv in Hs. lia.
  - intros Hn. apply NoDup_cons in Hn as [Hn _]. apply Hn. left.
Qed.

Lemma BombEquation_le_spec e1 e2 :
  BombEquation_le e1 e2 = true ↔ tiles e1 ⊆ tiles e2 ∧ ∃ b, bombs e1 = [b].
Proof.
  unfold BombEquation_le. rewrite andb_true_iff !bool_decide_eq_true.
  split; intros [? Hb]; (split; [done|]).
  - destruct (bombs e1) as [|b [|??]]; naive_solver.
  - by destruct Hb as [b ->].
Qed.

Lemma BombEquation_sub_Ok e2 e1 b :
  bombs e1 = [b] →
  BombEquation_sub e2 e1
  = Ok {| tiles := tiles e2 ∖ tiles e1;
          bombs := filter (λ y, 0 ≤ y ≤ Z.of_nat (size (tiles e2 ∖ tiles e1)))
                          (map (λ x, x - b) (bombs e2)) |}.
Proof.
  intros Hb. unfold BombEquation_sub, BombEquation_init. rewrite Hb.
  by rewrite list_to_set_elements_tiles.
Qed.

(** C6.  For [e1 ⊑ e2] the difference [e2 - e1] is the equation over
    [T(e2) ∖ T(e1)] whose bomb numbers are those [x - b], for [x] in
    [B(e2)], that lie between [0] and [|T(e2)| - |T(e1)|]; so its number
    of tiles is [|T(e2)| - |T(e1)|] and its bomb numbers lie between [0] and
    its number of tiles. *)
Theorem BombEquation_sub_spec (e1 e2 : BombEquation) :
  BombEquation_le e1 e2 = true →
  ∃ b d,
    bombs e1 = [b]
    ∧ BombEquation_sub e2 e1 = Ok d
    ∧ tiles d = tiles e2 ∖ tiles e1
    ∧ bombs d = filter (λ y, 0 ≤ y ≤ Z.of_nat (size (tiles e2)) - Z.of_nat (size (tiles e1)))
                       (map (λ x, x - b) (bombs e2))
    ∧ Z.of_nat (size (tiles d)) = Z.of_nat (size (tiles e2)) - Z.of_nat (size (tiles e1))
    ∧ Forall (λ n, 0 ≤ n ≤ Z.of_nat (size (tiles d))) (bombs d).
Proof.
  intros [Hsub [b Hb]]%BombEquation_le_spec.
  assert (Hsize : Z.of_nat (size (tiles e2 ∖ tiles e1))
                  = Z.of_nat (size (tiles e2)) - Z.of_nat (size (tiles e1))).
  { pose proof (size_union_alt (tiles e1) (tiles e2)) as Hu.
    rewrite (subseteq_union_1_L _ _ Hsub) in Hu. lia. }
  eexists b, _. split; [done|]. split; [by apply BombEquation_sub_Ok|].
  simpl. split; [done|]. split; [by rewrite Hsize|]. split; [done|].
  apply Forall_forall. by intros n [? _]%list_elem_of_filter.
Qed.

Lemma BombEquation_sub_spec_witness :
  ∃ b d,
    bombs (BombEquation_init [(0, 2); (1, 2)] [1]) = [b]
    ∧ BombEquation_sub (BombEquation_init [(0, 2); (1, 2); (2, 2)] [1])
                       (BombEquation_init [(0, 2); (1, 2)] [1]) = Ok d
    ∧ tiles d = tiles (BombEquation_init [(0, 2); (1, 2); (2, 2)] [1])
                ∖ tiles (BombEquation_init [(0, 2); (1, 2)] [1])
    ∧ bombs d = filter (λ y, 0 ≤ y ≤ Z.of_nat (size (tiles (BombEquation_init [(0, 2); (1, 2); (2, 2)] [1])))
                                    - Z.of_nat (size (tiles (BombEquation_init [(0, 2); (1, 2)] [1]))))
                       (map (λ x, x - b) (bombs (BombEquation_init [(0, 2); (1, 2); (2, 2)] [1])))
    ∧ Z.of_nat (size (tiles d))
      = Z.of_nat (size (tiles (BombEquation_init [(0, 2); (1, 2); (2, 2)] [1])))
        - Z.of_nat (size (tiles (BombEquation_init [(0, 2); (1, 2)] [1])))
    ∧ Forall (λ n, 0 ≤ n ≤ Z.of_nat (size (tiles d))) (bombs d).
Proof.
  apply (BombEquation_sub_spec (BombEquation_init [(0, 2); (1, 2)] [1])
           (BombEquation_init [(0, 2); (1, 2); (2, 2)] [1])).
  vm_compute. reflexivity.
Defined.

(** ** The Sweeper: observations *)

Lemma py_index_nonneg {A} (l : list A) (i : Z) (x : A) :
  0 ≤ i → l !! Z.to_nat i = Some x → py_index l i = Ok x.
Proof.
  intros Hi Hl. unfold py_index.
  pose proof (lookup_lt_Some _ _ _ Hl) as Hlt.
  destruct (i <? 0) eqn:E1; [lia|].
  destruct (i <? 0) eqn:E2; [lia|].
  destruct (Z.of_nat (length l) <=? i) eqn:E3; [lia|].
  by rewrite Hl.
Qed.

Lemma py_set_index_nonneg {A} (l : list A) (i : Z) (x : A) :
  0 ≤ i → (Z.to_nat i < length l)%nat → py_set_index l i x = Ok (<[Z.to_nat i := x]> l).
Proof.
  intros Hi Hlt. unfold py_set_index.
  destruct (i <? 0) eqn:E1; [lia|].
  destruct (i <? 0) eqn:E2; [lia|].
  by destruct (Z.of_nat (length l) <=? i) eqn:E3; [lia|].
Qed.

Lemma board_set_nonneg (board : list (list string)) row column r label :
  0 ≤ row → 0 ≤ column →
  board !! Z.to_nat row = Some r → (Z.to_nat column < length r)%nat →
  board_set board (row, column) label
  = Ok (<[Z.to_nat row := <[Z.to_nat column := label]> r]> board).
Proof.
  intros Hr Hc Hrow Hcol. unfold board_set. simpl.
  rewrite (py_index_nonneg _ _ _ Hr Hrow). simpl.
  rewrite (py_set_index_nonneg _ _ _ Hc Hcol). simpl.
  apply py_set_index_nonneg; [done|]. by eapply lookup_lt_Some.
Qed.

Lemma board_get_nonneg (board : list (list string)) row column r label :
  0 ≤ row → 0 ≤ column →
  board !! Z.to_nat row = Some r → r !! Z.to_nat column = Some label →
  board_get board (row, column) = Ok label.
Proof.
  intros Hr Hc Hrow Hcol. unfold board_get. simpl.
  rewrite (py_index_nonneg _ _ _ Hr Hrow). simpl.
  by apply py_index_nonneg.
Qed.

Lemma integrate_new_info_unrecognised_eq fuel row column info s :
  observation_eqs s row column info = None →
  integrate_new_info fuel row column info s
  = board ← board_set (sw_board s) (row, column) info; Ok (set_board s board).
Proof.
  unfold observation_eqs, integrate_new_info. intros Hobs.
  destruct (board_set (sw_board s) (row, column) info) as [board| |]; simpl; [|done..].
  destruct (BOMB_KEY (sw_version s) !! info); [done|].
  by destruct (bool_decide (info = "B"%string) || bool_decide (info = "Rupoor"%string)).
Qed.

(** C8 (as amended).  An observation whose label is neither in the bomb
    key of the version nor a bomb label leaves the constraint store, the
    unconstrained set and the message as they are, and writes the label
    into [board[row][column]]; no other cell changes. *)
Theorem integrate_new_info_unrecognised fuel row column info s r :
  BOMB_KEY (sw_version s) !! info = None →
  info ≠ "B"%string → info ≠ "Rupoor"%string →
  0 ≤ row → 0 ≤ column →
  sw_board s !! Z.to_nat row = Some r → (Z.to_nat column < length r)%nat →
  ∃ s',
    integrate_new_info fuel row column info s = Ok s'
    ∧ sw_constraints s' = sw_constraints s
    ∧ sw_unconstrained_tiles s' = sw_unconstrained_tiles s
    ∧ sw_message s' = sw_message s
    ∧ sw_board s' = <[Z.to_nat row := <[Z.to_nat column := info]> r]> (sw_board s)
    ∧ board_get (sw_board s') (row, column) = Ok info.
Proof.
  intros Hkey HB HR Hrow Hcol Hr Hlen.
  assert (Hobs : observation_eqs s row column info = None).
  { unfold observation_eqs. rewrite Hkey.
    by rewrite !bool_decide_eq_false_2. }
  rewrite (integrate_new_info_unrecognised_eq _ _ _ _ _ Hobs).
  rewrite (board_set_nonneg _ _ _ r) //. simpl.
  eexists. split; [done|]. simpl. do 4 (split; [done|]).
  apply (board_get_nonneg _ _ _ (<[Z.to_nat column := info]> r)); [done..| |].
  - apply list_lookup_insert_eq. by eapply lookup_lt_Some.
  - by apply list_lookup_insert_eq.
Qed.

Lemma integrate_new_info_unrecognised_witness :
  ∃ s',
    integrate_new_info 0 0 0 "F" (Sweeper_init Classic) = Ok s'
    ∧ sw_constraints s' = sw_constraints (Sweeper_init Classic)
    ∧ sw_unconstrained_tiles s' = sw_unconstrained_tiles (Sweeper_init Classic)
    ∧ sw_message s' = sw_message (Sweeper_init Classic)
    ∧ sw_board s' = <[Z.to_nat 0 := <[Z.to_nat 0 := "F"%string]> (replicate 9 ""%string)]>
                      (sw_board (Sweeper_init Classic))
    ∧ board_get (sw_board s') (0, 0) = Ok "F"%string.
Proof.
  apply (integrate_new_info_unrecognised 0 0 0 "F" (Sweeper_init Classic) (replicate 9 ""%string));
    [by vm_compute|done|done|lia|lia|by vm_compute|vm_compute; lia].
Defined.

(** C8 as stated fails: the label is written to the board before the
    label is looked at, so the cell changes. *)
Lemma integrate_new_info_unrecognised_writes_board :
  ∃ s',
    integrate_new_info 0 0 0 "F" (Sweeper_init Classic) = Ok s'
    ∧ board_get (sw_board (Sweeper_init Classic)) (0, 0) = Ok ""%string
    ∧ board_get (sw_board s') (0, 0) = Ok "F"%string
    ∧ sw_board s' ≠ sw_board (Sweeper_init Classic).
Proof.
  eexists. split; [by vm_compute|]. split; [by vm_compute|]. split; [by vm_compute|].
  by vm_compute.
Qed.

(** ** The projection of a Solution onto the board *)

Lemma foldl_add_counts_lookup (g : Z → Z) (items : list (tile * Z)) (bi : gmap tile Z) t :
  NoDup items.*1 →
  foldl (λ (acc : gmap tile Z) '(t, c), <[t := default 0 (acc !! t) + g c]> acc) bi items !! t
  = match (list_to_map items : gmap tile Z) !! t with
    | Some c => Some (default 0 (bi !! t) + g c)
    | None => bi !! t
    end.
Proof.
  revert bi. induction items as [|[t0 c0] items IH]; intros bi Hnd; [done|].
  apply NoDup_cons in Hnd as [Hnotin Hnd]. simpl.
  rewrite IH //. destruct (decide (t = t0)) as [->|Hne].
  - rewrite lookup_insert_eq.
    rewrite (not_elem_of_list_to_map_1 _ t0) //. by rewrite lookup_insert_eq.
  - rewrite lookup_insert_ne //. by rewrite lookup_insert_ne.
Qed.

Lemma foldl_add_counts_map_lookup (g : Z → Z) (F bi : gmap tile Z) t :
  foldl (λ (acc : gmap tile Z) '(t, c), <[t := default 0 (acc !! t) + g c]> acc)
        bi (map_to_list F) !! t
  = match F !! t with
    | Some c => Some (default 0 (bi !! t) + g c)
    | None => bi !! t
    end.
Proof.
  rewrite foldl_add_counts_lookup; [|apply NoDup_fst_map_to_list].
  by rewrite list_to_map_to_list.
Qed.

Lemma foldl_overwrite_lookup (v : Z) (us : list tile) (bi : gmap tile Z) t :
  foldl (λ (acc : gmap tile Z) u, <[u := v]> acc) bi us !! t
  = if decide (t ∈ us) then Some v else bi !! t.
Proof.
  revert bi. induction us as [|u us IH]; intros bi; cbn [foldl].
  - case_decide as Hin; [|done]. by apply elem_of_nil in Hin.
  - rewrite IH. destruct (decide (t ∈ us)) as [Hin|Hnin].
    + case_decide as Hin'; [done|]. exfalso. apply Hin'. by right.
    + destruct (decide (t = u)) as [->|Hne].
      * rewrite lookup_insert_eq. case_decide as Hin'; [done|]. exfalso. apply Hin'. by left.
      * rewrite lookup_insert_ne //. case_decide as Hin'; [|done].
        by apply elem_of_cons in Hin' as [?|?].
Qed.

Lemma sum_items_cons f k F N items :
  sum_items f ((k, (F, N)) :: items) = f k F N + sum_items f items.
Proof. done. Qed.

Lemma fraction_fold_spec U B items bi0 n0 :
  let r := foldl (fraction_step U B) (bi0, n0) items in
  r.2 = n0 + sum_items (λ k _ N, N * comb U (B - k)) items
  ∧ (∀ t, t ≠ (-1, -1) →
       default 0 (r.1 !! t)
       = default 0 (bi0 !! t) + sum_items (λ k F _, default 0 (F !! t) * comb U (B - k)) items)
  ∧ (∀ t, t ≠ (-1, -1) →
       is_Some (r.1 !! t) ↔ is_Some (bi0 !! t) ∨ Exists (λ e, is_Some (e.2.1 !! t)) items)
  ∧ (Forall (λ e, e.2.1 !! (-1, -1) = None) items →
       r.1 !! (-1, -1)
       = match items with
         | [] => bi0 !! (-1, -1)
         | _ :: _ =>
             Some (default 0 (bi0 !! (-1, -1))
                   + sum_items (λ k _ N, N * comb (U - 1) (B - k - 1)) items)
         end).
Proof.
  revert bi0 n0. induction items as [|[k [F N]] items IH]; intros bi0 n0.
  { simpl. split; [lia|]. split; [intros; lia|]. split; [|done].
    intros t _. split; [by left|]. intros [?|H]; [done|]. by apply Exists_nil in H. }
  cbn [foldl]. specialize (IH (fraction_step U B (bi0, n0) (k, (F, N))).1
                             (fraction_step U B (bi0, n0) (k, (F, N))).2).
  rewrite -surjective_pairing in IH. cbv zeta in IH |- *.
  destruct IH as (IHn & IHv & IHs & IHsent).
  set (C := comb U (B - k)) in *.
  set (bi1 := foldl (λ (acc : gmap tile Z) '(t, c), <[t := default 0 (acc !! t) + c * C]> acc)
                bi0 (map_to_list F)).
  assert (Hstep : fraction_step U B (bi0, n0) (k, (F, N))
                  = (<[(-1, -1) := default 0 (bi1 !! (-1, -1)) + N * comb (U - 1) (B - k - 1)]> bi1,
                     n0 + N * C)) by done.
  rewrite Hstep in IHn IHv IHs IHsent. cbn [fst snd] in *.
  assert (Hbi1 : ∀ t, bi1 !! t = match F !! t with
                                  | Some c => Some (default 0 (bi0 !! t) + c * C)
                                  | None => bi0 !! t
                                  end).
  { intros t. apply (foldl_add_counts_map_lookup (λ c, c * C)). }
  split; [rewrite IHn sum_items_cons; lia|].
  split; [|split].
  - intros t Ht. rewrite IHv // lookup_insert_ne // Hbi1 sum_items_cons.
    destruct (F !! t); simpl; lia.
  - intros t Ht. rewrite IHs // lookup_insert_ne // Hbi1 Exists_cons. cbn [fst snd].
    destruct (F !! t) eqn:EF.
    + split; [intros _|intros _; left; by eexists]. right. left. by eexists.
    + split; [intros [?|?]; auto|].
      intros [?|[[? [=]]|?]]; auto.
  - intros [HF Hrest]%Forall_cons. cbn [fst snd] in HF.
    rewrite IHsent // lookup_insert_eq. rewrite Hbi1 HF sum_items_cons.
    destruct items as [|e items]; simpl; f_equal; lia.
Qed.

Lemma elem_of_solution_tiles (solution : Solution) t :
  t ∈ solution_tiles solution
  ↔ ∃ k F N, solution !! k = Some (F, N) ∧ is_Some (F !! t).
Proof.
  unfold solution_tiles.
  apply (map_fold_weak_ind (λ acc (m : Solution),
           t ∈ acc ↔ ∃ k F N, m !! k = Some (F, N) ∧ is_Some (F !! t))).
  - split; [set_solver|]. intros (k & F & N & Hk & _). by rewrite lookup_empty in Hk.
  - intros k [F N] m acc Hk IH. rewrite elem_of_union IH elem_of_dom. split.
    + intros [HF|(k' & F' & N' & Hk' & HF')].
      * exists k, F, N. by rewrite lookup_insert_eq.
      * exists k', F', N'. split; [|done]. rewrite lookup_insert_ne //. congruence.
    + intros (k' & F' & N' & Hk' & HF').
      destruct (decide (k = k')) as [->|Hne].
      * rewrite lookup_insert_eq in Hk'. left. congruence.
      * rewrite lookup_insert_ne // in Hk'. right. eauto.
Qed.

Lemma Exists_items_solution_tiles (solution : Solution) t :
  Exists (λ e, is_Some (e.2.1 !! t)) (map_to_list solution) ↔ t ∈ solution_tiles solution.
Proof.
  rewrite elem_of_solution_tiles Exists_exists. split.
  - intros ([k [F N]] & Hin%elem_of_map_to_list & HF). eauto.
  - intros (k & F & N & Hk & HF). exists (k, (F, N)). by rewrite elem_of_map_to_list.
Qed.

(** The counts that [calculate_bomb_fractions] returns on a Solution that is
    not empty: the three sums of C4. *)
Lemma calculate_bomb_fractions_spec (s : Sweeper) (solution : Solution) :
  let U := Z.of_nat (length (sw_unconstrained_tiles s)) in
  let B := sw_bombs s in
  solution ≠ ∅ →
  (-1, -1) ∉ solution_tiles solution →
  ∃ bomb_instances,
    calculate_bomb_fractions s solution = Ok (bomb_instances, total_layouts U B solution)
    ∧ ∀ t,
        bomb_instances !! t
        = if decide (t ∈ sw_unconstrained_tiles s) then Some (unconstrained_count U B solution)
          else if decide (t ∈ solution_tiles solution ∧ t ≠ (-1, -1))
               then Some (constrained_count U B solution t)
               else None.
Proof.
  intros U B Hne Hsent. unfold calculate_bomb_fractions. fold U B.
  pose proof (fraction_fold_spec U B (map_to_list solution) ∅ 0) as Hspec.
  destruct (foldl (fraction_step U B) (∅, 0) (map_to_list solution)) as [bi n] eqn:Hfold.
  cbv zeta in Hspec. cbn [fst snd] in Hspec.
  destruct Hspec as (Hn & Hv & Hs & Hsentinel).
  assert (Hsent' : bi !! (-1, -1)
                   = Some (0 + sum_items (λ k _ N, N * comb (U - 1) (B - k - 1))
                                         (map_to_list solution))).
  { rewrite Hsentinel.
    - destruct (map_to_list solution) as [|e items] eqn:Hitems; [|done].
      by apply map_to_list_empty_iff in Hitems.
    - apply Forall_forall. intros [k [F N]] Hin%elem_of_map_to_list. cbn [fst snd].
      destruct (F !! (-1, -1)) eqn:EF; [|done]. exfalso. apply Hsent.
      apply elem_of_solution_tiles. exists k, F, N. split; [done|]. by eexists. }
  rewrite Hsent'. clear Hsentinel Hfold.
  eexists. split.
  { f_equal. f_equal. rewrite Hn. unfold total_layouts. lia. }
  intros t. rewrite foldl_overwrite_lookup.
  destruct (decide (t ∈ sw_unconstrained_tiles s)) as [Hu|Hu].
  { by f_equal. }
  destruct (decide (t = (-1, -1))) as [->|Hne'].
  { rewrite lookup_delete_eq. rewrite decide_False //. by intros [_ ?]. }
  rewrite lookup_delete_ne //.
  specialize (Hv t Hne'). specialize (Hs t Hne').
  rewrite lookup_empty in Hv. rewrite lookup_empty in Hs.
  rewrite Exists_items_solution_tiles in Hs.
  destruct (decide (t ∈ solution_tiles solution ∧ t ≠ (-1, -1))) as [[Ht _]|Hnt].
  - destruct (bi !! t) as [v|] eqn:Ebi.
    + simpl in Hv. rewrite Hv. by unfold constrained_count.
    + exfalso. assert (is_Some (None : option Z)) as [? [=]]. apply Hs. by right.
  - destruct (bi !! t) as [v|] eqn:Ebi; [|done].
    exfalso. apply Hnt. split; [|done].
    assert (is_Some (Some v)) as Hv' by by eexists.
    apply Hs in Hv' as [[? [=]]|?]; done.
Qed.

Lemma calculate_bomb_fractions_empty (s : Sweeper) :
  calculate_bomb_fractions s ∅ = Raise KeyError.
Proof. unfold calculate_bomb_fractions. by rewrite map_to_list_empty. Qed.

Lemma process_bomb_fractions_zero percent_label fuel bomb_instances s :
  process_bomb_fractions percent_label fuel bomb_instances 0 s
  = Ok (set_message s "Impossible layout").
Proof. done. Qed.

(** ** The message *)


Lemma integrate_new_info_observed fuel row column info s W board ok cs :
  observation_eqs s row column info = Some W →
  board_set (sw_board s) (row, column) info = Ok board →
  integrate_new_bomb_eqs fuel (sw_constraints s) W = Ok (ok, cs) →
  ∃ s',
    integrate_new_info fuel row column info s = Ok s'
    ∧ sw_board s' = board
    ∧ sw_constraints s' = cs
    ∧ sw_message s' = (if ok then sw_message s else "Impossible layout"%string).
Proof.
  unfold observation_eqs, integrate_new_info. intros Hobs -> Hint. simpl.
  destruct (BOMB_KEY (sw_version s) !! info) as [counts|].
  - injection Hobs as <-. simpl. rewrite Hint. simpl.
    eexists. split; [done|]. by destruct ok.
  - destruct (bool_decide (info = "B"%string) || bool_decide (info = "Rupoor"%string)); [|done].
    injection Hobs as <-. simpl. rewrite Hint. simpl.
    eexists. split; [done|]. by destruct ok.
Qed.







(** ** Layouts *)

Lemma elem_of_subsets (l : list tile) (A : gset tile) :
  A ∈ subsets l ↔ A ⊆ list_to_set l.
Proof.
  revert A. induction l as [|t l IH]; intros A; simpl.
  - rewrite list_elem_of_singleton. set_solver.
  - rewrite elem_of_app list_elem_of_fmap. split.
    + intros [HA%IH|(A' & -> & HA'%IH)]; set_solver.
    + intros HA. destruct (decide (t ∈ A)) as [Ht|Ht].
      * right. exists (A ∖ {[ t ]}). split.
        -- apply set_eq. intros x. rewrite elem_of_union elem_of_singleton elem_of_difference
             elem_of_singleton. destruct (decide (x = t)); naive_solver.
        -- apply IH. set_solver.
      * left. apply IH. set_solver.
Qed.

Lemma tiles_subseteq_store_tiles e (cs : list BombEquation) :
  e ∈ cs → tiles e ⊆ store_tiles cs.
Proof.
  intros He t Ht. unfold store_tiles. apply elem_of_union_list.
  exists (tiles e). split; [|done]. apply list_elem_of_fmap. eauto.
Qed.

Lemma satisfies_inter A e X :
  tiles e ⊆ X → satisfies (A ∩ X) e ↔ satisfies A e.
Proof.
  intros Hsub. unfold satisfies.
  replace (A ∩ X ∩ tiles e) with (A ∩ tiles e); [done|]. set_solver.
Qed.

Lemma elem_of_layouts (cs : list BombEquation) (A : gset tile) :
  A ∈ layouts cs ↔ A ⊆ store_tiles cs ∧ Forall (satisfies A) cs.
Proof.
  unfold layouts. rewrite list_elem_of_filter elem_of_subsets list_to_set_elements_tiles.
  tauto.
Qed.

Lemma layouts_complete (cs : list BombEquation) (A : gset tile) :
  Forall (satisfies A) cs → A ∩ store_tiles cs ∈ layouts cs.
Proof.
  intros Hsat. apply elem_of_layouts. split; [set_solver|].
  apply Forall_forall. intros e He. apply satisfies_inter.
  - by apply tiles_subseteq_store_tiles.
  - by eapply Forall_forall in Hsat.
Qed.

Lemma layouts_nil_unsatisfiable (cs : list BombEquation) :
  layouts cs = [] → ∀ A, ¬ Forall (satisfies A) cs.
Proof.
  intros Hnil A Hsat%layouts_complete. rewrite Hnil in Hsat. by apply elem_of_nil in Hsat.
Qed.

(** ** An unsatisfiable store that the integrator accepts *)

(** C10.  The Classic Sweeper reaches, without a message, a store that no
    layout satisfies; [solve_area] returns the empty Solution on it and
    [calculate_board] raises [KeyError].  The same happens to
    [solve_area] on the three equations that ask for one bomb in each pair
    of three tiles. *)
Theorem undetected_contradiction_raises :
  (∃ s,
     reachable (Sweeper_init Classic) s
     ∧ sw_message s = ""%string
     ∧ (∀ A, ¬ Forall (satisfies A) (sw_constraints s))
     ∧ solve_area 20 (sw_constraints s) = Ok ∅
     ∧ ∀ percent_label, calculate_board percent_label 20 s = Raise KeyError)
  ∧ (∀ A, ¬ Forall (satisfies A) three_cycle)
  ∧ solve_area 20 three_cycle = Ok ∅.
Proof.
  split; [|split].
  - exists six_beside_one. split; [|split; [|split; [|split]]].
    + eapply (reachable_integrate _ _ 10 1 2 "1").
      * eapply (reachable_integrate _ _ 10 1 1 "6"); [apply reachable_reset|..].
        -- vm_compute. intuition congruence.
        -- vm_compute. reflexivity.
      * vm_compute. intuition congruence.
      * vm_compute. reflexivity.
    + by vm_compute.
    + apply layouts_nil_unsatisfiable. by vm_compute.
    + by vm_compute.
    + intros percent_label. by vm_compute.
  - apply layouts_nil_unsatisfiable. by vm_compute.
  - by vm_compute.
Qed.

(** C4, where the code departs from the claim.  On the empty Solution the
    number of layouts of the claim is the empty sum [0], yet
    [calculate_board] raises [KeyError] at [bomb_instances.pop((-1, -1))]
    and no message is set. *)
Theorem calculate_board_empty_solution percent_label fuel s :
  solve_area fuel (sw_constraints s) = Ok ∅ →
  total_layouts (Z.of_nat (length (sw_unconstrained_tiles s))) (sw_bombs s) ∅ = 0
  ∧ calculate_board percent_label fuel s = Raise KeyError.
Proof.
  intros Hsol. split.
  - unfold total_layouts. by rewrite map_to_list_empty.
  - unfold calculate_board. rewrite Hsol. simpl.
    by rewrite calculate_bomb_fractions_empty.
Qed.

Lemma calculate_board_empty_solution_witness :
  total_layouts (Z.of_nat (length (sw_unconstrained_tiles six_beside_one)))
                (sw_bombs six_beside_one) ∅ = 0
  ∧ calculate_board percent_label_exact 20 six_beside_one = Raise KeyError.
Proof.
  apply (calculate_board_empty_solution percent_label_exact 20 six_beside_one).
  vm_compute. reflexivity.
Defined.

(** ** The algebra of Solutions *)

Lemma foldl_insert_lookup {V A} (h : tile → A → option V → V)
    (items : list (tile * A)) (acc : gmap tile V) t :
  NoDup items.*1 →
  foldl (λ (acc : gmap tile V) '(t, v), <[t := h t v (acc !! t)]> acc) acc items !! t
  = match (list_to_map items : gmap tile A) !! t with
    | Some v => Some (h t v (acc !! t))
    | None => acc !! t
    end.
Proof.
  revert acc. induction items as [|[t0 c0] items IH]; intros acc Hnd; [done|].
  apply NoDup_cons in Hnd as [Hnotin Hnd]. simpl.
  rewrite IH //. destruct (decide (t = t0)) as [->|Hne].
  - rewrite lookup_insert_eq.
    rewrite (not_elem_of_list_to_map_1 _ t0) //. by rewrite lookup_insert_eq.
  - rewrite lookup_insert_ne //. by rewrite lookup_insert_ne.
Qed.

Lemma add_bomb_counts_eq (F Fo : gmap tile Z) :
  add_bomb_counts F (map_to_list Fo) = union_with (λ x y, Some (x + y)) F Fo.
Proof.
  apply map_eq. intros t. unfold add_bomb_counts.
  rewrite (foldl_add_counts_map_lookup (λ c, c)) lookup_union_with.
  destruct (F !! t), (Fo !! t); simpl; f_equal; lia.
Qed.

Lemma foldl_scale_eq (n : Z) (F acc : gmap tile Z) :
  foldl (λ (acc : gmap tile Z) '(t, c), <[t := c * n]> acc) acc (map_to_list F)
  = ((λ c, c * n) <$> F) ∪ acc.
Proof.
  apply map_eq. intros t.
  rewrite (foldl_insert_lookup (λ _ c _, c * n)); [|apply NoDup_fst_map_to_list].
  rewrite list_to_map_to_list lookup_union lookup_fmap.
  by destruct (F !! t), (acc !! t).
Qed.

Lemma mul_entry_eq (k1 : Z) (e1 : gmap tile Z * Z) (k2 : Z) (e2 : gmap tile Z * Z) :
  mul_entry (k1, e1) (k2, e2) = {[ k1 + k2 := entry_mul e1 e2 ]}.
Proof.
  destruct e1 as [F1 N1], e2 as [F2 N2]. unfold mul_entry, entry_mul. cbn [fst snd].
  rewrite !foldl_scale_eq. by rewrite (right_id_L ∅ (∪)).
Qed.

(** [Solution_iadd] adds the entries key by key. *)
Lemma iadd_items_lookup (self : Solution) (items : list (Z * (gmap tile Z * Z))) k :
  NoDup items.*1 →
  iadd_items self items !! k
  = match (list_to_map items : Solution) !! k with
    | Some e => Some (entry_add (default (∅, 0) (self !! k)) e)
    | None => self !! k
    end.
Proof.
  revert self. induction items as [|[k0 [Fo No]] items IH]; intros self Hnd; [done|].
  apply NoDup_cons in Hnd as [Hnotin Hnd]. unfold iadd_items in *. cbn [foldl].
  rewrite IH //. destruct (default (∅, 0) (self !! k0)) as [F N] eqn:Hd.
  destruct (decide (k = k0)) as [->|Hne].
  - rewrite lookup_insert_eq.
    rewrite (not_elem_of_list_to_map_1 _ k0) //. rewrite lookup_insert_eq.
    rewrite Hd. unfold entry_add. cbn [fst snd]. by rewrite add_bomb_counts_eq.
  - rewrite lookup_insert_ne //. by rewrite lookup_insert_ne.
Qed.

Lemma entry_add_empty_l (e : gmap tile Z * Z) : entry_add (∅, 0) e = e.
Proof.
  destruct e as [F N]. unfold entry_add. cbn [fst snd]. f_equal.
  apply (left_id_L ∅ (union_with _)).
Qed.

Lemma Solution_iadd_eq (self other : Solution) :
  Solution_iadd self other = union_with (λ e1 e2, Some (entry_add e1 e2)) self other.
Proof.
  unfold Solution_iadd. case_decide as Hempty.
  - subst. by rewrite (left_id_L ∅ (union_with _)).
  - apply map_eq. intros k. rewrite iadd_items_lookup; [|apply NoDup_fst_map_to_list].
    rewrite list_to_map_to_list lookup_union_with.
    destruct (self !! k) as [e1|], (other !! k) as [e2|]; simpl; try done.
    by rewrite entry_add_empty_l.
Qed.

Lemma lookup_iadd (a b : Solution) k :
  Solution_iadd a b !! k = union_with (λ e1 e2, Some (entry_add e1 e2)) (a !! k) (b !! k).
Proof. by rewrite Solution_iadd_eq lookup_union_with. Qed.

Lemma entry_add_comm (e1 e2 : gmap tile Z * Z) : entry_add e1 e2 = entry_add e2 e1.
Proof.
  destruct e1 as [F1 N1], e2 as [F2 N2]. unfold entry_add. cbn [fst snd]. f_equal; [|lia].
  apply map_eq. intros t. rewrite !lookup_union_with.
  destruct (F1 !! t), (F2 !! t); simpl; f_equal; lia.
Qed.

Lemma entry_add_assoc (e1 e2 e3 : gmap tile Z * Z) :
  entry_add (entry_add e1 e2) e3 = entry_add e1 (entry_add e2 e3).
Proof.
  destruct e1 as [F1 N1], e2 as [F2 N2], e3 as [F3 N3]. unfold entry_add. cbn [fst snd].
  f_equal; [|lia].
  apply map_eq. intros t. rewrite !lookup_union_with.
  destruct (F1 !! t), (F2 !! t), (F3 !! t); simpl; f_equal; lia.
Qed.

Lemma Solution_iadd_comm (a b : Solution) : Solution_iadd a b = Solution_iadd b a.
Proof.
  apply map_eq. intros k. rewrite !lookup_iadd.
  destruct (a !! k), (b !! k); simpl; try done. by rewrite entry_add_comm.
Qed.

Lemma Solution_iadd_assoc (a b c : Solution) :
  Solution_iadd (Solution_iadd a b) c = Solution_iadd a (Solution_iadd b c).
Proof.
  apply map_eq. intros k. rewrite !lookup_iadd.
  destruct (a !! k), (b !! k), (c !! k); simpl; try done. by rewrite entry_add_assoc.
Qed.

Lemma Solution_iadd_empty_l (a : Solution) : Solution_iadd ∅ a = a.
Proof. unfold Solution_iadd. by case_decide. Qed.

Lemma Solution_iadd_empty_r (a : Solution) : Solution_iadd a ∅ = a.
Proof. by rewrite Solution_iadd_comm Solution_iadd_empty_l. Qed.

Lemma Solution_iadd_singleton (k : Z) (e1 e2 : gmap tile Z * Z) :
  Solution_iadd {[ k := e1 ]} {[ k := e2 ]} = ({[ k := entry_add e1 e2 ]} : Solution).
Proof.
  apply map_eq. intros k'. rewrite lookup_iadd.
  destruct (decide (k = k')) as [->|Hne].
  - by rewrite !lookup_singleton_eq.
  - by rewrite !lookup_singleton_ne.
Qed.

Lemma Solution_iadd_insert_fresh (k : Z) (e : gmap tile Z * Z) (a : Solution) :
  a !! k = None → Solution_iadd {[ k := e ]} a = <[k := e]> a.
Proof.
  intros Hk. apply map_eq. intros k'. rewrite lookup_iadd.
  destruct (decide (k = k')) as [->|Hne].
  - by rewrite lookup_singleton_eq lookup_insert_eq Hk.
  - rewrite lookup_singleton_ne // lookup_insert_ne //. by destruct (a !! k').
Qed.

Lemma Solution_iadd_swap4 (a b c d : Solution) :
  Solution_iadd (Solution_iadd a b) (Solution_iadd c d)
  = Solution_iadd (Solution_iadd a c) (Solution_iadd b d).
Proof.
  rewrite !Solution_iadd_assoc. f_equal.
  rewrite -!Solution_iadd_assoc. f_equal. apply Solution_iadd_comm.
Qed.

Lemma foldl_iadd_big_sum {A} (g : A → Solution) (l : list A) (acc : Solution) :
  foldl (λ acc x, Solution_iadd acc (g x)) acc l = Solution_iadd acc (big_sum g l).
Proof.
  revert acc. induction l as [|x l IH]; intros acc; simpl.
  - by rewrite Solution_iadd_empty_r.
  - by rewrite IH Solution_iadd_assoc.
Qed.

Lemma big_sum_app {A} (g : A → Solution) (l1 l2 : list A) :
  big_sum g (l1 ++ l2) = Solution_iadd (big_sum g l1) (big_sum g l2).
Proof.
  induction l1 as [|x l1 IH]; simpl.
  - by rewrite Solution_iadd_empty_l.
  - by rewrite IH Solution_iadd_assoc.
Qed.

Lemma big_sum_perm {A} (g : A → Solution) (l1 l2 : list A) :
  l1 ≡ₚ l2 → big_sum g l1 = big_sum g l2.
Proof.
  induction 1 as [|x l1 l2 _ IH|x y l|l1 l2 l3 _ IH1 _ IH2]; simpl.
  - done.
  - by rewrite IH.
  - rewrite -!Solution_iadd_assoc. f_equal. apply Solution_iadd_comm.
  - by rewrite IH1.
Qed.

Lemma big_sum_iadd {A} (f g : A → Solution) (l : list A) :
  big_sum (λ x, Solution_iadd (f x) (g x)) l = Solution_iadd (big_sum f l) (big_sum g l).
Proof.
  induction l as [|x l IH]; simpl.
  - by rewrite Solution_iadd_empty_l.
  - by rewrite IH Solution_iadd_swap4.
Qed.

Lemma big_sum_empty {A} (l : list A) : big_sum (λ _, ∅) l = ∅.
Proof. induction l as [|x l IH]; simpl; [done|]. by rewrite IH Solution_iadd_empty_l. Qed.

Lemma big_sum_ext {A} (f g : A → Solution) (l : list A) :
  (∀ x, x ∈ l → f x = g x) → big_sum f l = big_sum g l.
Proof.
  induction l as [|x l IH]; intros Hfg; simpl; [done|].
  rewrite Hfg; [|by left]. rewrite IH; [done|]. intros y Hy. apply Hfg. by right.
Qed.

Lemma big_sum_swap {A B} (h : A → B → Solution) (la : list A) (lb : list B) :
  big_sum (λ x, big_sum (h x) lb) la = big_sum (λ y, big_sum (λ x, h x y) la) lb.
Proof.
  induction la as [|x la IH]; simpl.
  - by rewrite big_sum_empty.
  - by rewrite IH -big_sum_iadd.
Qed.

Lemma big_sum_insert (g : Z * (gmap tile Z * Z) → Solution) (k : Z) (e : gmap tile Z * Z)
    (m : Solution) :
  m !! k = None →
  big_sum g (map_to_list (<[k := e]> m)) = Solution_iadd (g (k, e)) (big_sum g (map_to_list m)).
Proof. intros Hk. by rewrite (big_sum_perm _ _ _ (map_to_list_insert m k e Hk)). Qed.

Lemma big_sum_delete (g : Z * (gmap tile Z * Z) → Solution) (k : Z) (e : gmap tile Z * Z)
    (m : Solution) :
  m !! k = Some e →
  big_sum g (map_to_list m) = Solution_iadd (g (k, e)) (big_sum g (map_to_list (delete k m))).
Proof.
  intros Hk. rewrite -{1}(insert_delete_id m k e Hk).
  apply big_sum_insert. apply lookup_delete_eq.
Qed.

(** A sum over the items of [a ⊕ b] splits when the summand is additive in
    the entry. *)
Lemma big_sum_iadd_map (g : Z * (gmap tile Z * Z) → Solution) (a b : Solution) :
  (∀ k e e', g (k, entry_add e e') = Solution_iadd (g (k, e)) (g (k, e'))) →
  big_sum g (map_to_list (Solution_iadd a b))
  = Solution_iadd (big_sum g (map_to_list a)) (big_sum g (map_to_list b)).
Proof.
  intros Hlin. revert a. induction b as [|k e b Hk IH] using map_ind; intros a.
  { rewrite Solution_iadd_empty_r map_to_list_empty. simpl.
    by rewrite Solution_iadd_empty_r. }
  rewrite (big_sum_insert _ _ _ _ Hk).
  destruct (a !! k) as [e0|] eqn:Ha.
  - assert (Solution_iadd a (<[k := e]> b)
            = <[k := entry_add e0 e]> (Solution_iadd (delete k a) b)) as ->.
    { apply map_eq. intros k'. rewrite lookup_iadd.
      destruct (decide (k = k')) as [<-|Hne].
      - by rewrite !lookup_insert_eq Ha.
      - by rewrite !lookup_insert_ne // lookup_iadd lookup_delete_ne. }
    rewrite big_sum_insert; last first.
    { by rewrite lookup_iadd lookup_delete_eq Hk. }
    rewrite IH Hlin (big_sum_delete _ _ _ _ Ha). apply Solution_iadd_swap4.
  - assert (Solution_iadd a (<[k := e]> b) = <[k := e]> (Solution_iadd a b)) as ->.
    { apply map_eq. intros k'. rewrite lookup_iadd.
      destruct (decide (k = k')) as [<-|Hne].
      - by rewrite !lookup_insert_eq Ha.
      - by rewrite !lookup_insert_ne // lookup_iadd. }
    rewrite big_sum_insert; last first.
    { by rewrite lookup_iadd Ha Hk. }
    rewrite IH -!Solution_iadd_assoc. f_equal. apply Solution_iadd_comm.
Qed.

(** [Solution_mul] is the sum of the one-entry Solutions of all pairs of
    items. *)
Lemma Solution_mul_eq (a b : Solution) :
  Solution_mul a b
  = big_sum (λ x, big_sum (λ y, {[ x.1 + y.1 := entry_mul x.2 y.2 ]}) (map_to_list b))
            (map_to_list a).
Proof.
  unfold Solution_mul.
  assert (Hgen : ∀ la acc,
    foldl (λ res e1,
             foldl (λ res e2, Solution_iadd res (mul_entry e1 e2)) res (map_to_list b)) acc la
    = Solution_iadd acc
        (big_sum (λ x, big_sum (λ y, {[ x.1 + y.1 := entry_mul x.2 y.2 ]}) (map_to_list b)) la)).
  { induction la as [|[k1 e1] la IH]; intros acc; simpl.
    - by rewrite Solution_iadd_empty_r.
    - rewrite IH foldl_iadd_big_sum Solution_iadd_assoc. do 2 f_equal.
      apply big_sum_ext. intros [k2 e2] _. apply mul_entry_eq. }
  by rewrite Hgen Solution_iadd_empty_l.
Qed.

Lemma entry_mul_add_l (e e' e2 : gmap tile Z * Z) :
  entry_mul (entry_add e e') e2 = entry_add (entry_mul e e2) (entry_mul e' e2).
Proof.
  destruct e as [F N], e' as [F' N'], e2 as [F2 N2]. unfold entry_mul, entry_add.
  cbn [fst snd]. f_equal; [|lia].
  apply map_eq. intros t.
  rewrite lookup_union_with !lookup_union !lookup_fmap lookup_union_with.
  destruct (F !! t), (F' !! t), (F2 !! t);
    cbv [union option_union union_with option_union_with fmap option_fmap option_map];
    try done; f_equal; lia.
Qed.

Lemma entry_mul_comm (e1 e2 : gmap tile Z * Z) :
  dom e1.1 ## dom e2.1 → entry_mul e1 e2 = entry_mul e2 e1.
Proof.
  destruct e1 as [F1 N1], e2 as [F2 N2]. unfold entry_mul. cbn [fst snd]. intros Hdisj.
  f_equal; [|lia]. apply map_union_comm.
  apply map_disjoint_dom. rewrite !dom_fmap_L. set_solver.
Qed.

Lemma entry_mul_rotate (e1 e2 e3 : gmap tile Z * Z) :
  dom e1.1 ## dom e2.1 → dom e1.1 ## dom e3.1 → dom e2.1 ## dom e3.1 →
  entry_mul (entry_mul e2 e3) e1 = entry_mul (entry_mul e1 e2) e3.
Proof.
  destruct e1 as [F1 N1], e2 as [F2 N2], e3 as [F3 N3]. unfold entry_mul. cbn [fst snd].
  intros H12 H13 H23. f_equal; [|lia].
  apply map_eq. intros t.
  rewrite !lookup_union !lookup_fmap !lookup_union !lookup_fmap.
  destruct (F1 !! t) eqn:E1, (F2 !! t) eqn:E2, (F3 !! t) eqn:E3;
    cbv [union option_union union_with option_union_with fmap option_fmap option_map];
    try done; try (f_equal; lia);
    exfalso; apply elem_of_dom_2 in E1 || idtac; apply elem_of_dom_2 in E2 || idtac;
    apply elem_of_dom_2 in E3 || idtac; set_solver.
Qed.

Lemma entry_mul_one_r (e : gmap tile Z * Z) : entry_mul e (∅, 1) = e.
Proof.
  destruct e as [F N]. unfold entry_mul. cbn [fst snd].
  rewrite fmap_empty (left_id_L ∅ (∪)). f_equal; [|lia].
  rewrite -{2}(map_fmap_id F). apply map_fmap_ext. intros; simpl; lia.
Qed.

Lemma entry_mul_one_l (e : gmap tile Z * Z) : entry_mul (∅, 1) e = e.
Proof.
  destruct e as [F N]. unfold entry_mul. cbn [fst snd].
  rewrite fmap_empty (right_id_L ∅ (∪)). f_equal; [|lia].
  rewrite -{2}(map_fmap_id F). apply map_fmap_ext. intros; simpl; lia.
Qed.

Lemma item_tiles_subseteq (a : Solution) (x : Z * (gmap tile Z * Z)) :
  x ∈ map_to_list a → dom x.2.1 ⊆ solution_tiles a.
Proof.
  destruct x as [k [F N]]. intros Hin%elem_of_map_to_list t Ht%elem_of_dom.
  apply elem_of_solution_tiles. eauto.
Qed.

Lemma lookup_union_with_add_is_Some (F1 F2 : gmap tile Z) t :
  is_Some (union_with (λ x y, Some (x + y)) F1 F2 !! t)
  ↔ is_Some (F1 !! t) ∨ is_Some (F2 !! t).
Proof.
  rewrite lookup_union_with.
  destruct (F1 !! t), (F2 !! t); simpl; split; try (intros [?|?]); eauto;
    by apply is_Some_None in H.
Qed.

Lemma elem_of_solution_tiles_iadd (a b : Solution) t :
  t ∈ solution_tiles (Solution_iadd a b) ↔ t ∈ solution_tiles a ∨ t ∈ solution_tiles b.
Proof.
  rewrite !elem_of_solution_tiles. split.
  - intros (k & F & N & Hk & Ht). rewrite lookup_iadd in Hk.
    destruct (a !! k) as [[F1 N1]|] eqn:Ha, (b !! k) as [[F2 N2]|] eqn:Hb;
      unfold entry_add in Hk; simpl in Hk; simplify_eq.
    + apply lookup_union_with_add_is_Some in Ht as [Ht|Ht]; [left|right]; eauto 6.
    + left. eauto 6.
    + right. eauto 6.
  - intros [(k & F & N & Hk & Ht)|(k & F & N & Hk & Ht)].
    + destruct (b !! k) as [[F2 N2]|] eqn:Hb.
      * exists k, (union_with (λ x y, Some (x + y)) F F2), (N + N2).
        rewrite lookup_iadd Hk Hb. split; [done|].
        apply lookup_union_with_add_is_Some. by left.
      * exists k, F, N. by rewrite lookup_iadd Hk Hb.
    + destruct (a !! k) as [[F1 N1]|] eqn:Ha.
      * exists k, (union_with (λ x y, Some (x + y)) F1 F), (N1 + N).
        rewrite lookup_iadd Hk Ha. split; [done|].
        apply lookup_union_with_add_is_Some. by right.
      * exists k, F, N. by rewrite lookup_iadd Hk Ha.
Qed.

Lemma solution_tiles_empty : solution_tiles ∅ = ∅.
Proof. done. Qed.

Lemma elem_of_solution_tiles_singleton (k : Z) (e : gmap tile Z * Z) t :
  t ∈ solution_tiles {[ k := e ]} ↔ t ∈ dom e.1.
Proof.
  rewrite elem_of_solution_tiles elem_of_dom. split.
  - intros (k' & F & N & [-> Heq]%lookup_singleton_Some & Ht). by subst.
  - intros Ht. destruct e as [F N]. exists k, F, N. by rewrite lookup_singleton_eq.
Qed.

Lemma elem_of_solution_tiles_big_sum {A} (g : A → Solution) (l : list A) t :
  t ∈ solution_tiles (big_sum g l) → ∃ x, x ∈ l ∧ t ∈ solution_tiles (g x).
Proof.
  induction l as [|x l IH]; simpl.
  - rewrite solution_tiles_empty. set_solver.
  - intros [Ht|Ht]%elem_of_solution_tiles_iadd.
    + exists x. split; [by left|done].
    + destruct (IH Ht) as (y & Hy & Hty). exists y. split; [by right|done].
Qed.

Lemma solution_tiles_mul (a b : Solution) :
  solution_tiles (Solution_mul a b) ⊆ solution_tiles a ∪ solution_tiles b.
Proof.
  intros t. rewrite Solution_mul_eq.
  intros (x & Hx & Ht)%elem_of_solution_tiles_big_sum.
  apply elem_of_solution_tiles_big_sum in Ht as (y & Hy & Ht).
  apply elem_of_solution_tiles_singleton in Ht.
  apply item_tiles_subseteq in Hx, Hy.
  unfold entry_mul in Ht. cbn [fst snd] in Ht.
  rewrite dom_union_L !dom_fmap_L in Ht. set_solver.
Qed.

Lemma Solution_mul_iadd_l (a a' c : Solution) :
  Solution_mul (Solution_iadd a a') c = Solution_iadd (Solution_mul a c) (Solution_mul a' c).
Proof.
  rewrite !Solution_mul_eq.
  apply (big_sum_iadd_map
           (λ x, big_sum (λ y, {[ x.1 + y.1 := entry_mul x.2 y.2 ]}) (map_to_list c))).
  intros k e e'. cbn [fst snd]. rewrite -big_sum_iadd.
  apply big_sum_ext. intros [k2 e2] _. cbn [fst snd].
  by rewrite entry_mul_add_l Solution_iadd_singleton.
Qed.

Lemma Solution_mul_comm (a b : Solution) :
  solution_tiles a ## solution_tiles b → Solution_mul a b = Solution_mul b a.
Proof.
  intros Hdisj. rewrite !Solution_mul_eq big_sum_swap.
  apply big_sum_ext. intros y Hy. apply big_sum_ext. intros x Hx.
  apply item_tiles_subseteq in Hx, Hy.
  rewrite (Z.add_comm x.1 y.1) entry_mul_comm; [done|]. set_solver.
Qed.

Lemma Solution_mul_empty_l (c : Solution) : Solution_mul ∅ c = ∅.
Proof. by rewrite Solution_mul_eq map_to_list_empty. Qed.

Lemma Solution_mul_singleton_l (k : Z) (e : gmap tile Z * Z) (c : Solution) :
  Solution_mul {[ k := e ]} c
  = big_sum (λ y, {[ k + y.1 := entry_mul e y.2 ]}) (map_to_list c).
Proof.
  rewrite Solution_mul_eq map_to_list_singleton. simpl.
  by rewrite Solution_iadd_empty_r.
Qed.

Lemma Solution_mul_big_sum_l {A} (g : A → Solution) (l : list A) (c : Solution) :
  Solution_mul (big_sum g l) c = big_sum (λ x, Solution_mul (g x) c) l.
Proof.
  induction l as [|x l IH]; simpl.
  - apply Solution_mul_empty_l.
  - by rewrite Solution_mul_iadd_l IH.
Qed.

Lemma Solution_mul_mul_l (a b c : Solution) :
  Solution_mul (Solution_mul a b) c
  = big_sum (λ x, big_sum (λ y, big_sum (λ z,
        {[ x.1 + y.1 + z.1 := entry_mul (entry_mul x.2 y.2) z.2 ]})
      (map_to_list c)) (map_to_list b)) (map_to_list a).
Proof.
  rewrite (Solution_mul_eq a b) Solution_mul_big_sum_l.
  apply big_sum_ext. intros x _. rewrite Solution_mul_big_sum_l.
  apply big_sum_ext. intros y _. by rewrite Solution_mul_singleton_l.
Qed.

Lemma Solution_mul_assoc (a b c : Solution) :
  solution_tiles a ## solution_tiles b →
  solution_tiles a ## solution_tiles c →
  solution_tiles b ## solution_tiles c →
  Solution_mul (Solution_mul a b) c = Solution_mul a (Solution_mul b c).
Proof.
  intros Hab Hac Hbc.
  rewrite (Solution_mul_comm a (Solution_mul b c)); last first.
  { pose proof (solution_tiles_mul b c). set_solver. }
  rewrite !Solution_mul_mul_l.
  transitivity (big_sum (λ y, big_sum (λ x, big_sum (λ z,
        {[ y.1 + z.1 + x.1 := entry_mul (entry_mul y.2 z.2) x.2 ]})
      (map_to_list c)) (map_to_list a)) (map_to_list b)).
  - rewrite big_sum_swap. apply big_sum_ext. intros y Hy.
    apply big_sum_ext. intros x Hx. apply big_sum_ext. intros z Hz.
    apply item_tiles_subseteq in Hx, Hy, Hz.
    replace (y.1 + z.1 + x.1) with (x.1 + y.1 + z.1) by lia.
    rewrite (entry_mul_rotate x.2 y.2 z.2); [done|set_solver..].
  - apply big_sum_ext. intros y _. apply big_sum_swap.
Qed.

Lemma big_sum_singletons (a : Solution) :
  big_sum (λ x, {[ x.1 := x.2 ]}) (map_to_list a) = a.
Proof.
  induction a as [|k e a Hk IH] using map_ind.
  - by rewrite map_to_list_empty.
  - rewrite big_sum_insert // IH. cbn [fst snd]. by apply Solution_iadd_insert_fresh.
Qed.

Lemma Solution_mul_one_r (a : Solution) : Solution_mul a {[ 0 := (∅, 1) ]} = a.
Proof.
  rewrite Solution_mul_eq map_to_list_singleton. rewrite -{2}(big_sum_singletons a).
  apply big_sum_ext. intros [k e] _. simpl.
  by rewrite Solution_iadd_empty_r entry_mul_one_r Z.add_0_r.
Qed.

Lemma Solution_mul_one_l (a : Solution) : Solution_mul {[ 0 := (∅, 1) ]} a = a.
Proof.
  rewrite Solution_mul_singleton_l. rewrite -{2}(big_sum_singletons a).
  apply big_sum_ext. intros [k e] _. simpl. by rewrite entry_mul_one_l.
Qed.

Lemma Solution_mul_iadd_r (s a b : Solution) :
  solution_tiles s ## solution_tiles a →
  solution_tiles s ## solution_tiles b →
  Solution_mul s (Solution_iadd a b) = Solution_iadd (Solution_mul s a) (Solution_mul s b).
Proof.
  intros Ha Hb. rewrite (Solution_mul_comm s (Solution_iadd a b)); last first.
  { intros t Hs [?|?]%elem_of_solution_tiles_iadd; set_solver. }
  by rewrite Solution_mul_iadd_l (Solution_mul_comm a s) // (Solution_mul_comm b s).
Qed.

(** C7.  On Solutions as maps, [Solution_iadd] is commutative and
    associative; [Solution_mul] is commutative and associative on Solutions
    over disjoint sets of tiles, has [{0: ({}, 1)}] as identity on both
    sides, and distributes over [Solution_iadd]. *)
Theorem Solution_algebra :
  (∀ a b, Solution_iadd a b = Solution_iadd b a)
  ∧ (∀ a b c, Solution_iadd (Solution_iadd a b) c = Solution_iadd a (Solution_iadd b c))
  ∧ (∀ a b, solution_tiles a ## solution_tiles b → Solution_mul a b = Solution_mul b a)
  ∧ (∀ a b c,
       solution_tiles a ## solution_tiles b →
       solution_tiles a ## solution_tiles c →
       solution_tiles b ## solution_tiles c →
       Solution_mul (Solution_mul a b) c = Solution_mul a (Solution_mul b c))
  ∧ (∀ a, Solution_mul a {[ 0 := (∅, 1) ]} = a ∧ Solution_mul {[ 0 := (∅, 1) ]} a = a)
  ∧ (∀ s a b,
       solution_tiles s ## solution_tiles a →
       solution_tiles s ## solution_tiles b →
       Solution_mul s (Solution_iadd a b)
       = Solution_iadd (Solution_mul s a) (Solution_mul s b))
  ∧ (∀ s a b,
       Solution_mul (Solution_iadd a b) s
       = Solution_iadd (Solution_mul a s) (Solution_mul b s)).
Proof.
  split; [apply Solution_iadd_comm|].
  split; [apply Solution_iadd_assoc|].
  split; [apply Solution_mul_comm|].
  split; [apply Solution_mul_assoc|].
  split; [intros a; split; [apply Solution_mul_one_r|apply Solution_mul_one_l]|].
  split; [apply Solution_mul_iadd_r|].
  intros s a b. apply Solution_mul_iadd_l.
Qed.

Lemma Solution_algebra_witness :
  let a := one_tile_solution (0, 0) in
  let b := one_tile_solution (0, 1) in
  let c := one_tile_solution (1, 1) in
  Solution_mul a b = Solution_mul b a
  ∧ Solution_mul (Solution_mul a b) c = Solution_mul a (Solution_mul b c)
  ∧ Solution_mul a (Solution_iadd b c)
    = Solution_iadd (Solution_mul a b) (Solution_mul a c).
Proof.
  destruct Solution_algebra as (_ & _ & Hcomm & Hassoc & _ & Hdistr & _).
  assert (Hab : solution_tiles (one_tile_solution (0, 0))
                ## solution_tiles (one_tile_solution (0, 1))).
  { apply (bool_decide_unpack _). by vm_compute. }
  assert (Hac : solution_tiles (one_tile_solution (0, 0))
                ## solution_tiles (one_tile_solution (1, 1))).
  { apply (bool_decide_unpack _). by vm_compute. }
  assert (Hbc : solution_tiles (one_tile_solution (0, 1))
                ## solution_tiles (one_tile_solution (1, 1))).
  { apply (bool_decide_unpack _). by vm_compute. }
  split; [by apply Hcomm|]. split; [by apply Hassoc|]. by apply Hdistr.
Defined.

(** ** The integrator *)

Lemma integrate_scan_result new cs W upd W' upd' add :
  integrate_scan new cs W upd = Ok (W', upd', add) →
  ∃ ds ms kept, scan_result new cs ds ms kept add ∧ W' = W ++ ds ∧ upd' = upd ++ ms.
Proof.
  revert W upd. induction cs as [|old cs IH]; intros W upd; simpl.
  - intros [= <- <- <-]. exists [], [], []. rewrite !app_nil_r. split; [constructor|done].
  - case_decide as Heq.
    { intros [= <- <- <-]. subst old. exists [], [], (new :: cs). rewrite !app_nil_r.
      split; [constructor|done]. }
    destruct (BombEquation_le new old) eqn:Hle1.
    { intros (d & Hd & Hrest)%bind_Ok.
      destruct (IH _ _ Hrest) as (ds & ms & kept & Hscan & -> & ->).
      exists (d :: ds), (old :: ms), kept. rewrite -!app_assoc.
      split; [by constructor|done]. }
    destruct (BombEquation_le old new) eqn:Hle2.
    { intros (d & Hd & [= <- <- <-])%bind_Ok.
      exists [d], [], (old :: cs). rewrite app_nil_r.
      split; [by constructor|done]. }
    intros Hrest. destruct (IH _ _ Hrest) as (ds & ms & kept & Hscan & -> & ->).
    exists ds, ms, (old :: kept). split; [by constructor|done].
Qed.

Lemma list_remove_first_app_r `{EqDecision A} (x : A) (pre l : list A) :
  x ∉ pre → list_remove_first x (pre ++ x :: l) = Ok (pre ++ l).
Proof.
  induction pre as [|y pre IH]; intros Hx; simpl.
  - by rewrite decide_True.
  - rewrite decide_False; [|intros ->; apply Hx; by left].
    rewrite IH; [done|]. intros ?; apply Hx; by right.
Qed.

(** The marked equations are removed from the store, and only they. *)
Lemma scan_result_remove new cs ds ms kept add pre :
  scan_result new cs ds ms kept add →
  Forall (λ x, BombEquation_le new x = false) pre →
  list_remove_each ms (pre ++ cs) = Ok (pre ++ kept).
Proof.
  intros Hscan. revert pre.
  induction Hscan as [|cs|old cs d ds ms kept add Hne Hle Hsub _ IH
                     |old cs d Hne Hle1 Hle2 Hsub|old cs ds ms kept add Hne Hle1 Hle2 _ IH];
    intros pre Hpre; unfold list_remove_each in *; simpl; try done.
  - rewrite list_remove_first_app_r.
    + simpl. by apply IH.
    + intros Hin. eapply Forall_forall in Hpre; [|done]. congruence.
  - specialize (IH (pre ++ [old])). rewrite -!app_assoc in IH. simpl in IH.
    apply IH. apply Forall_app. split; [done|]. by constructor.
Qed.

Lemma scan_result_kept_sublist new cs ds ms kept add :
  scan_result new cs ds ms kept add → kept `sublist_of` cs.
Proof.
  induction 1; try done.
  - by apply sublist_cons.
  - by apply sublist_skip.
Qed.

Lemma scan_result_add_fresh new cs ds ms kept add :
  scan_result new cs ds ms kept add → add = true → new ∉ cs.
Proof.
  induction 1 as [|cs|old cs d ds ms kept add Hne Hle Hsub _ IH
                 |old cs d Hne Hle1 Hle2 Hsub|old cs ds ms kept add Hne Hle1 Hle2 _ IH];
    intros Hadd; try done.
  - apply not_elem_of_nil.
  - intros [?|?]%elem_of_cons; [done|]. by apply IH.
  - intros [?|?]%elem_of_cons; [done|]. by apply IH.
Qed.

(** The four ways an iteration of the integrator can go. *)
Lemma integrate_iteration_inv cs W r :
  integrate_iteration cs W = Ok r →
  (W = [] ∧ r = inl (true, cs))
  ∨ (∃ W0 new, W = W0 ++ [new] ∧ is_impossible new = true ∧ r = inl (false, cs))
  ∨ (∃ W0 new parts,
       W = W0 ++ [new] ∧ is_impossible new = false ∧ is_splittable new = true
       ∧ split new = Ok parts ∧ r = inr (cs, W0 ++ parts))
  ∨ (∃ W0 new ds ms kept add,
       W = W0 ++ [new] ∧ is_impossible new = false ∧ is_splittable new = false
       ∧ scan_result new cs ds ms kept add
       ∧ r = inr (if add then kept ++ [new] else kept, W0 ++ ds)).
Proof.
  unfold integrate_iteration. intros Hiter.
  destruct (list_pop W) as [[W0 new]|] eqn:Hpop.
  - apply list_pop_Some in Hpop as ->. right.
    destruct (is_impossible new) eqn:Himp.
    { injection Hiter as <-. left. eauto. }
    right. destruct (is_splittable new) eqn:Hsplit.
    { apply bind_Ok in Hiter as (parts & Hparts & [= <-]). left. eauto 10. }
    right. apply bind_Ok in Hiter as ([[W' upd] add] & Hscan & Hiter).
    apply bind_Ok in Hiter as (cs' & Hrem & [= <-]).
    apply integrate_scan_result in Hscan as (ds & ms & kept & Hscan & -> & ->).
    pose proof (scan_result_remove _ _ _ _ _ _ [] Hscan (Forall_nil_2 _)) as Hrem'.
    simpl in *. rewrite Hrem' in Hrem. injection Hrem as <-.
    exists W0, new, ds, ms, kept, add. done.
  - apply list_pop_None in Hpop as ->. injection Hiter as <-. by left.
Qed.

(** Induction along the iterations of [integrate_new_bomb_eqs]. *)
Lemma integrate_ind (Inv : list BombEquation → list BombEquation → Prop)
    (Post : bool * list BombEquation → Prop) :
  (∀ cs W answer, Inv cs W → integrate_iteration cs W = Ok (inl answer) → Post answer) →
  (∀ cs W cs' W', Inv cs W → integrate_iteration cs W = Ok (inr (cs', W')) → Inv cs' W') →
  ∀ fuel cs W answer,
    Inv cs W → integrate_new_bomb_eqs fuel cs W = Ok answer → Post answer.
Proof.
  intros Hend Hstep. induction fuel as [|fuel IH]; intros cs W answer HInv; simpl; [done|].
  intros ([answer'|[cs' W']] & Hiter & Hrest)%bind_Ok.
  - injection Hrest as <-. by eapply Hend.
  - eapply IH; [|done]. by eapply Hstep.
Qed.

Lemma Forall_sublist {A} (P : A → Prop) (l1 l2 : list A) :
  l1 `sublist_of` l2 → Forall P l2 → Forall P l1.
Proof.
  intros Hsub Hall. apply Forall_forall. intros x Hx.
  eapply Forall_forall in Hall; [done|]. by eapply elem_of_sublist.
Qed.

Lemma reduced_of_checks e :
  is_impossible e = false → is_splittable e = false → reduced e.
Proof. by split. Qed.

Lemma integrate_iteration_reduced cs W cs' W' :
  NoDup cs ∧ Forall reduced cs →
  integrate_iteration cs W = Ok (inr (cs', W')) →
  NoDup cs' ∧ Forall reduced cs'.
Proof.
  intros [Hnd Hred] Hiter.
  apply integrate_iteration_inv in Hiter
    as [[_ [=]]|[(? & ? & _ & _ & [=])|[(W0 & new & parts & _ & _ & _ & _ & Hr)
                                        |(W0 & new & ds & ms & kept & add & _ & Him & Hsp & Hscan & Hr)]]].
  - by injection Hr as -> _.
  - injection Hr as -> _.
    pose proof (scan_result_kept_sublist _ _ _ _ _ _ Hscan) as Hsub.
    assert (NoDup kept) by by eapply sublist_NoDup.
    assert (Forall reduced kept) by by eapply Forall_sublist.
    destruct add; [|done]. split.
    + apply NoDup_app. split; [done|]. split; [|apply NoDup_singleton].
      intros x Hx ->%list_elem_of_singleton.
      eapply (scan_result_add_fresh _ _ _ _ _ _ Hscan); [done|].
      by eapply elem_of_sublist.
    + apply Forall_app. split; [done|]. by constructor.
Qed.

(** C2 (as amended).  Integrating into a store that has no two equal
    equations and no splittable or impossible equation leaves a store with
    no two equal equations and no splittable or impossible equation.
    (Trivial equations and single-tile [{0, 1}] equations stay in the
    store.) *)
Theorem integrate_store_reduced fuel cs W ok cs' :
  NoDup cs → Forall reduced cs →
  integrate_new_bomb_eqs fuel cs W = Ok (ok, cs') →
  NoDup cs'
  ∧ Forall (λ e, is_impossible e = false) cs'
  ∧ Forall (λ e, is_splittable e = false) cs'.
Proof.
  intros Hnd Hred Hint.
  assert (NoDup cs' ∧ Forall reduced cs') as [Hnd' Hred'].
  { refine (integrate_ind (λ cs _, NoDup cs ∧ Forall reduced cs)
              (λ answer, NoDup answer.2 ∧ Forall reduced answer.2)
              _ _ fuel cs W (ok, cs') _ Hint); [| |done].
    - intros cs0 W0 answer Hinv Hiter.
      apply integrate_iteration_inv in Hiter
        as [[_ [= ->]]|[(? & ? & _ & _ & [= ->])|[(? & ? & ? & _ & _ & _ & _ & [=])
                                                 |(? & ? & ? & ? & ? & ? & _ & _ & _ & _ & [=])]]];
        done.
    - intros cs0 W0 cs1 W1. apply integrate_iteration_reduced. }
  split; [done|]. split; eapply Forall_impl; try done; by intros e [? ?].
Qed.

Lemma integrate_store_reduced_witness :
  NoDup [BombEquation_init [(0, 0)] [0]; BombEquation_init [(0, 1); (1, 0); (1, 1)] [1]]
  ∧ Forall (λ e, is_impossible e = false)
           [BombEquation_init [(0, 0)] [0]; BombEquation_init [(0, 1); (1, 0); (1, 1)] [1]]
  ∧ Forall (λ e, is_splittable e = false)
           [BombEquation_init [(0, 0)] [0]; BombEquation_init [(0, 1); (1, 0); (1, 1)] [1]].
Proof.
  apply (integrate_store_reduced 5 []
           [BombEquation_init [(0, 0)] [0];
            BombEquation_init [(0, 0); (0, 1); (1, 0); (1, 1)] [1]] true).
  - constructor.
  - constructor.
  - vm_compute. reflexivity.
Defined.

(** C2 as stated fails: trivial equations and single-tile [{0, 1}]
    equations are added to the store like any other equation. *)
Lemma integrate_keeps_trivial_and_inert :
  integrate_new_bomb_eqs 5 [] [BombEquation_init [(0, 0)] [0]]
  = Ok (true, [BombEquation_init [(0, 0)] [0]])
  ∧ is_trivial (BombEquation_init [(0, 0)] [0]) = true
  ∧ integrate_new_bomb_eqs 5 [] [BombEquation_init [(0, 0); (0, 1)] [0; 1; 2]]
    = Ok (true, [BombEquation_init [(0, 0)] [0; 1]; BombEquation_init [(0, 1)] [0; 1]])
  ∧ is_inert (BombEquation_init [(0, 0)] [0; 1]) = true.
Proof. repeat split; by vm_compute. Qed.

(** *** Well-formed equations stay well-formed *)

Lemma wf_eq_init ts bs : StronglySorted Z.lt bs → wf_eq (BombEquation_init ts bs).
Proof.
  intros Hs. split; [|apply bombs_init_in_range].
  rewrite bombs_init. by apply StronglySorted_filter.
Qed.

Lemma StronglySorted_shift (b : Z) (l : list Z) :
  StronglySorted Z.lt l → StronglySorted Z.lt (map (λ x, x - b) l).
Proof.
  induction 1 as [|x l Hs IH Hx]; simpl; constructor; [done|].
  apply Forall_forall. intros y (z & -> & Hz)%list_elem_of_fmap.
  eapply Forall_forall in Hx; [|done]. lia.
Qed.

Lemma wf_eq_sub e2 e1 d : wf_eq e2 → BombEquation_sub e2 e1 = Ok d → wf_eq d.
Proof.
  intros [Hs _]. unfold BombEquation_sub. destruct (bombs e1) as [|b ?]; [done|].
  intros [= <-]. apply wf_eq_init. by apply StronglySorted_shift.
Qed.

Lemma wf_eq_single t (bs : list Z) : StronglySorted Z.lt bs → wf_eq (BombEquation_init [t] bs).
Proof. apply wf_eq_init. Qed.

Lemma StronglySorted_01 : StronglySorted Z.lt [0; 1].
Proof. repeat constructor. Qed.

Lemma StronglySorted_singleton (b : Z) : StronglySorted Z.lt [b].
Proof. repeat constructor. Qed.

Lemma split_parts e parts :
  split e = Ok parts →
  ∃ bs, StronglySorted Z.lt bs
        ∧ parts = map (λ t, BombEquation_init [t] bs) (elements (tiles e))
        ∧ (bs = [0; 1] ∧ (1 < length (bombs e))%nat
           ∨ ∃ b0 rest, bombs e = b0 :: rest ∧ (length (bombs e) ≤ 1)%nat
                        ∧ bs = [if bool_decide (b0 = 0) then 0 else 1]).
Proof.
  unfold split. case_bool_decide as Hlen.
  - intros [= <-]. exists [0; 1]. split; [apply StronglySorted_01|]. split; [done|]. by left.
  - destruct (bombs e) as [|b0 rest] eqn:Hb; [done|]. intros [= <-].
    eexists. split; [apply StronglySorted_singleton|]. split; [done|].
    right. exists b0, rest. split; [done|]. split; [lia|done].
Qed.

Lemma wf_split e parts : split e = Ok parts → Forall wf_eq parts.
Proof.
  intros (bs & Hs & -> & _)%split_parts. apply Forall_forall.
  intros p (t & -> & _)%list_elem_of_fmap. by apply wf_eq_init.
Qed.

Lemma split_Ok e : is_impossible e = false → ∃ parts, split e = Ok parts.
Proof.
  unfold is_impossible, split. intros Hne%bool_decide_eq_false.
  case_bool_decide; [eauto|]. destruct (bombs e); [done|eauto].
Qed.

Lemma BombEquation_sub_le_Ok e1 e2 :
  BombEquation_le e1 e2 = true → ∃ d, BombEquation_sub e2 e1 = Ok d.
Proof. intros [_ [b Hb]]%BombEquation_le_spec. eexists. by apply BombEquation_sub_Ok. Qed.

Lemma tiles_sub e2 e1 d :
  BombEquation_sub e2 e1 = Ok d → tiles d = tiles e2 ∖ tiles e1.
Proof.
  unfold BombEquation_sub. destruct (bombs e1); [done|]. intros [= <-].
  by rewrite tiles_init list_to_set_elements_tiles.
Qed.

Lemma scan_result_wf new cs ds ms kept add :
  wf_eq new → Forall wf_eq cs → scan_result new cs ds ms kept add → Forall wf_eq ds.
Proof.
  intros Hnew Hcs Hscan.
  induction Hscan as [|cs|old cs d ds ms kept add Hne Hle Hsub _ IH
                     |old cs d Hne Hle1 Hle2 Hsub|old cs ds ms kept add Hne Hle1 Hle2 _ IH];
    try apply Forall_cons in Hcs as [Hold Hcs]; try done.
  - constructor; [exact (wf_eq_sub old new d Hold Hsub)|by apply IH].
  - constructor; [exact (wf_eq_sub new old d Hnew Hsub)|done].
  - by apply IH.
Qed.

Lemma scan_result_kept_unrelated new cs ds ms kept :
  scan_result new cs ds ms kept true →
  Forall (λ old, BombEquation_le new old = false ∧ BombEquation_le old new = false) kept.
Proof.
  intros Hscan. remember true as add eqn:Hadd.
  induction Hscan as [|cs|old cs d ds ms kept add Hne Hle Hsub _ IH
                     |old cs d Hne Hle1 Hle2 Hsub|old cs ds ms kept add Hne Hle1 Hle2 _ IH];
    try done.
  - by apply IH.
  - constructor; [done|by apply IH].
Qed.

Lemma scan_result_marked new cs ds ms kept add :
  scan_result new cs ds ms kept add →
  Forall (λ old, new ≠ old ∧ BombEquation_le new old = true) ms.
Proof.
  induction 1; try done. by constructor.
Qed.

Lemma BombEquation_eq e1 e2 : tiles e1 = tiles e2 → bombs e1 = bombs e2 → e1 = e2.
Proof. destruct e1, e2. simpl. by intros -> ->. Qed.

Lemma scan_result_partition new cs ds ms kept add old :
  scan_result new cs ds ms kept add → old ∈ cs → old ∈ kept ∨ old ∈ ms.
Proof.
  induction 1 as [|cs|old' cs d ds ms kept add Hne Hle Hsub _ IH
                 |old' cs d Hne Hle1 Hle2 Hsub|old' cs ds ms kept add Hne Hle1 Hle2 _ IH];
    intros Hin; try (by left).
  - apply elem_of_cons in Hin as [->|Hin]; [right; by left|].
    destruct (IH Hin); [by left|right; by right].
  - apply elem_of_cons in Hin as [->|Hin]; [left; by left|].
    destruct (IH Hin); [left; by right|by right].
Qed.

Lemma is_trivial_spec e :
  is_trivial e = true ↔ (∃ t, tiles e = {[ t ]}) ∧ ∃ b, bombs e = [b].
Proof.
  unfold is_trivial. rewrite andb_true_iff !bool_decide_eq_true. split.
  - intros [Hsize Hlen]. split.
    + apply size_1_elem_of in Hsize as [t Ht]. exists t. by apply leibniz_equiv.
    + destruct (bombs e) as [|b [|??]]; naive_solver.
  - intros [[t Ht] [b Hb]]. rewrite Ht Hb size_singleton. done.
Qed.

(** The store invariant is kept by every iteration. *)
Lemma integrate_iteration_store_ok cs W cs' W' :
  store_ok cs ∧ Forall wf_eq W →
  integrate_iteration cs W = Ok (inr (cs', W')) →
  store_ok cs' ∧ Forall wf_eq W'.
Proof.
  intros [(Hnd & Hwf & Hred & Hiso) HW] Hiter.
  pose proof (integrate_iteration_reduced _ _ _ _ (conj Hnd Hred) Hiter) as [Hnd' Hred'].
  apply integrate_iteration_inv in Hiter
    as [[_ [=]]|[(? & ? & _ & _ & [=])|[(W0 & new & parts & -> & _ & _ & Hparts & Hr)
                                        |(W0 & new & ds & ms & kept & add & -> & Him & Hsp & Hscan & Hr)]]].
  - injection Hr as -> ->. apply Forall_app in HW as [HW0 _].
    split; [done|]. apply Forall_app. split; [done|]. by eapply wf_split.
  - injection Hr as -> ->. apply Forall_app in HW as [HW0 Hnew].
    apply Forall_cons in Hnew as [Hnew _].
    pose proof (scan_result_kept_sublist _ _ _ _ _ _ Hscan) as Hsub.
    assert (Hwfk : Forall wf_eq kept) by by eapply Forall_sublist.
    assert (Hisok : trivial_isolated kept).
    { intros e e' He He'. apply Hiso; by eapply elem_of_sublist. }
    split; [|apply Forall_app; split; [done|exact (scan_result_wf _ _ _ _ _ _ Hnew Hwf Hscan)]].
    split; [done|]. destruct add; [|done].
    split; [apply Forall_app; split; [done|by constructor]|]. split; [done|].
    pose proof (scan_result_kept_unrelated _ _ _ _ _ Hscan) as Hunrel.
    intros e e' [He| ->%list_elem_of_singleton]%elem_of_app
                [He'| ->%list_elem_of_singleton]%elem_of_app Htriv Hne.
    + by apply Hisok.
    + eapply Forall_forall in Hunrel as [_ Hle]; [|exact He].
      apply is_trivial_spec in Htriv as [[t Ht] [b Hb]].
      rewrite Ht. apply disjoint_singleton_l. intros Hin.
      assert (BombEquation_le e new = true); [|congruence].
      apply BombEquation_le_spec. split; [|eauto]. rewrite Ht. set_solver.
    + eapply Forall_forall in Hunrel as [Hle _]; [|exact He'].
      apply is_trivial_spec in Htriv as [[t Ht] [b Hb]].
      rewrite Ht. apply disjoint_singleton_l. intros Hin.
      assert (BombEquation_le new e' = true); [|congruence].
      apply BombEquation_le_spec. split; [|eauto]. rewrite Ht. set_solver.
    + done.
Qed.

Lemma integrate_store_ok fuel cs W ok cs' :
  store_ok cs → Forall wf_eq W →
  integrate_new_bomb_eqs fuel cs W = Ok (ok, cs') → store_ok cs'.
Proof.
  intros Hok HW Hint.
  refine (integrate_ind (λ cs W, store_ok cs ∧ Forall wf_eq W) (λ answer, store_ok answer.2)
            _ _ fuel cs W (ok, cs') _ Hint); [| |done].
  - intros cs0 W0 answer [Hinv _] Hiter.
    apply integrate_iteration_inv in Hiter
      as [[_ [= ->]]|[(? & ? & _ & _ & [= ->])|[(? & ? & ? & _ & _ & _ & _ & [=])
                                               |(? & ? & ? & ? & ? & ? & _ & _ & _ & _ & [=])]]];
      done.
  - intros cs0 W0 cs1 W1. apply integrate_iteration_store_ok.
Qed.

(** *** The integrator keeps the layouts and the tiles *)

Lemma store_tiles_nil : store_tiles [] = ∅.
Proof. done. Qed.

Lemma store_tiles_cons e cs : store_tiles (e :: cs) = tiles e ∪ store_tiles cs.
Proof. done. Qed.

Lemma store_tiles_app cs1 cs2 : store_tiles (cs1 ++ cs2) = store_tiles cs1 ∪ store_tiles cs2.
Proof.
  induction cs1 as [|e cs1 IH]; simpl.
  - rewrite store_tiles_nil. by rewrite (left_id_L ∅ (∪)).
  - rewrite !store_tiles_cons IH. by rewrite (assoc_L (∪)).
Qed.

Lemma elem_of_store_tiles t cs : t ∈ store_tiles cs ↔ ∃ e, e ∈ cs ∧ t ∈ tiles e.
Proof.
  unfold store_tiles. rewrite elem_of_union_list. split.
  - intros (X & (e & -> & He)%list_elem_of_fmap & Ht). eauto.
  - intros (e & He & Ht). exists (tiles e). split; [|done]. apply list_elem_of_fmap. eauto.
Qed.

Lemma size_inter_split (A T1 T2 : gset tile) :
  T1 ⊆ T2 → size (A ∩ T2) = (size (A ∩ T1) + size (A ∩ (T2 ∖ T1)))%nat.
Proof.
  intros Hsub. rewrite -size_union; [|set_solver].
  f_equal. apply set_eq. intros x.
  rewrite elem_of_union !elem_of_intersection elem_of_difference.
  destruct (decide (x ∈ T1)); set_solver.
Qed.

Lemma satisfies_single_value A e b : bombs e = [b] → satisfies A e ↔ Z.of_nat (size (A ∩ tiles e)) = b.
Proof. unfold satisfies. intros ->. apply list_elem_of_singleton. Qed.

Lemma satisfies_sub A e1 e2 d :
  BombEquation_le e1 e2 = true → BombEquation_sub e2 e1 = Ok d →
  satisfies A e1 → satisfies A e2 ↔ satisfies A d.
Proof.
  intros [Hsub [b Hb]]%BombEquation_le_spec Hd Hsat.
  rewrite (BombEquation_sub_Ok _ _ _ Hb) in Hd. injection Hd as <-.
  apply (satisfies_single_value _ _ _ Hb) in Hsat.
  unfold satisfies. cbn [tiles bombs].
  rewrite list_elem_of_filter list_elem_of_fmap.
  pose proof (size_inter_split A _ _ Hsub) as Hsplit.
  assert (size (A ∩ (tiles e2 ∖ tiles e1)) ≤ size (tiles e2 ∖ tiles e1))%nat
    by (apply subseteq_size; set_solver).
  split.
  - intros Hin. split; [lia|]. eexists. split; [|exact Hin]. lia.
  - intros [_ (x & Hx & Hin)]. replace (Z.of_nat (size (A ∩ tiles e2))) with x by lia. done.
Qed.

(** A strictly ascending list of integers between [a] and [b] has at most
    [b - a + 1] elements, and holds every integer of the range when it has
    that many. *)
Lemma sorted_range_length (l : list Z) (a b : Z) :
  StronglySorted Z.lt l → Forall (λ n, a ≤ n ≤ b) l → Z.of_nat (length l) ≤ Z.max 0 (b - a + 1).
Proof.
  intros Hs. revert a. induction Hs as [|x l Hs IH Hx]; intros a Hr; simpl; [lia|].
  apply Forall_cons in Hr as [Hxr Hr].
  assert (Forall (λ n, x + 1 ≤ n ≤ b) l) as Hr'.
  { apply Forall_forall. intros y Hy.
    eapply Forall_forall in Hx; [|done]. eapply Forall_forall in Hr; [|done]. lia. }
  specialize (IH _ Hr'). lia.
Qed.

Lemma sorted_range_full (l : list Z) (a b : Z) :
  StronglySorted Z.lt l → Forall (λ n, a ≤ n ≤ b) l →
  Z.of_nat (length l) = b - a + 1 → ∀ k, a ≤ k ≤ b → k ∈ l.
Proof.
  intros Hs. revert a. induction Hs as [|x l Hs IH Hx]; intros a Hr Hlen k Hk.
  { simpl in Hlen. lia. }
  apply Forall_cons in Hr as [Hxr Hr].
  assert (Forall (λ n, x + 1 ≤ n ≤ b) l) as Hr'.
  { apply Forall_forall. intros y Hy.
    eapply Forall_forall in Hx; [|done]. eapply Forall_forall in Hr; [|done]. lia. }
  pose proof (sorted_range_length _ _ _ Hs Hr') as Hle. simpl in Hlen.
  assert (x = a) as -> by lia.
  destruct (decide (k = a)) as [->|Hne]; [by left|].
  right. apply (IH (a + 1)); [done|lia|lia].
Qed.

Lemma size_inter_singleton (A : gset tile) t :
  size (A ∩ {[ t ]}) = if decide (t ∈ A) then 1%nat else 0%nat.
Proof.
  case_decide as Ht.
  - replace (A ∩ {[ t ]}) with ({[ t ]} : gset tile) by set_solver. apply size_singleton.
  - replace (A ∩ {[ t ]}) with (∅ : gset tile) by set_solver. apply size_empty.
Qed.

Lemma satisfies_single_tile A t bs :
  satisfies A (BombEquation_init [t] bs)
  ↔ (if decide (t ∈ A) then 1 else 0) ∈ bs.
Proof.
  unfold satisfies. rewrite tiles_init bombs_init list_to_set_single_tile.
  rewrite size_inter_singleton size_singleton list_elem_of_filter.
  case_decide; split; try (intros [_ ?]; done); intros ?; (split; [lia|done]).
Qed.

Lemma size_inter_zero (A T : gset tile) : size (A ∩ T) = 0%nat ↔ ∀ t, t ∈ T → t ∉ A.
Proof. rewrite size_empty_iff. set_solver. Qed.

Lemma size_inter_full (A T : gset tile) : size (A ∩ T) = size T ↔ T ⊆ A.
Proof.
  split.
  - intros Hsize. assert (A ∩ T = T) as Heq; [|set_solver].
    apply set_subseteq_size_eq; [set_solver|lia].
  - intros Hsub. f_equal. set_solver.
Qed.

Lemma satisfies_split A e parts :
  wf_eq e → is_impossible e = false → is_splittable e = true → split e = Ok parts →
  satisfies A e ↔ Forall (satisfies A) parts.
Proof.
  intros [Hs Hr] Himp Hsp (bs & _ & -> & Hbs)%split_parts.
  rewrite Forall_fmap Forall_forall.
  setoid_rewrite elem_of_elements.
  assert (Hpart : ∀ t, satisfies A (BombEquation_init [t] bs)
                       ↔ (if decide (t ∈ A) then 1 else 0) ∈ bs)
    by (intros; apply satisfies_single_tile).
  unfold is_splittable in Hsp. apply andb_true_iff in Hsp as [Hsize Hsp].
  apply negb_true_iff, bool_decide_eq_false in Hsize.
  assert (size (A ∩ tiles e) ≤ size (tiles e))%nat by (apply subseteq_size; set_solver).
  destruct Hbs as [[-> Hlen]|(b0 & rest & Hb & Hlen & ->)].
  - apply orb_true_iff in Hsp as [Hsp|Hsp].
    { apply andb_true_iff in Hsp as [Hone%bool_decide_eq_true _]. lia. }
    apply bool_decide_eq_true in Hsp. split.
    + intros _ t _. apply Hpart. case_decide; set_solver.
    + intros _. unfold satisfies.
      apply (sorted_range_full _ 0 (Z.of_nat (size (tiles e)))); [done|done|lia|lia].
  - destruct rest; [|simpl in Hlen; rewrite Hb in Hlen; simpl in Hlen; lia].
    rewrite (satisfies_single_value _ _ _ Hb).
    rewrite Hb in Hr. apply Forall_cons in Hr as [Hb0 _].
    assert (b0 = 0 ∨ b0 = Z.of_nat (size (tiles e))) as Hcases.
    { apply orb_true_iff in Hsp as [Hsp|Hsp].
      - apply andb_true_iff in Hsp as [_ Hsp]. rewrite Hb in Hsp.
        apply orb_true_iff in Hsp as [?%bool_decide_eq_true|?%bool_decide_eq_true]; auto.
      - apply bool_decide_eq_true in Hsp. rewrite Hb in Hsp. simpl in Hsp. left. lia. }
    case_bool_decide as Hz.
    + subst b0. split.
      * intros Hzero t Ht. apply Hpart.
        assert (t ∉ A) by (eapply size_inter_zero; [|done]; lia).
        rewrite decide_False //. by left.
      * intros Hall. assert (size (A ∩ tiles e) = 0%nat); [|lia].
        apply size_inter_zero. intros t Ht Hin. specialize (Hall t Ht).
        apply Hpart in Hall. rewrite decide_True // in Hall.
        by apply list_elem_of_singleton in Hall.
    + destruct Hcases as [?| ->]; [done|]. split.
      * intros Hfull t Ht. apply Hpart.
        assert (tiles e ⊆ A) by (apply size_inter_full; lia).
        rewrite decide_True; [|set_solver]. by left.
      * intros Hall. assert (size (A ∩ tiles e) = size (tiles e)); [|lia].
        apply size_inter_full. intros t Ht. specialize (Hall t Ht).
        apply Hpart in Hall. case_decide; [done|].
        by apply list_elem_of_singleton in Hall.
Qed.

Lemma store_tiles_split e parts : split e = Ok parts → store_tiles parts = tiles e.
Proof.
  intros (bs & _ & -> & _)%split_parts. apply set_eq. intros t.
  rewrite elem_of_store_tiles. split.
  - intros (p & (t' & -> & Ht')%list_elem_of_fmap & Ht).
    rewrite tiles_init list_to_set_single_tile in Ht.
    apply elem_of_singleton in Ht as ->. by apply elem_of_elements.
  - intros Ht. exists (BombEquation_init [t] bs). split.
    + apply list_elem_of_fmap. exists t. split; [done|]. by apply elem_of_elements.
    + rewrite tiles_init list_to_set_single_tile. by apply elem_of_singleton.
Qed.

Lemma scan_result_sem A new cs ds ms kept add :
  scan_result new cs ds ms kept add →
  Forall (satisfies A) cs ∧ satisfies A new
  ↔ Forall (satisfies A) kept ∧ Forall (satisfies A) ds ∧ (add = true → satisfies A new).
Proof.
  induction 1 as [|cs|old cs d ds ms kept add Hne Hle Hsub _ IH
                 |old cs d Hne Hle1 Hle2 Hsub|old cs ds ms kept add Hne Hle1 Hle2 _ IH].
  - split; [intros [_ ?]; by repeat split|]. intros (_ & _ & Hn). split; [done|by apply Hn].
  - rewrite !Forall_cons. split; [intros [[? ?] _]; by repeat split|].
    intros ([? ?] & _ & _). by repeat split.
  - rewrite !Forall_cons. split.
    + intros [[Hold Hcs] Hnew]. destruct IH as [IH _].
      destruct (IH (conj Hcs Hnew)) as (? & ? & ?).
      split; [done|]. split; [|done]. split; [|done].
      by apply (satisfies_sub A new old d).
    + intros (Hkept & [Hd Hds] & Hadd). destruct IH as [_ IH].
      destruct (IH (conj Hkept (conj Hds Hadd))) as [Hcs Hnew].
      split; [|done]. split; [|done]. by apply (satisfies_sub A new old d).
  - rewrite !Forall_cons. split.
    + intros [[Hold Hcs] Hnew]. split; [done|]. split; [|done].
      split; [|done]. by apply (satisfies_sub A old new d).
    + intros ([Hold Hcs] & [Hd _] & _). split; [done|].
      by apply (satisfies_sub A old new d).
  - rewrite !Forall_cons. split.
    + intros [[Hold Hcs] Hnew]. destruct IH as [IH _].
      destruct (IH (conj Hcs Hnew)) as (? & ? & ?). done.
    + intros ([Hold Hkept] & Hds & Hadd). destruct IH as [_ IH].
      destruct (IH (conj Hkept (conj Hds Hadd))) as [Hcs Hnew]. done.
Qed.

Lemma scan_result_tiles new cs ds ms kept add :
  scan_result new cs ds ms kept add →
  store_tiles kept ∪ store_tiles ds ∪ (if add then tiles new else ∅)
  = store_tiles cs ∪ tiles new.
Proof.
  induction 1 as [|cs|old cs d ds ms kept add Hne Hle Hsub _ IH
                 |old cs d Hne Hle1 Hle2 Hsub|old cs ds ms kept add Hne Hle1 Hle2 _ IH];
    rewrite ?store_tiles_cons ?store_tiles_nil.
  - set_solver.
  - set_solver.
  - apply tiles_sub in Hsub. apply BombEquation_le_spec in Hle as [Hle _].
    rewrite Hsub.
    transitivity ((tiles old ∖ tiles new)
                  ∪ (store_tiles kept ∪ store_tiles ds ∪ (if add then tiles new else ∅)));
      [clear; set_solver|].
    rewrite IH. clear -Hle. apply set_eq. intros t.
    rewrite !elem_of_union elem_of_difference.
    destruct (decide (t ∈ tiles new)); set_solver.
  - apply tiles_sub in Hsub. apply BombEquation_le_spec in Hle2 as [Hle2 _].
    rewrite Hsub. clear -Hle2. apply set_eq. intros t.
    rewrite !elem_of_union elem_of_difference.
    destruct (decide (t ∈ tiles old)); set_solver.
  - transitivity (tiles old
                  ∪ (store_tiles kept ∪ store_tiles ds ∪ (if add then tiles new else ∅)));
      [clear; set_solver|].
    rewrite IH. clear. set_solver.
Qed.

Lemma integrate_iteration_sem A cs W cs' W' :
  Forall wf_eq W →
  integrate_iteration cs W = Ok (inr (cs', W')) →
  Forall (satisfies A) cs' ∧ Forall (satisfies A) W'
  ↔ Forall (satisfies A) cs ∧ Forall (satisfies A) W.
Proof.
  intros HW Hiter.
  apply integrate_iteration_inv in Hiter
    as [[_ [=]]|[(? & ? & _ & _ & [=])|[(W0 & new & parts & -> & Him & Hsp & Hparts & Hr)
                                        |(W0 & new & ds & ms & kept & add & -> & Him & Hsp & Hscan & Hr)]]];
    injection Hr as -> ->; apply Forall_app in HW as [HW0 Hnew];
    apply Forall_cons in Hnew as [Hnew _]; rewrite !Forall_app Forall_singleton.
  - by rewrite -(satisfies_split A new parts).
  - pose proof (scan_result_sem A _ _ _ _ _ _ Hscan) as Hsem.
    destruct add; rewrite ?Forall_app ?Forall_singleton; [tauto|].
    assert (false = true → satisfies A new) by done. tauto.
Qed.

Lemma integrate_iteration_tiles cs W cs' W' :
  integrate_iteration cs W = Ok (inr (cs', W')) →
  store_tiles cs' ∪ store_tiles W' = store_tiles cs ∪ store_tiles W.
Proof.
  intros Hiter.
  apply integrate_iteration_inv in Hiter
    as [[_ [=]]|[(? & ? & _ & _ & [=])|[(W0 & new & parts & -> & Him & Hsp & Hparts & Hr)
                                        |(W0 & new & ds & ms & kept & add & -> & Him & Hsp & Hscan & Hr)]]];
    injection Hr as -> ->; rewrite !store_tiles_app ?store_tiles_cons ?store_tiles_nil.
  - rewrite (store_tiles_split _ _ Hparts). set_solver.
  - pose proof (scan_result_tiles _ _ _ _ _ _ Hscan) as Htiles.
    destruct add; rewrite ?store_tiles_app ?store_tiles_cons ?store_tiles_nil; set_solver.
Qed.

Lemma not_satisfies_impossible A e : is_impossible e = true → ¬ satisfies A e.
Proof.
  unfold is_impossible, satisfies. intros ->%bool_decide_eq_true. apply not_elem_of_nil.
Qed.

(** What an integration means: on success the new store has the layouts
    and the tiles of the old store and the integrated equations together;
    on failure there is no such layout. *)
Lemma integrate_sem fuel cs W ok cs' :
  store_ok cs → Forall wf_eq W →
  integrate_new_bomb_eqs fuel cs W = Ok (ok, cs') →
  if ok then
    (∀ A, Forall (satisfies A) cs' ↔ Forall (satisfies A) cs ∧ Forall (satisfies A) W)
    ∧ store_tiles cs' = store_tiles cs ∪ store_tiles W
  else ∀ A, ¬ (Forall (satisfies A) cs ∧ Forall (satisfies A) W).
Proof.
  intros Hok HW Hint.
  refine (integrate_ind
            (λ cs1 W1, (store_ok cs1 ∧ Forall wf_eq W1)
                       ∧ (∀ A, Forall (satisfies A) cs1 ∧ Forall (satisfies A) W1
                               ↔ Forall (satisfies A) cs ∧ Forall (satisfies A) W)
                       ∧ store_tiles cs1 ∪ store_tiles W1 = store_tiles cs ∪ store_tiles W)
            (λ answer, if answer.1 then
                         (∀ A, Forall (satisfies A) answer.2
                               ↔ Forall (satisfies A) cs ∧ Forall (satisfies A) W)
                         ∧ store_tiles answer.2 = store_tiles cs ∪ store_tiles W
                       else ∀ A, ¬ (Forall (satisfies A) cs ∧ Forall (satisfies A) W))
            _ _ fuel cs W (ok, cs') _ Hint).
  - intros cs1 W1 answer (HW1 & Hsem & Htiles) Hiter.
    apply integrate_iteration_inv in Hiter
      as [[-> [= ->]]|[(W0 & new & -> & Him & [= ->])|[(? & ? & ? & _ & _ & _ & _ & [=])
                                               |(? & ? & ? & ? & ? & ? & _ & _ & _ & _ & [=])]]];
      cbn [fst snd].
    + split.
      * intros A. rewrite -Hsem. split; [by split|by intros [? _]].
      * rewrite -Htiles store_tiles_nil. set_solver.
    + intros A HA. apply Hsem in HA as [_ HA].
      apply Forall_app in HA as [_ HA]. apply Forall_cons in HA as [HA _].
      by eapply not_satisfies_impossible.
  - intros cs1 W1 cs2 W2 (HW1 & Hsem & Htiles) Hiter. split; [|split].
    + by eapply integrate_iteration_store_ok.
    + intros A. rewrite -Hsem. apply integrate_iteration_sem; [|done]. by destruct HW1.
    + rewrite -Htiles. by apply integrate_iteration_tiles.
  - done.
Qed.

(** *** The integrator returns *)

Lemma integrate_scan_Ok new cs W upd : ∃ r, integrate_scan new cs W upd = Ok r.
Proof.
  revert W upd. induction cs as [|old cs IH]; intros W upd; simpl; [eauto|].
  case_decide; [eauto|].
  destruct (BombEquation_le new old) eqn:Hle1.
  { destruct (BombEquation_sub_le_Ok _ _ Hle1) as [d ->]. simpl. apply IH. }
  destruct (BombEquation_le old new) eqn:Hle2; [|apply IH].
  destruct (BombEquation_sub_le_Ok _ _ Hle2) as [d ->]. simpl. eauto.
Qed.

(** No iteration of the integrator raises. *)
Lemma integrate_iteration_Ok cs W : ∃ r, integrate_iteration cs W = Ok r.
Proof.
  unfold integrate_iteration. destruct (list_pop W) as [[W0 new]|]; [|eauto].
  destruct (is_impossible new) eqn:Himp; [eauto|].
  destruct (is_splittable new); [destruct (split_Ok _ Himp) as [parts ->]; simpl; eauto|].
  destruct (integrate_scan_Ok new cs W0 []) as [[[W' upd] add] Hscan]. rewrite Hscan. simpl.
  apply integrate_scan_result in Hscan as (ds & ms & kept & Hscan & -> & ->).
  pose proof (scan_result_remove _ _ _ _ _ _ [] Hscan (Forall_nil_2 _)) as Hrem.
  simpl in Hrem. rewrite Hrem. simpl. eauto.
Qed.

Lemma integrate_fuel_mono fuel fuel' cs W answer :
  integrate_new_bomb_eqs fuel cs W = Ok answer → (fuel ≤ fuel')%nat →
  integrate_new_bomb_eqs fuel' cs W = Ok answer.
Proof.
  revert fuel' cs W. induction fuel as [|fuel IH]; intros fuel' cs W; simpl; [done|].
  intros (r & Hiter & Hrest)%bind_Ok Hle.
  destruct fuel' as [|fuel']; [lia|]. simpl. rewrite Hiter. simpl.
  destruct r as [?|[cs' W']]; [done|]. apply IH; [done|lia].
Qed.

Lemma reduced_nonempty e : wf_eq e → reduced e → (1 ≤ size (tiles e))%nat.
Proof.
  intros [Hs Hr] [Himp Hsp].
  destruct (decide (size (tiles e) = 0%nat)) as [Hz|]; [|lia]. exfalso.
  rewrite Hz in Hr. pose proof (sorted_range_length _ 0 0 Hs Hr) as Hlen.
  unfold is_impossible in Himp. apply bool_decide_eq_false in Himp.
  destruct (bombs e) as [|b0 [|??]] eqn:Hb; [done| |simpl in Hlen; lia].
  apply Forall_cons in Hr as [Hb0 _].
  unfold is_splittable in Hsp. rewrite Hb Hz in Hsp. simpl in Hsp.
  by rewrite orb_true_r in Hsp.
Qed.

Lemma sum_list_with_const {A} (f : A → nat) (c : nat) (l : list A) :
  (∀ x, x ∈ l → f x = c) → sum_list_with f l = (c * length l)%nat.
Proof.
  induction l as [|x l IH]; intros Hf; simpl; [lia|].
  rewrite Hf; [|by left]. rewrite IH; [lia|]. intros y Hy. apply Hf. by right.
Qed.

Lemma eq_weight_single t bs : eq_weight (BombEquation_init [t] bs) = 3%nat.
Proof. unfold eq_weight. by rewrite tiles_init list_to_set_single_tile size_singleton. Qed.

Lemma scan_result_measure new cs ds ms kept add :
  scan_result new cs ds ms kept add →
  (1 ≤ size (tiles new))%nat →
  Forall (λ old, 1 ≤ size (tiles old))%nat cs →
  (sum_list_with eq_weight kept + sum_list_with (λ e, S (eq_weight e)) ds
   + (if add then eq_weight new else 0) + 1
   ≤ sum_list_with eq_weight cs + S (eq_weight new))%nat.
Proof.
  intros Hscan Hnew.
  induction Hscan as [|cs|old cs d ds ms kept add Hne Hle Hsub _ IH
                     |old cs d Hne Hle1 Hle2 Hsub|old cs ds ms kept add Hne Hle1 Hle2 _ IH];
    intros Hcs; simpl; try lia; apply Forall_cons in Hcs as [Hold Hcs].
  - specialize (IH Hcs). apply tiles_sub in Hsub.
    apply BombEquation_le_spec in Hle as [Hle _].
    assert (eq_weight d + 1 ≤ eq_weight old)%nat; [|lia].
    unfold eq_weight. rewrite Hsub size_difference //.
    apply subseteq_size in Hle. nia.
  - apply tiles_sub in Hsub. apply BombEquation_le_spec in Hle2 as [Hle2 _].
    assert (eq_weight d + 1 ≤ eq_weight new)%nat; [|lia].
    unfold eq_weight. rewrite Hsub size_difference //.
    apply subseteq_size in Hle2. nia.
  - specialize (IH Hcs). lia.
Qed.

(** Every iteration that goes on decreases the measure. *)
Lemma integrate_iteration_measure cs W cs' W' :
  store_ok cs → Forall wf_eq W →
  integrate_iteration cs W = Ok (inr (cs', W')) →
  (integrate_measure cs' W' < integrate_measure cs W)%nat.
Proof.
  intros (Hnd & Hwf & Hred & Hiso) HW Hiter. unfold integrate_measure.
  apply integrate_iteration_inv in Hiter
    as [[_ [=]]|[(? & ? & _ & _ & [=])|[(W0 & new & parts & -> & Him & Hsp & Hparts & Hr)
                                        |(W0 & new & ds & ms & kept & add & -> & Him & Hsp & Hscan & Hr)]]];
    injection Hr as -> ->; rewrite !sum_list_with_app; simpl.
  - apply split_parts in Hparts as (bs & _ & -> & _).
    rewrite (sum_list_with_const (λ e, S (eq_weight e)) 4%nat
               (map (λ t, BombEquation_init [t] bs) (elements (tiles new)))); last first.
    { intros p (t & -> & _)%list_elem_of_fmap. by rewrite eq_weight_single. }
    rewrite length_fmap -(size_list_to_set (C:=gset tile)); [|apply NoDup_elements].
    rewrite list_to_set_elements_tiles.
    unfold is_splittable in Hsp. apply andb_true_iff in Hsp as [Hsize _].
    apply negb_true_iff, bool_decide_eq_false in Hsize.
    unfold eq_weight. nia.
  - apply Forall_app in HW as [_ Hnew]. apply Forall_cons in Hnew as [Hnew _].
    assert (1 ≤ size (tiles new))%nat as H by by apply reduced_nonempty.
    assert (Forall (λ old, 1 ≤ size (tiles old))%nat cs) as H0.
    { apply Forall_forall. intros old Hold. apply reduced_nonempty.
      - by eapply Forall_forall in Hwf.
      - by eapply Forall_forall in Hred. }
    pose proof (scan_result_measure _ _ _ _ _ _ Hscan H H0) as Hm.
    destruct add; rewrite ?sum_list_with_app; simpl; lia.
Qed.

Lemma integrate_terminates_at fuel cs W :
  store_ok cs → Forall wf_eq W → (integrate_measure cs W < fuel)%nat →
  ∃ answer, integrate_new_bomb_eqs fuel cs W = Ok answer.
Proof.
  revert cs W. induction fuel as [|fuel IH]; intros cs W Hok HW Hlt; [lia|].
  simpl. destruct (integrate_iteration_Ok cs W) as [[answer|[cs' W']] Hiter];
    rewrite Hiter; simpl; [eauto|].
  pose proof (integrate_iteration_measure _ _ _ _ Hok HW Hiter).
  destruct (integrate_iteration_store_ok _ _ _ _ (conj Hok HW) Hiter).
  apply IH; [done|done|lia].
Qed.

(** Integrating well-formed equations into a store that satisfies the
    invariant returns, given enough fuel. *)
Lemma integrate_terminates cs W :
  store_ok cs → Forall wf_eq W →
  ∃ answer, ∀ fuel, (integrate_measure cs W < fuel)%nat →
                    integrate_new_bomb_eqs fuel cs W = Ok answer.
Proof.
  intros Hok HW.
  destruct (integrate_terminates_at (S (integrate_measure cs W)) cs W Hok HW) as [answer Ha];
    [lia|].
  exists answer. intros fuel Hfuel. eapply integrate_fuel_mono; [done|lia].
Qed.

(** *** Integrating the guess for one tile *)

Lemma store_ok_submseteq cs1 cs2 : cs1 ⊆+ cs2 → store_ok cs2 → store_ok cs1.
Proof.
  intros Hsub (Hnd & Hwf & Hred & Hiso).
  destruct (submseteq_Permutation _ _ Hsub) as [k Hk].
  rewrite Hk in Hnd, Hwf, Hred.
  apply NoDup_app in Hnd as [Hnd _].
  apply Forall_app in Hwf as [Hwf _]. apply Forall_app in Hred as [Hred _].
  repeat split; try done.
  intros e e' He He'. apply Hiso; by eapply elem_of_submseteq.
Qed.

Lemma store_ok_perm cs1 cs2 : cs1 ≡ₚ cs2 → store_ok cs2 → store_ok cs1.
Proof. intros Hp. apply store_ok_submseteq. by apply Permutation_submseteq. Qed.

Lemma store_ok_nil : store_ok [].
Proof.
  repeat split; try constructor. intros e e' He. by apply elem_of_nil in He.
Qed.

Lemma list_remove_first_perm `{EqDecision A} (x : A) (l l' : list A) :
  list_remove_first x l = Ok l' → l ≡ₚ x :: l'.
Proof.
  revert l'. induction l as [|y l IH]; intros l'; simpl; [done|].
  case_decide as Heq.
  - intros [= <-]. by subst.
  - intros (l'' & Hrem & [= <-])%bind_Ok. rewrite (IH _ Hrem). apply Permutation_swap.
Qed.

Lemma list_remove_first_Ok `{EqDecision A} (x : A) (l : list A) :
  x ∈ l → ∃ l', list_remove_first x l = Ok l'.
Proof.
  induction l as [|y l IH]; intros Hin; simpl.
  - by apply elem_of_nil in Hin.
  - case_decide as Heq; [eauto|].
    apply elem_of_cons in Hin as [?|Hin]; [done|].
    destruct (IH Hin) as [l' ->]. simpl. eauto.
Qed.

Lemma scan_result_marked_diff new cs ds ms kept add old :
  scan_result new cs ds ms kept add → old ∈ ms →
  ∃ d, BombEquation_sub old new = Ok d ∧ d ∈ ds.
Proof.
  induction 1 as [|cs|old' cs d ds ms kept add Hne Hle Hsub _ IH
                 |old' cs d Hne Hle1 Hle2 Hsub|old' cs ds ms kept add Hne Hle1 Hle2 _ IH];
    intros Hin; try (by apply elem_of_nil in Hin).
  - apply elem_of_cons in Hin as [->|Hin].
    + exists d. split; [done|by left].
    + destruct (IH Hin) as (d' & ? & ?). exists d'. split; [done|by right].
  - by apply IH.
Qed.

Lemma scan_result_stop new cs ds ms kept :
  scan_result new cs ds ms kept false →
  new ∈ kept
  ∨ ∃ old, old ∈ cs ∧ BombEquation_le new old = false ∧ BombEquation_le old new = true.
Proof.
  intros Hscan. remember false as add eqn:Hadd.
  induction Hscan as [|cs|old cs d ds ms kept add Hne Hle Hsub _ IH
                     |old cs d Hne Hle1 Hle2 Hsub|old cs ds ms kept add Hne Hle1 Hle2 _ IH];
    try done.
  - left. by left.
  - destruct (IH Hadd) as [?|(old' & ? & ? & ?)]; [by left|].
    right. exists old'. split; [by right|done].
  - right. exists old. split; [by left|done].
  - destruct (IH Hadd) as [?|(old' & ? & ? & ?)]; [left; by right|].
    right. exists old'. split; [by right|done].
Qed.

Lemma trivial_init t b : 0 ≤ b ≤ 1 →
  tiles (BombEquation_init [t] [b]) = {[ t ]} ∧ bombs (BombEquation_init [t] [b]) = [b].
Proof.
  intros Hb. rewrite tiles_init bombs_init list_to_set_single_tile size_singleton.
  split; [done|]. rewrite filter_cons_True; [|lia]. done.
Qed.

Lemma trivial_init_checks t b : 0 ≤ b ≤ 1 →
  is_impossible (BombEquation_init [t] [b]) = false
  ∧ is_splittable (BombEquation_init [t] [b]) = false
  ∧ is_trivial (BombEquation_init [t] [b]) = true.
Proof.
  intros Hb. destruct (trivial_init t b Hb) as [Ht Hbs].
  unfold is_impossible, is_splittable, is_trivial. rewrite Ht Hbs size_singleton. done.
Qed.

(** After a successful integration of the trivial equation for [t], that
    equation is in the store. *)
Lemma integrate_trivial_kept fuel cs t b cs' :
  store_ok cs → 0 ≤ b ≤ 1 →
  integrate_new_bomb_eqs fuel cs [BombEquation_init [t] [b]] = Ok (true, cs') →
  BombEquation_init [t] [b] ∈ cs'.
Proof.
  intros Hok Hb Hint.
  destruct (trivial_init t b Hb) as [Htt Htb].
  destruct (trivial_init_checks t b Hb) as (Htimp & Htsp & Httriv).
  assert (Hwft : wf_eq (BombEquation_init [t] [b]))
    by (apply wf_eq_init, StronglySorted_singleton).
  revert Hint Htt Htb Htimp Htsp Httriv Hwft.
  generalize (BombEquation_init [t] [b]). intros triv Hint Htt Htb Htimp Htsp Httriv Hwft.
  refine (integrate_ind
            (λ cs1 W1, (store_ok cs1 ∧ Forall wf_eq W1)
                       ∧ (triv ∈ cs1 ∨ triv ∈ W1 ∨ Exists (λ e, is_impossible e = true) W1))
            (λ answer, answer.1 = true → triv ∈ answer.2)
            _ _ fuel cs [triv] (true, cs') _ Hint eq_refl).
  - intros cs1 W1 answer [_ Hor] Hiter.
    apply integrate_iteration_inv in Hiter
      as [[-> [= ->]]|[(W0 & new & -> & Him & [= ->])|[(? & ? & ? & _ & _ & _ & _ & [=])
                                               |(? & ? & ? & ? & ? & ? & _ & _ & _ & _ & [=])]]];
      cbn [fst snd]; [|done].
    intros _. destruct Hor as [?|[Hin|Hex]]; [done|by apply elem_of_nil in Hin|].
    by apply Exists_nil in Hex.
  - intros cs1 W1 cs2 W2 [Hinv Hor] Hiter.
    split; [by eapply integrate_iteration_store_ok|].
    destruct Hinv as [(Hnd & Hwf & Hred & Hiso) HW].
    apply integrate_iteration_inv in Hiter
      as [[_ [=]]|[(? & ? & _ & _ & [=])|[(W0 & new & parts & -> & Him & Hsp & Hparts & Hr)
                                          |(W0 & new & ds & ms & kept & add & -> & Him & Hsp & Hscan & Hr)]]];
      injection Hr as -> ->.
    + destruct Hor as [?|[Hin|Hex]]; [by left|right; left|right; right].
      * apply elem_of_app in Hin as [?|Hin%list_elem_of_singleton];
          [apply elem_of_app; by left|]. congruence.
      * apply Exists_app in Hex as [?|Hex]; [apply Exists_app; by left|].
        apply Exists_cons in Hex as [?|Hex]; [congruence|by apply Exists_nil in Hex].
    + apply Forall_app in HW as [HW0 Hnew]. apply Forall_cons in Hnew as [Hnew _].
      assert (Hnew1 : (1 ≤ size (tiles new))%nat) by by apply reduced_nonempty.
      destruct Hor as [Hin|[Hin|Hex]].
      * destruct (scan_result_partition _ _ _ _ _ _ _ Hscan Hin) as [Hk|Hm].
        { left. destruct add; [apply elem_of_app; by left|done]. }
        right. right. apply Exists_app. right.
        destruct (scan_result_marked_diff _ _ _ _ _ _ _ Hscan Hm) as (d & Hd & Hdin).
        apply Exists_exists. exists d. split; [done|].
        pose proof (scan_result_marked _ _ _ _ _ _ Hscan) as Hmarked.
        eapply Forall_forall in Hmarked; [|exact Hm].
        destruct Hmarked as [Hne Hmarked].
        apply BombEquation_le_spec in Hmarked as [Hsub [b' Hb']].
        rewrite (BombEquation_sub_Ok _ _ _ Hb') in Hd. injection Hd as <-.
        unfold is_impossible. cbn [bombs]. apply bool_decide_eq_true.
        rewrite Htt in Hsub |- *.
        assert (tiles new = {[ t ]}) as Hnt.
        { apply set_subseteq_size_eq; [done|]. rewrite size_singleton. lia. }
        rewrite Hnt Htb. replace ({[ t ]} ∖ {[ t ]}) with (∅ : gset tile) by set_solver.
        rewrite size_empty. simpl.
        rewrite filter_cons_False; [done|].
        assert (b ≠ b'); [|lia]. intros <-.
        apply Hne. apply BombEquation_eq; congruence.
      * apply elem_of_app in Hin as [Hin|Hin%list_elem_of_singleton].
        { right. left. apply elem_of_app. by left. }
        subst new. left. destruct add; [apply elem_of_app; right; by left|].
        destruct (scan_result_stop _ _ _ _ _ Hscan) as [?|(old & Hold & Hle1 & Hle2)]; [done|].
        exfalso. apply BombEquation_le_spec in Hle2 as [Hsub Hb2].
        assert (BombEquation_le triv old = true); [|congruence].
        apply BombEquation_le_spec. split; [|eauto].
        assert (tiles old = {[ t ]}) as ->; [|by rewrite Htt].
        rewrite Htt in Hsub.
        apply set_subseteq_size_eq; [done|]. rewrite size_singleton.
        apply reduced_nonempty.
        -- by eapply Forall_forall in Hwf.
        -- by eapply Forall_forall in Hred.
      * right. right. apply Exists_app in Hex as [?|Hex]; [apply Exists_app; by left|].
        apply Exists_cons in Hex as [?|Hex]; [congruence|by apply Exists_nil in Hex].
  - split; [split; [done|]|].
    + apply Forall_cons. split; [done|constructor].
    + right. left. by left.
Qed.

(** ** Solutions as counts of layouts *)

Lemma lookup_gset_to_gmap_dec (c : Z) (X : gset tile) t :
  gset_to_gmap c X !! t = if decide (t ∈ X) then Some c else None.
Proof.
  case_decide; [by apply lookup_gset_to_gmap_Some|by apply lookup_gset_to_gmap_None].
Qed.

Lemma lookup_indicator (X A : gset tile) t :
  indicator X A !! t
  = if decide (t ∈ X) then Some (if decide (t ∈ A) then 1 else 0) else None.
Proof.
  unfold indicator. rewrite lookup_union !lookup_gset_to_gmap_dec.
  repeat case_decide; try done; set_solver.
Qed.

Lemma indicator_empty : indicator ∅ ∅ = ∅.
Proof.
  apply map_eq. intros t. rewrite lookup_indicator.
  case_decide as Ht; [by apply elem_of_empty in Ht|]. done.
Qed.

Lemma dom_indicator (X A : gset tile) : dom (indicator X A) = X.
Proof.
  apply set_eq. intros t. rewrite elem_of_dom lookup_indicator.
  case_decide; split; try done; by intros [? ?].
Qed.

Lemma solution_tiles_layout (X A : gset tile) : solution_tiles (layout_solution X A) = X.
Proof.
  apply set_eq. intros t. unfold layout_solution.
  by rewrite elem_of_solution_tiles_singleton dom_indicator.
Qed.

Lemma solution_tiles_layouts (X : gset tile) L : solution_tiles (layouts_solution X L) ⊆ X.
Proof.
  intros t (A & _ & Ht)%elem_of_solution_tiles_big_sum.
  by rewrite solution_tiles_layout in Ht.
Qed.

Lemma layouts_solution_app X L1 L2 :
  layouts_solution X (L1 ++ L2)
  = Solution_iadd (layouts_solution X L1) (layouts_solution X L2).
Proof. apply big_sum_app. Qed.

Lemma layouts_solution_perm X L1 L2 :
  L1 ≡ₚ L2 → layouts_solution X L1 = layouts_solution X L2.
Proof. apply big_sum_perm. Qed.

Lemma layouts_solution_nil X : layouts_solution X [] = ∅.
Proof. done. Qed.

Lemma layouts_solution_singleton X A : layouts_solution X [A] = layout_solution X A.
Proof. unfold layouts_solution. simpl. apply Solution_iadd_empty_r. Qed.

Lemma big_sum_bind {A B : Type} (g : B → Solution) (f : A → list B) (l : list A) :
  big_sum g (l ≫= f) = big_sum (λ x, big_sum g (f x)) l.
Proof.
  induction l as [|x l IH]; [done|].
  rewrite bind_cons big_sum_app IH. done.
Qed.

Lemma Solution_mul_singletons (k1 k2 : Z) (e1 e2 : gmap tile Z * Z) :
  Solution_mul {[ k1 := e1 ]} {[ k2 := e2 ]} = {[ k1 + k2 := entry_mul e1 e2 ]}.
Proof.
  rewrite Solution_mul_singleton_l map_to_list_singleton. simpl.
  apply Solution_iadd_empty_r.
Qed.

Lemma layout_solution_mul X1 X2 A1 A2 :
  X1 ## X2 → A1 ⊆ X1 → A2 ⊆ X2 →
  Solution_mul (layout_solution X1 A1) (layout_solution X2 A2)
  = layout_solution (X1 ∪ X2) (A1 ∪ A2).
Proof.
  intros Hdisj H1 H2. unfold layout_solution. rewrite Solution_mul_singletons.
  rewrite size_union; [|set_solver]. rewrite Nat2Z.inj_add. f_equal.
  unfold entry_mul. cbn [fst snd]. f_equal.
  apply map_eq. intros t.
  rewrite lookup_union !lookup_fmap !lookup_indicator.
  repeat case_decide; simpl; try done; set_solver.
Qed.

Lemma Solution_mul_big_sum_r {A : Type} (a : Solution) (g : A → Solution) (l : list A) :
  (∀ x, x ∈ l → solution_tiles a ## solution_tiles (g x)) →
  Solution_mul a (big_sum g l) = big_sum (λ x, Solution_mul a (g x)) l.
Proof.
  intros Hdisj. rewrite Solution_mul_comm.
  - rewrite Solution_mul_big_sum_l. apply big_sum_ext. intros x Hx.
    apply Solution_mul_comm. symmetry. by apply Hdisj.
  - intros t Ht (x & Hx & Ht')%elem_of_solution_tiles_big_sum.
    by eapply Hdisj.
Qed.

(** The product of the Solutions of two disjoint areas counts the unions of
    their layouts. *)
Lemma layouts_solution_mul X1 X2 L1 L2 :
  X1 ## X2 → Forall (λ A, A ⊆ X1) L1 → Forall (λ A, A ⊆ X2) L2 →
  Solution_mul (layouts_solution X1 L1) (layouts_solution X2 L2)
  = layouts_solution (X1 ∪ X2) (layouts_product L1 L2).
Proof.
  intros Hdisj H1 H2. unfold layouts_solution, layouts_product.
  rewrite Solution_mul_big_sum_l big_sum_bind.
  apply big_sum_ext. intros A1 HA1.
  rewrite Solution_mul_big_sum_r; last first.
  { intros A2 _. rewrite !solution_tiles_layout. done. }
  rewrite big_sum_bind. apply big_sum_ext. intros A2 HA2. simpl.
  rewrite Solution_iadd_empty_r. apply layout_solution_mul; [done|..].
  - by eapply Forall_forall in H1.
  - by eapply Forall_forall in H2.
Qed.

Lemma num_layouts_of_iadd a b k :
  num_layouts_of (Solution_iadd a b) k = num_layouts_of a k + num_layouts_of b k.
Proof.
  unfold num_layouts_of. rewrite lookup_iadd.
  destruct (a !! k) as [[F1 N1]|], (b !! k) as [[F2 N2]|]; simpl; lia.
Qed.

Lemma bomb_count_of_iadd a b k t :
  bomb_count_of (Solution_iadd a b) k t = bomb_count_of a k t + bomb_count_of b k t.
Proof.
  unfold bomb_count_of. rewrite lookup_iadd.
  destruct (a !! k) as [[F1 N1]|], (b !! k) as [[F2 N2]|]; simpl; try lia.
  rewrite lookup_union_with.
  destruct (F1 !! t), (F2 !! t); simpl; lia.
Qed.

(** [N_k] of the Solution of a list of layouts is the number of its
    layouts with [k] bombs. *)
Lemma num_layouts_of_layouts X L k :
  num_layouts_of (layouts_solution X L) k
  = Z.of_nat (length (filter (λ A, Z.of_nat (size A) = k) L)).
Proof.
  induction L as [|A L IH]; [done|].
  unfold layouts_solution in *. simpl. rewrite num_layouts_of_iadd IH.
  rewrite filter_cons. unfold num_layouts_of, layout_solution.
  case_decide as Hk.
  - rewrite Hk lookup_singleton_eq. simpl. lia.
  - rewrite lookup_singleton_ne //.
Qed.

(** [F_k[t]] of the Solution of a list of layouts is the number of its
    layouts with [k] bombs, one of them on [t]. *)
Lemma bomb_count_of_layouts X L k t :
  Forall (λ A, A ⊆ X) L →
  bomb_count_of (layouts_solution X L) k t
  = Z.of_nat (length (filter (λ A, Z.of_nat (size A) = k ∧ t ∈ A) L)).
Proof.
  induction L as [|A L IH]; intros HL; [done|].
  apply Forall_cons in HL as [HA HL].
  unfold layouts_solution in *. simpl. rewrite bomb_count_of_iadd IH //.
  rewrite filter_cons. unfold bomb_count_of, layout_solution.
  destruct (decide (Z.of_nat (size A) = k)) as [Hk|Hk].
  - rewrite Hk lookup_singleton_eq lookup_indicator.
    repeat case_decide; simpl; try lia; try tauto; set_solver.
  - rewrite lookup_singleton_ne //. rewrite decide_False; [|tauto]. done.
Qed.

(** ** [comb] is the binomial coefficient *)

Lemma length_pascal_row n : length (pascal_row n) = S n.
Proof.
  induction n as [|n IH]; [done|].
  cbn [pascal_row]. unfold pascal_next.
  rewrite length_zip_with length_cons length_app IH. cbn [length]. lia.
Qed.

Lemma math_comb_0_r n : math_comb n 0 = 1.
Proof.
  induction n as [|n IH]; [done|].
  unfold math_comb in *. simpl. unfold pascal_next.
  destruct (pascal_row n) as [|x row] eqn:Hrow; [done|].
  simpl in *. lia.
Qed.

Lemma math_comb_0_l k : math_comb 0 (S k) = 0.
Proof. unfold math_comb. simpl. by destruct k. Qed.

Lemma math_comb_pascal n k :
  math_comb (S n) (S k) = math_comb n k + math_comb n (S k).
Proof.
  unfold math_comb. simpl. unfold pascal_next.
  rewrite lookup_zip_with. simpl.
  pose proof (length_pascal_row n) as Hlen.
  destruct (pascal_row n !! k) as [x|] eqn:Hk; simpl; last first.
  { apply lookup_ge_None in Hk. rewrite lookup_ge_None_2; [done|lia]. }
  apply lookup_lt_Some in Hk as Hlt.
  destruct (decide (S k < length (pascal_row n))%nat) as [Hlt'|Hge].
  - rewrite lookup_app_l //. destruct (lookup_lt_is_Some_2 _ _ Hlt') as [y Hy].
    by rewrite Hy.
  - rewrite lookup_app_r; [|lia].
    replace (S k - length (pascal_row n))%nat with 0%nat by lia. simpl.
    rewrite lookup_ge_None_2; [|lia]. simpl. lia.
Qed.

Lemma math_comb_gt n k : (n < k)%nat → math_comb n k = 0.
Proof.
  intros Hlt. unfold math_comb. rewrite lookup_ge_None_2; [done|].
  rewrite length_pascal_row. lia.
Qed.

Lemma math_comb_pos n k : (k ≤ n)%nat → 0 < math_comb n k.
Proof.
  revert k. induction n as [|n IH]; intros k Hk.
  - replace k with 0%nat by lia. by rewrite math_comb_0_r.
  - destruct k as [|k]; [by rewrite math_comb_0_r|].
    rewrite math_comb_pascal.
    assert (0 < math_comb n k) by (apply IH; lia).
    destruct (decide (S k ≤ n)%nat).
    + assert (0 < math_comb n (S k)) by (apply IH; lia). lia.
    + rewrite (math_comb_gt n (S k)); lia.
Qed.

Lemma math_comb_diag n : math_comb n n = 1.
Proof.
  induction n as [|n IH]; [done|].
  rewrite math_comb_pascal IH math_comb_gt; [lia|]. lia.
Qed.

Lemma comb_out_of_range n k : k < 0 ∨ n < k → comb n k = 0.
Proof.
  intros Hk. unfold comb.
  destruct (k <? 0) eqn:E1; [done|]. destruct (n <? k) eqn:E2; [done|]. lia.
Qed.

Lemma comb_in_range n k :
  0 ≤ k ≤ n → comb n k = math_comb (Z.to_nat n) (Z.to_nat k).
Proof.
  intros Hk. unfold comb.
  destruct (k <? 0) eqn:E1; [lia|]. destruct (n <? k) eqn:E2; [lia|]. done.
Qed.

Lemma comb_pos n k : 0 ≤ k ≤ n → 0 < comb n k.
Proof. intros Hk. rewrite comb_in_range //. apply math_comb_pos. lia. Qed.

Lemma comb_nonneg n k : 0 ≤ comb n k.
Proof.
  destruct (decide (0 ≤ k ≤ n)) as [Hk|Hk].
  - apply comb_pos in Hk. lia.
  - rewrite comb_out_of_range; lia.
Qed.

Lemma comb_0_r n : 0 ≤ n → comb n 0 = 1.
Proof. intros Hn. rewrite comb_in_range; [|lia]. apply math_comb_0_r. Qed.

Lemma comb_diag n : 0 ≤ n → comb n n = 1.
Proof. intros Hn. rewrite comb_in_range; [|lia]. apply math_comb_diag. Qed.

(** Pascal's rule, for every [k]. *)
Lemma comb_pascal n k : 0 ≤ n → comb (n + 1) k = comb n k + comb n (k - 1).
Proof.
  intros Hn.
  destruct (decide (k < 0)) as [Hneg|Hk0].
  { rewrite !comb_out_of_range; lia. }
  destruct (decide (k = 0)) as [->|Hk1].
  { rewrite !comb_0_r; [|lia..]. rewrite comb_out_of_range; lia. }
  destruct (decide (n + 1 < k)) as [Hbig|Hle].
  { rewrite !comb_out_of_range; lia. }
  rewrite (comb_in_range (n + 1) k); [|lia].
  rewrite (comb_in_range n (k - 1)); [|lia].
  replace (Z.to_nat (n + 1)) with (S (Z.to_nat n)) by lia.
  replace (Z.to_nat k) with (S (Z.to_nat (k - 1))) by lia.
  rewrite math_comb_pascal.
  destruct (decide (k ≤ n)).
  - rewrite (comb_in_range n k); [|lia].
    replace (Z.to_nat k) with (S (Z.to_nat (k - 1))) by lia. lia.
  - rewrite (comb_out_of_range n k); [|lia].
    rewrite (math_comb_gt _ (S _)); [|lia]. lia.
Qed.

(** * Further properties of the code *)

(** ** [BombEquation]: what [split] and [__sub__] mean for layouts *)

Lemma splittable_not_impossible e : is_splittable e = true → is_impossible e = false.
Proof.
  unfold is_splittable, is_impossible. intros H.
  apply bool_decide_eq_false. intros Hb. rewrite Hb in H. simpl in H.
  rewrite andb_true_iff in H. destruct H as [_ H].
  case_bool_decide; [lia|done].
Qed.

(** X1.  [split] on a splittable equation that keeps the representation
    invariant returns one single-tile equation for each tile of the
    equation, all with the same bomb numbers, and a layout satisfies the
    equation exactly when it satisfies every part. *)
Theorem split_meaning e :
  wf_eq e → is_splittable e = true →
  ∃ parts bs,
    split e = Ok parts
    ∧ parts = map (λ t, BombEquation_init [t] bs) (elements (tiles e))
    ∧ length parts = size (tiles e)
    ∧ store_tiles parts = tiles e
    ∧ ∀ A, satisfies A e ↔ Forall (satisfies A) parts.
Proof.
  intros Hwf Hsplit.
  pose proof (splittable_not_impossible e Hsplit) as Himp.
  destruct (split_Ok e Himp) as [parts Hparts].
  destruct (split_parts e parts Hparts) as (bs & _ & Heq & _).
  exists parts, bs. split; [done|]. split; [done|]. split.
  { by rewrite Heq length_map. }
  split; [by apply store_tiles_split|].
  intros A. by apply satisfies_split.
Qed.

Lemma split_meaning_witness :
  ∃ parts bs,
    split (BombEquation_init [(0, 0); (0, 1); (1, 0)] [3]) = Ok parts
    ∧ parts = map (λ t, BombEquation_init [t] bs)
                  (elements (tiles (BombEquation_init [(0, 0); (0, 1); (1, 0)] [3])))
    ∧ length parts = size (tiles (BombEquation_init [(0, 0); (0, 1); (1, 0)] [3]))
    ∧ store_tiles parts = tiles (BombEquation_init [(0, 0); (0, 1); (1, 0)] [3])
    ∧ ∀ A, satisfies A (BombEquation_init [(0, 0); (0, 1); (1, 0)] [3])
           ↔ Forall (satisfies A) parts.
Proof.
  apply (split_meaning (BombEquation_init [(0, 0); (0, 1); (1, 0)] [3])).
  - apply wf_eq_init. repeat constructor.
  - by vm_compute.
Defined.

(** X2.  For [e1 ⊑ e2] the difference [e2 - e1] is defined, and among the
    layouts that satisfy [e1] it has the same meaning as [e2]: this is
    what lets the integrator replace [e2] by the difference. *)
Theorem sub_meaning e1 e2 :
  BombEquation_le e1 e2 = true →
  ∃ d, BombEquation_sub e2 e1 = Ok d
       ∧ ∀ A, satisfies A e1 → (satisfies A e2 ↔ satisfies A d).
Proof.
  intros Hle. destruct (BombEquation_sub_le_Ok e1 e2 Hle) as [d Hd].
  exists d. split; [done|]. intros A HA. by apply (satisfies_sub A e1 e2 d).
Qed.

Lemma sub_meaning_witness :
  ∃ d, BombEquation_sub (BombEquation_init [(0, 2); (1, 2); (2, 2)] [1; 2])
                        (BombEquation_init [(0, 2); (1, 2)] [1]) = Ok d
       ∧ ∀ A, satisfies A (BombEquation_init [(0, 2); (1, 2)] [1]) →
              (satisfies A (BombEquation_init [(0, 2); (1, 2); (2, 2)] [1; 2])
               ↔ satisfies A d).
Proof.
  apply (sub_meaning (BombEquation_init [(0, 2); (1, 2)] [1])
                     (BombEquation_init [(0, 2); (1, 2); (2, 2)] [1; 2])).
  by vm_compute.
Defined.

(** ** [integrate_new_bomb_eqs] on the stores it produces *)

Lemma store_ok_singleton e : wf_eq e → reduced e → store_ok [e].
Proof.
  intros Hwf Hred. split; [apply NoDup_singleton|].
  split; [by apply Forall_singleton|]. split; [by apply Forall_singleton|].
  intros e1 e2 ->%list_elem_of_singleton ->%list_elem_of_singleton _ Hne. done.
Qed.

(** X3.  On a store that satisfies the store invariant and a worklist of
    equations that keep the representation invariant, the integrator
    returns: it raises nothing, and its loop ends within a number of
    iterations bounded by the measure of the store and the worklist. *)
Theorem integrate_returns cs W :
  store_ok cs → Forall wf_eq W →
  ∃ ok cs', ∀ fuel, (integrate_measure cs W < fuel)%nat →
                    integrate_new_bomb_eqs fuel cs W = Ok (ok, cs').
Proof.
  intros Hcs HW. destruct (integrate_terminates cs W Hcs HW) as [[ok cs'] H].
  by exists ok, cs'.
Qed.

Lemma integrate_returns_witness :
  ∃ ok cs', ∀ fuel,
    lt (integrate_measure [BombEquation_init [(0, 0); (0, 1); (1, 0)] [1]]
                          [BombEquation_init [(0, 0)] [1]]) fuel →
    integrate_new_bomb_eqs fuel [BombEquation_init [(0, 0); (0, 1); (1, 0)] [1]]
                                [BombEquation_init [(0, 0)] [1]] = Ok (ok, cs').
Proof.
  apply (integrate_returns [BombEquation_init [(0, 0); (0, 1); (1, 0)] [1]]
                           [BombEquation_init [(0, 0)] [1]]).
  - apply store_ok_singleton.
    + apply wf_eq_init. repeat constructor.
    + split; by vm_compute.
  - apply Forall_singleton. apply wf_eq_init. repeat constructor.
Defined.

(** X4.  What the integrator's answer means, on a store that satisfies
    the store invariant and a worklist of equations that keep the
    representation invariant of [BombEquation] (bomb numbers strictly
    ascending, between [0] and the number of tiles).  When it returns
    [True], the layouts that satisfy the new store are those that satisfy
    the old store and every equation of the worklist, and the new store
    mentions the tiles of both; when it returns [False], no layout
    satisfies the old store together with the worklist. *)
Theorem integrate_meaning fuel cs W ok cs' :
  store_ok cs → Forall wf_eq W →
  integrate_new_bomb_eqs fuel cs W = Ok (ok, cs') →
  if ok then
    (∀ A, Forall (satisfies A) cs' ↔ Forall (satisfies A) cs ∧ Forall (satisfies A) W)
    ∧ store_tiles cs' = store_tiles cs ∪ store_tiles W
  else ∀ A, ¬ (Forall (satisfies A) cs ∧ Forall (satisfies A) W).
Proof. apply integrate_sem. Qed.

Lemma integrate_meaning_witness :
  (∀ A, Forall (satisfies A)
          [BombEquation_init [(0, 0)] [1]; BombEquation_init [(0, 1); (1, 0)] [0; 1]]
        ↔ Forall (satisfies A) [BombEquation_init [(0, 0); (0, 1); (1, 0)] [1; 2]]
          ∧ Forall (satisfies A) [BombEquation_init [(0, 0)] [1]])
  ∧ store_tiles [BombEquation_init [(0, 0)] [1]; BombEquation_init [(0, 1); (1, 0)] [0; 1]]
    = store_tiles [BombEquation_init [(0, 0); (0, 1); (1, 0)] [1; 2]]
      ∪ store_tiles [BombEquation_init [(0, 0)] [1]].
Proof.
  apply (integrate_meaning 10 [BombEquation_init [(0, 0); (0, 1); (1, 0)] [1; 2]]
           [BombEquation_init [(0, 0)] [1]] true).
  - apply store_ok_singleton.
    + apply wf_eq_init. repeat constructor.
    + split; by vm_compute.
  - apply Forall_singleton. apply wf_eq_init. repeat constructor.
  - by vm_compute.
Defined.

(** X5.  The integrator keeps the rest of the store invariant as well:
    every equation of the new store keeps the representation invariant of
    [BombEquation], and the tile of a trivial equation of the new store
    occurs in no other equation of it. *)
Theorem integrate_isolates_known_tiles fuel cs W ok cs' :
  store_ok cs → Forall wf_eq W →
  integrate_new_bomb_eqs fuel cs W = Ok (ok, cs') →
  Forall wf_eq cs' ∧ trivial_isolated cs'.
Proof.
  intros Hcs HW H.
  destruct (integrate_store_ok fuel cs W ok cs' Hcs HW H) as (_ & Hwf & _ & Hiso).
  done.
Qed.

Lemma integrate_isolates_known_tiles_witness :
  Forall wf_eq [BombEquation_init [(0, 0)] [1]; BombEquation_init [(0, 1); (1, 0)] [0; 1]]
  ∧ trivial_isolated
      [BombEquation_init [(0, 0)] [1]; BombEquation_init [(0, 1); (1, 0)] [0; 1]].
Proof.
  apply (integrate_isolates_known_tiles 10
           [BombEquation_init [(0, 0); (0, 1); (1, 0)] [1; 2]]
           [BombEquation_init [(0, 0)] [1]] true).
  - apply store_ok_singleton.
    + apply wf_eq_init. repeat constructor.
    + split; by vm_compute.
  - apply Forall_singleton. apply wf_eq_init. repeat constructor.
  - by vm_compute.
Defined.

(** X6.  After a single-tile fact [(t, b)] is integrated successfully the
    store holds that very equation, so the [remove] that [solve_area] does
    next finds it. *)
Theorem integrate_fact_kept fuel cs t b cs' :
  store_ok cs → 0 ≤ b ≤ 1 →
  integrate_new_bomb_eqs fuel cs [BombEquation_init [t] [b]] = Ok (true, cs') →
  ∃ cs'', list_remove_first (BombEquation_init [t] [b]) cs' = Ok cs''
          ∧ cs' ≡ₚ BombEquation_init [t] [b] :: cs''.
Proof.
  intros Hcs Hb H.
  pose proof (integrate_trivial_kept fuel cs t b cs' Hcs Hb H) as Hin.
  destruct (list_remove_first_Ok _ _ Hin) as [cs'' Hrm].
  exists cs''. split; [done|]. by apply list_remove_first_perm.
Qed.

Lemma integrate_fact_kept_witness :
  ∃ cs'', list_remove_first (BombEquation_init [(0, 0)] [1])
            [BombEquation_init [(0, 0)] [1]; BombEquation_init [(0, 1); (1, 0)] [0; 1]]
          = Ok cs''
          ∧ [BombEquation_init [(0, 0)] [1]; BombEquation_init [(0, 1); (1, 0)] [0; 1]]
            ≡ₚ BombEquation_init [(0, 0)] [1] :: cs''.
Proof.
  apply (integrate_fact_kept 10 [BombEquation_init [(0, 0); (0, 1); (1, 0)] [1; 2]]
           (0, 0) 1).
  - apply store_ok_singleton.
    + apply wf_eq_init. repeat constructor.
    + split; by vm_compute.
  - lia.
  - by vm_compute.
Defined.

(** ** [comb] and [return_neighbours] *)

Lemma math_comb_factorial n k :
  (k ≤ n)%nat →
  math_comb n k * Z.of_nat (fact k) * Z.of_nat (fact (n - k)) = Z.of_nat (fact n).
Proof.
  revert k. induction n as [|n IH]; intros k Hk.
  - replace k with 0%nat by lia. by vm_compute.
  - destruct k as [|k].
    + rewrite math_comb_0_r. replace (S n - 0)%nat with (S n) by lia.
      change (fact 0) with 1%nat. lia.
    + rewrite math_comb_pascal.
      destruct (decide (k = n)) as [->|Hne].
      * rewrite math_comb_diag math_comb_gt; [|lia].
        replace (S n - S n)%nat with 0%nat by lia. change (fact 0) with 1%nat. lia.
      * pose proof (IH k ltac:(lia)) as IH1.
        pose proof (IH (S k) ltac:(lia)) as IH2.
        replace (S n - S k)%nat with (n - k)%nat by lia.
        replace (n - k)%nat with (S (n - S k)) in * by lia.
        set (a := math_comb n k) in *. set (b := math_comb n (S k)) in *.
        set (m := (n - S k)%nat) in *.
        assert (Hn : Z.of_nat n = Z.of_nat k + 1 + Z.of_nat m) by lia.
        clearbody a b m.
        cbn [fact] in *.
        rewrite !Nat2Z.inj_mul in IH1 |- *. rewrite !Nat2Z.inj_mul in IH2.
        rewrite !Nat2Z.inj_succ in IH2 |- *. rewrite !Nat2Z.inj_succ in IH1.
        set (fk := Z.of_nat (fact k)) in *. set (fm := Z.of_nat (fact m)) in *.
        set (fn := Z.of_nat (fact n)) in *.
        clearbody fk fm fn. nia.
Qed.

(** X7.  [comb n k] is the binomial coefficient: multiplied by [k!] and
    [(n - k)!] it gives [n!] when [0 ≤ k ≤ n], and it is [0] for every other
    [k]. *)
Theorem comb_factorial n k :
  comb n k * Z.of_nat (fact (Z.to_nat k)) * Z.of_nat (fact (Z.to_nat (n - k)))
  = if bool_decide (0 ≤ k ≤ n) then Z.of_nat (fact (Z.to_nat n)) else 0.
Proof.
  case_bool_decide as Hk.
  - rewrite comb_in_range //.
    replace (Z.to_nat (n - k)) with (Z.to_nat n - Z.to_nat k)%nat by lia.
    apply math_comb_factorial. lia.
  - rewrite comb_out_of_range; [lia|]. lia.
Qed.

(** X8.  Pascal's rule holds for [comb] at every [k], also outside
    [0 .. n + 1]; [calculate_bomb_fractions] relies on the value [0] that
    [comb] gives there. *)
Theorem comb_pascal_rule n k :
  0 ≤ n → comb (n + 1) k = comb n k + comb n (k - 1).
Proof. apply comb_pascal. Qed.

Lemma comb_pascal_rule_witness : comb (4 + 1) 5 = comb 4 5 + comb 4 (5 - 1).
Proof. apply (comb_pascal_rule 4 5). lia. Defined.

Lemma elem_of_list_if {A} (x : A) (b : bool) (l : list A) :
  x ∈ list_if b l ↔ b = true ∧ x ∈ l.
Proof. destruct b; simpl; [naive_solver|]. rewrite elem_of_nil. naive_solver. Qed.

Lemma elem_of_return_neighbours row column height width r c :
  0 ≤ row < height → 0 ≤ column < width →
  (r, c) ∈ return_neighbours row column height width
  ↔ 0 ≤ r < height ∧ 0 ≤ c < width
    ∧ (r, c) ≠ (row, column)
    ∧ row - 1 ≤ r ≤ row + 1 ∧ column - 1 ≤ c ≤ column + 1.
Proof.
  intros Hrow Hcol. unfold return_neighbours.
  rewrite !elem_of_app !elem_of_list_if !elem_of_app !elem_of_list_if.
  rewrite !elem_of_cons !elem_of_nil !Z.ltb_lt.
  split.
  - intros H.
    repeat match goal with
           | H : _ ∧ _ |- _ => destruct H
           | H : _ ∨ _ |- _ => destruct H
           | H : (_, _) = (_, _) |- _ => injection H as -> ->
           | H : False |- _ => destruct H
           end.
    all: repeat split; first [lia | intros [=]; lia].
  - intros (Hr & Hc & Hne & Hr' & Hc').
    assert (r = row - 1 ∨ r = row ∨ r = row + 1) as [->|[->| ->]] by lia;
      (assert (c = column - 1 ∨ c = column ∨ c = column + 1) as [->|[->| ->]] by lia);
      try done.
    all: try (left; split; [lia|]; first
                [ left; split; [lia|]; by left
                | right; left; by left
                | right; right; split; [lia|]; by left ]).
    all: try (right; left; split; [lia|]; by left).
    all: try (right; right; left; split; [lia|]; by left).
    all: right; right; right; split; [lia|]; first
           [ left; split; [lia|]; by left
           | right; left; by left
           | right; right; split; [lia|]; by left ].
Qed.

(** X9.  For a tile of the board, the neighbours that [return_neighbours]
    lists are the tiles of the board, other than the tile itself, whose row
    and column differ from its own by at most one. *)
Theorem return_neighbours_spec row column height width r c :
  0 ≤ row < height → 0 ≤ column < width →
  (r, c) ∈ return_neighbours row column height width
  ↔ 0 ≤ r < height ∧ 0 ≤ c < width
    ∧ (r, c) ≠ (row, column)
    ∧ row - 1 ≤ r ≤ row + 1 ∧ column - 1 ≤ c ≤ column + 1.
Proof. apply elem_of_return_neighbours. Qed.

Lemma return_neighbours_spec_witness :
  (7, 8) ∈ return_neighbours 8 8 9 9
  ↔ 0 ≤ 7 < 9 ∧ 0 ≤ 8 < 9 ∧ ((7, 8) : tile) ≠ (8, 8)
    ∧ 8 - 1 ≤ 7 ≤ 8 + 1 ∧ 8 - 1 ≤ 8 ≤ 8 + 1.
Proof. apply (return_neighbours_spec 8 8 9 9 7 8); lia. Defined.

Lemma StronglySorted_app_inv_2 {A} (R : relation A) (l1 l2 : list A) :
  StronglySorted R l1 → StronglySorted R l2 →
  (∀ x y, x ∈ l1 → y ∈ l2 → R x y) → StronglySorted R (l1 ++ l2).
Proof.
  intros H1 H2 H12. induction H1 as [|x l1 Hx IH Hall]; [done|].
  simpl. constructor.
  - apply IH. intros a b Ha Hb. apply H12; [by right|done].
  - apply Forall_app. split; [done|].
    apply Forall_forall. intros y Hy. apply H12; [by left|done].
Qed.

(** X10.  [return_neighbours] lists the neighbours in the order of Python
    on pairs, strictly ascending, for every tile and every board size (as
    its docstring says: sorted lexicographically); so no neighbour is
    listed twice. *)
Theorem return_neighbours_sorted row column height width :
  StronglySorted tile_lt (return_neighbours row column height width)
  ∧ NoDup (return_neighbours row column height width).
Proof.
  assert (Hs : StronglySorted tile_lt (return_neighbours row column height width)).
  { unfold return_neighbours.
    destruct (0 <? row), (0 <? column), (column <? width - 1), (row <? height - 1);
      simpl;
      repeat first [ apply SSorted_nil | apply SSorted_cons
                   | apply Forall_nil_2 | apply Forall_cons_2 ];
      unfold tile_lt; simpl; lia. }
  split; [done|].
  induction Hs as [|x l Hl IH Hall]; [constructor|].
  constructor; [|done]. intros Hin.
  rewrite Forall_forall in Hall. specialize (Hall x Hin).
  unfold tile_lt in Hall. lia.
Qed.

(** ** Solutions as counts of layouts *)

(** X11.  [__mul__] combines the counts of two disjoint areas and
    [__iadd__] the counts of two collections of layouts of one area: if
    two Solutions count the layouts [L1] over the tiles [X1] and [L2] over
    the tiles [X2], with [X1] and [X2] disjoint, their product counts the
    layouts [A1 ∪ A2] for [A1] in [L1] and [A2] in [L2]; and the sum of the
    Solutions that count [L1] and [L1'] over the same tiles counts
    [L1 ++ L1']. *)
Theorem Solution_mul_counts_layouts X1 X2 L1 L1' L2 :
  X1 ## X2 → Forall (λ A, A ⊆ X1) L1 → Forall (λ A, A ⊆ X2) L2 →
  Solution_mul (layouts_solution X1 L1) (layouts_solution X2 L2)
  = layouts_solution (X1 ∪ X2) (layouts_product L1 L2)
  ∧ Solution_iadd (layouts_solution X1 L1) (layouts_solution X1 L1')
    = layouts_solution X1 (L1 ++ L1').
Proof.
  intros Hdisj H1 H2. split.
  - by apply layouts_solution_mul.
  - by rewrite layouts_solution_app.
Qed.

Lemma Solution_mul_counts_layouts_witness :
  let X1 : gset tile := {[ (0, 0) ]} in
  let X2 : gset tile := {[ (0, 1); (1, 1) ]} in
  let L1 : list (gset tile) := [∅; {[ (0, 0) ]}] in
  let L2 : list (gset tile) := [{[ (0, 1) ]}; {[ (1, 1) ]}] in
  Solution_mul (layouts_solution X1 L1) (layouts_solution X2 L2)
  = layouts_solution (X1 ∪ X2) (layouts_product L1 L2)
  ∧ Solution_iadd (layouts_solution X1 L1) (layouts_solution X1 [])
    = layouts_solution X1 (L1 ++ []).
Proof.
  apply (Solution_mul_counts_layouts {[ (0, 0) ]} {[ (0, 1); (1, 1) ]}
           [∅; {[ (0, 0) ]}] [] [{[ (0, 1) ]}; {[ (1, 1) ]}]).
  - apply (bool_decide_unpack _). by vm_compute.
  - apply (bool_decide_unpack _). by vm_compute.
  - apply (bool_decide_unpack _). by vm_compute.
Defined.

(** X12.  What a Solution that counts a list of layouts says: the number
    of layouts under the key [k] is the number of layouts of the list with
    [k] bombs, and the count of a tile under [k] is the number of those
    that have a bomb on the tile. *)
Theorem layouts_solution_counts X L k t :
  Forall (λ A, A ⊆ X) L →
  num_layouts_of (layouts_solution X L) k
  = Z.of_nat (length (filter (λ A, Z.of_nat (size A) = k) L))
  ∧ bomb_count_of (layouts_solution X L) k t
    = Z.of_nat (length (filter (λ A, Z.of_nat (size A) = k ∧ t ∈ A) L)).
Proof.
  intros HL. split.
  - apply num_layouts_of_layouts.
  - by apply bomb_count_of_layouts.
Qed.

Lemma layouts_solution_counts_witness :
  let X : gset tile := {[ (0, 0); (0, 1) ]} in
  let L : list (gset tile) := [{[ (0, 0) ]}; {[ (0, 1) ]}; {[ (0, 0); (0, 1) ]}] in
  num_layouts_of (layouts_solution X L) 1
  = Z.of_nat (length (filter (λ A, Z.of_nat (size A) = 1) L))
  ∧ bomb_count_of (layouts_solution X L) 1 (0, 0)
    = Z.of_nat (length (filter (λ A, Z.of_nat (size A) = 1 ∧ (0, 0) ∈ A) L)).
Proof.
  apply (layouts_solution_counts {[ (0, 0); (0, 1) ]}
           [{[ (0, 0) ]}; {[ (0, 1) ]}; {[ (0, 0); (0, 1) ]}] 1 (0, 0)).
  apply (bool_decide_unpack _). by vm_compute.
Defined.

(** ** [calculate_bomb_fractions] *)

(** X13.  On a Solution with at least one entry that does not use the
    key [(-1, -1)] as a tile, [calculate_bomb_fractions] returns the number
    of layouts [Σ_k N_k · C(U, B - k)] and a count for each tile: for an
    unconstrained tile [Σ_k N_k · C(U - 1, B - k - 1)], for another tile of
    the Solution [Σ_k F_k[t] · C(U, B - k)], and no count for any other
    tile. *)
Theorem calculate_bomb_fractions_sums (s : Sweeper) (solution : Solution) :
  let U := Z.of_nat (length (sw_unconstrained_tiles s)) in
  let B := sw_bombs s in
  solution ≠ ∅ →
  (-1, -1) ∉ solution_tiles solution →
  ∃ bomb_instances,
    calculate_bomb_fractions s solution = Ok (bomb_instances, total_layouts U B solution)
    ∧ ∀ t,
        bomb_instances !! t
        = if decide (t ∈ sw_unconstrained_tiles s) then Some (unconstrained_count U B solution)
          else if decide (t ∈ solution_tiles solution ∧ t ≠ (-1, -1))
               then Some (constrained_count U B solution t)
               else None.
Proof. apply calculate_bomb_fractions_spec. Qed.

Lemma calculate_bomb_fractions_sums_witness :
  let s := bomb_at_origin in
  let solution := one_tile_solution (0, 0) in
  let U := Z.of_nat (length (sw_unconstrained_tiles s)) in
  let B := sw_bombs s in
  ∃ bomb_instances,
    calculate_bomb_fractions s solution = Ok (bomb_instances, total_layouts U B solution)
    ∧ ∀ t,
        bomb_instances !! t
        = if decide (t ∈ sw_unconstrained_tiles s) then Some (unconstrained_count U B solution)
          else if decide (t ∈ solution_tiles solution ∧ t ≠ (-1, -1))
               then Some (constrained_count U B solution t)
               else None.
Proof.
  apply (calculate_bomb_fractions_sums bomb_at_origin (one_tile_solution (0, 0))).
  - apply (bool_decide_unpack _). by vm_compute.
  - apply (bool_decide_unpack _). by vm_compute.
Defined.

(** ** The layouts of a store *)

Lemma filter_ext_in {A} (P Q : A → Prop) `{∀ x, Decision (P x)} `{∀ x, Decision (Q x)}
    (l : list A) :
  (∀ x, x ∈ l → P x ↔ Q x) → filter P l = filter Q l.
Proof.
  induction l as [|x l IH]; intros HPQ; [done|].
  rewrite !filter_cons.
  rewrite IH; [|intros y Hy; apply HPQ; by right].
  destruct (decide (P x)) as [HP|HP], (decide (Q x)) as [HQ|HQ]; try done.
  - apply HPQ in HP; [done|by left].
  - apply HPQ in HQ; [done|by left].
Qed.

Lemma filter_fmap_comm {A B} (f : A → B) (P : B → Prop) `{∀ x, Decision (P x)}
    (l : list A) :
  filter P (f <$> l) = f <$> filter (λ x, P (f x)) l.
Proof.
  induction l as [|x l IH]; [done|].
  rewrite fmap_cons !filter_cons IH. by destruct (decide (P (f x))).
Qed.

Lemma subsets_not_elem (l : list tile) (t : tile) (A : gset tile) :
  t ∉ l → A ∈ subsets l → t ∉ A.
Proof.
  intros Ht HA%elem_of_subsets Hin. apply Ht.
  apply HA in Hin. by apply elem_of_list_to_set in Hin.
Qed.

Lemma NoDup_subsets (l : list tile) : NoDup l → NoDup (subsets l).
Proof.
  induction 1 as [|t l Ht Hl IH]; [apply NoDup_singleton|].
  cbn [subsets]. apply NoDup_app. split; [done|]. split.
  - intros A HA (B & -> & HB)%list_elem_of_fmap.
    apply (subsets_not_elem l t _ Ht HA). set_solver.
  - apply NoDup_fmap_2_strong; [|done].
    intros A B HA HB Heq.
    pose proof (subsets_not_elem l t A Ht HA).
    pose proof (subsets_not_elem l t B Ht HB).
    apply set_eq. intros u. destruct (decide (u = t)) as [->|Hne]; [done|].
    assert (u ∈ ({[t]} ∪ A : gset tile) ↔ u ∈ ({[t]} ∪ B : gset tile)) as Hu
      by by rewrite Heq.
    set_solver.
Qed.

Lemma NoDup_layouts cs : NoDup (layouts cs).
Proof. apply NoDup_filter, NoDup_subsets, NoDup_elements. Qed.

Lemma store_tiles_perm cs1 cs2 : cs1 ≡ₚ cs2 → store_tiles cs1 = store_tiles cs2.
Proof.
  intros Hp. apply set_eq. intros t. rewrite !elem_of_store_tiles.
  by setoid_rewrite Hp.
Qed.

(** The layouts depend on the tiles and on the meaning of the store
    only. *)
Lemma layouts_equiv cs1 cs2 :
  store_tiles cs1 = store_tiles cs2 →
  (∀ A, Forall (satisfies A) cs1 ↔ Forall (satisfies A) cs2) →
  layouts cs1 = layouts cs2.
Proof.
  intros Ht Hs. unfold layouts. rewrite Ht. by apply list_filter_iff.
Qed.

Lemma layouts_perm cs1 cs2 : cs1 ≡ₚ cs2 → layouts cs1 = layouts cs2.
Proof.
  intros Hp. apply layouts_equiv; [by apply store_tiles_perm|].
  intros A. by rewrite Hp.
Qed.

Lemma layouts_nil : layouts [] = [∅].
Proof. by vm_compute. Qed.

Lemma elem_of_layouts_product (L1 L2 : list (gset tile)) (A : gset tile) :
  A ∈ layouts_product L1 L2 ↔ ∃ A1 A2, A1 ∈ L1 ∧ A2 ∈ L2 ∧ A = A1 ∪ A2.
Proof.
  unfold layouts_product. rewrite list_elem_of_bind. split.
  - intros (A1 & (A2 & ->%list_elem_of_singleton & H2)%list_elem_of_bind & H1).
    by exists A1, A2.
  - intros (A1 & A2 & H1 & H2 & ->). exists A1. split; [|done].
    apply list_elem_of_bind. exists A2. split; [|done]. by apply list_elem_of_singleton.
Qed.

Lemma NoDup_layouts_product (X1 X2 : gset tile) (L1 L2 : list (gset tile)) :
  X1 ## X2 → Forall (λ A, A ⊆ X1) L1 → Forall (λ A, A ⊆ X2) L2 →
  NoDup L1 → NoDup L2 → NoDup (layouts_product L1 L2).
Proof.
  intros Hdisj H1 H2 Hn1 Hn2. rewrite Forall_forall in H1. rewrite Forall_forall in H2.
  unfold layouts_product. apply NoDup_bind; [| |done].
  - intros A1 A1' B HA1 HA1'
      (A2 & ->%list_elem_of_singleton & HA2)%list_elem_of_bind
      (A2' & Heq%list_elem_of_singleton & HA2')%list_elem_of_bind.
    pose proof (H1 _ HA1). pose proof (H1 _ HA1').
    pose proof (H2 _ HA2). pose proof (H2 _ HA2').
    apply set_eq. intros u.
    assert (u ∈ A1 ∪ A2 ↔ u ∈ A1' ∪ A2') as Hu by by rewrite Heq.
    set_solver.
  - intros A1 HA1. apply NoDup_bind; [| |done].
    + intros A2 A2' B HA2 HA2' ->%list_elem_of_singleton Heq%list_elem_of_singleton.
      pose proof (H1 _ HA1). pose proof (H2 _ HA2). pose proof (H2 _ HA2').
      apply set_eq. intros u.
      assert (u ∈ A1 ∪ A2 ↔ u ∈ A1 ∪ A2') as Hu by by rewrite Heq.
      set_solver.
    + intros A2 _. apply NoDup_singleton.
Qed.

Lemma Forall_layouts_subseteq cs : Forall (λ A, A ⊆ store_tiles cs) (layouts cs).
Proof. apply Forall_forall. by intros A [HA _]%elem_of_layouts. Qed.

Lemma Forall_satisfies_inter A cs X :
  store_tiles cs ⊆ X → Forall (satisfies (A ∩ X)) cs ↔ Forall (satisfies A) cs.
Proof.
  intros HX. rewrite !Forall_forall. split; intros H e He.
  - apply (satisfies_inter A e X); [|by apply H].
    intros t Ht. apply HX, elem_of_store_tiles. by exists e.
  - apply (satisfies_inter A e X); [|by apply H].
    intros t Ht. apply HX, elem_of_store_tiles. by exists e.
Qed.

(** The layouts of two stores over disjoint tiles: the unions of a layout
    of the one and a layout of the other. *)
Lemma layouts_app_disjoint cs1 cs2 :
  store_tiles cs1 ## store_tiles cs2 →
  layouts (cs1 ++ cs2) ≡ₚ layouts_product (layouts cs1) (layouts cs2).
Proof.
  intros Hdisj. apply NoDup_Permutation.
  - apply NoDup_layouts.
  - eapply NoDup_layouts_product; eauto using Forall_layouts_subseteq, NoDup_layouts.
  - intros A. rewrite elem_of_layouts elem_of_layouts_product store_tiles_app Forall_app.
    split.
    + intros (Hsub & Hs1 & Hs2).
      exists (A ∩ store_tiles cs1), (A ∩ store_tiles cs2).
      rewrite !elem_of_layouts. rewrite !Forall_satisfies_inter //.
      split; [split; [set_solver|done]|]. split; [split; [set_solver|done]|].
      set_solver.
    + intros (A1 & A2 & [H1 Hs1]%elem_of_layouts & [H2 Hs2]%elem_of_layouts & ->).
      split; [set_solver|].
      split.
      * apply (Forall_satisfies_inter _ cs1 (store_tiles cs1)); [done|].
        replace ((A1 ∪ A2) ∩ store_tiles cs1) with (A1 ∩ store_tiles cs1) by set_solver.
        by apply Forall_satisfies_inter.
      * apply (Forall_satisfies_inter _ cs2 (store_tiles cs2)); [done|].
        replace ((A1 ∪ A2) ∩ store_tiles cs2) with (A2 ∩ store_tiles cs2) by set_solver.
        by apply Forall_satisfies_inter.
Qed.

(** The Solution of two stores over disjoint tiles is the product of their
    Solutions. *)
Lemma layouts_solution_app_disjoint cs1 cs2 :
  store_tiles cs1 ## store_tiles cs2 →
  layouts_solution (store_tiles (cs1 ++ cs2)) (layouts (cs1 ++ cs2))
  = Solution_mul (layouts_solution (store_tiles cs1) (layouts cs1))
                 (layouts_solution (store_tiles cs2) (layouts cs2)).
Proof.
  intros Hdisj.
  rewrite layouts_solution_mul; [|done|apply Forall_layouts_subseteq..].
  rewrite store_tiles_app. apply layouts_solution_perm. by apply layouts_app_disjoint.
Qed.

(** ** The Solution of one equation *)

Lemma layouts_product_empty_l (L : list (gset tile)) : layouts_product [∅] L = L.
Proof.
  unfold layouts_product. simpl. rewrite app_nil_r.
  induction L as [|A L IH]; [done|].
  rewrite bind_cons IH. simpl. by rewrite (left_id_L ∅ (∪)).
Qed.

Lemma layouts_product_singleton_l (B : gset tile) (L : list (gset tile)) :
  layouts_product [B] L = (λ A, B ∪ A) <$> L.
Proof.
  unfold layouts_product. simpl. rewrite app_nil_r.
  induction L as [|A L IH]; [done|].
  rewrite bind_cons IH. done.
Qed.

Lemma indicator_singleton_empty (t : tile) : indicator {[ t ]} ∅ = {[ t := 0 ]}.
Proof.
  apply map_eq. intros u. rewrite lookup_indicator.
  destruct (decide (u = t)) as [->|Hne].
  - rewrite lookup_singleton_eq. repeat case_decide; set_solver.
  - rewrite lookup_singleton_ne //. repeat case_decide; set_solver.
Qed.

Lemma indicator_singleton_full (t : tile) : indicator {[ t ]} {[ t ]} = {[ t := 1 ]}.
Proof.
  apply map_eq. intros u. rewrite lookup_indicator.
  destruct (decide (u = t)) as [->|Hne].
  - rewrite lookup_singleton_eq. repeat case_decide; set_solver.
  - rewrite lookup_singleton_ne //. repeat case_decide; set_solver.
Qed.

(** The Solution of the layouts with a given value on the tile [t] and
    the layouts [L] on other tiles. *)
Lemma layouts_solution_cons_tile (X : gset tile) (t : tile) (L : list (gset tile)) :
  t ∉ X → Forall (λ A, A ⊆ X) L →
  layouts_solution ({[ t ]} ∪ X) L
  = Solution_mul {[ 0 := ({[ t := 0 ]}, 1) ]} (layouts_solution X L)
  ∧ layouts_solution ({[ t ]} ∪ X) ((λ A, {[ t ]} ∪ A) <$> L)
    = Solution_mul {[ 1 := ({[ t := 1 ]}, 1) ]} (layouts_solution X L).
Proof.
  intros Ht HL. split.
  - rewrite -indicator_singleton_empty.
    change ({[0 := (indicator {[t]} ∅, 1)]} : Solution)
      with (layout_solution {[t]} ∅).
    rewrite -layouts_solution_singleton layouts_solution_mul;
      [by rewrite layouts_product_empty_l|set_solver|by apply Forall_singleton|done].
  - rewrite -indicator_singleton_full.
    assert (Hsz : size ({[ t ]} : gset tile) = 1%nat) by apply size_singleton.
    assert (Heq : ({[1 := (indicator {[t]} {[t]}, 1)]} : Solution)
                  = layout_solution {[t]} {[t]}).
    { unfold layout_solution. by rewrite Hsz. }
    rewrite Heq.
    rewrite -layouts_solution_singleton layouts_solution_mul;
      [by rewrite layouts_product_singleton_l|set_solver|by apply Forall_singleton|done].
Qed.

Lemma Solution_mul_empty_r (a : Solution) : Solution_mul a ∅ = ∅.
Proof.
  rewrite Solution_mul_eq map_to_list_empty. simpl. apply big_sum_empty.
Qed.

Lemma Solution_mul_tile (t : tile) (v k : Z) (G : gmap tile Z) (N : Z) :
  G !! t = None →
  Solution_mul {[ v := ({[ t := v ]}, 1) ]} {[ k := (G, N) ]}
  = {[ v + k := (<[ t := v * N ]> G, N) ]}.
Proof.
  intros Ht. rewrite Solution_mul_singletons. f_equal.
  unfold entry_mul. cbn [fst snd]. f_equal; [|lia].
  apply map_eq. intros u. rewrite lookup_union !lookup_fmap.
  destruct (decide (u = t)) as [->|Hne].
  - rewrite lookup_insert_eq lookup_singleton_eq Ht. done.
  - rewrite lookup_insert_ne // lookup_singleton_ne //.
    destruct (G !! u) as [c|]; simpl; [|done].
    cbv [union option_union union_with option_union_with]. f_equal. lia.
Qed.

(** The subsets with [b] elements of a list of [n] different tiles, as a
    Solution: there are [comb n b] of them, and [comb (n - 1) (b - 1)] of
    them contain a given tile. *)
Lemma layouts_by_size (l : list tile) (b : Z) :
  NoDup l →
  layouts_solution (list_to_set l) (filter (λ A, Z.of_nat (size A) = b) (subsets l))
  = if bool_decide (0 ≤ b ≤ Z.of_nat (length l))
    then {[ b := (gset_to_gmap (comb (Z.of_nat (length l) - 1) (b - 1)) (list_to_set l),
                   comb (Z.of_nat (length l)) b) ]}
    else ∅.
Proof.
  intros Hl. revert b. induction Hl as [|t l Ht Hl IH]; intros b.
  - cbn [subsets length list_to_set]. rewrite filter_cons filter_nil.
    rewrite size_empty. case_bool_decide as Hb.
    + assert (b = 0) as -> by (simpl in Hb; lia).
      case_decide; [|done]. rewrite layouts_solution_singleton.
      unfold layout_solution. rewrite size_empty indicator_empty gset_to_gmap_empty.
      done.
    + case_decide; [simpl in Hb; lia|]. apply layouts_solution_nil.
  - cbn [subsets length list_to_set]. rewrite filter_app layouts_solution_app.
    set (X := list_to_set l : gset tile) in *.
    set (n := Z.of_nat (length l)) in *.
    assert (HtX : t ∉ X) by (unfold X; by rewrite elem_of_list_to_set).
    assert (Hsub : ∀ c, Forall (λ A, A ⊆ X)
                          (filter (λ A, Z.of_nat (size A) = c) (subsets l))).
    { intros c. apply Forall_forall. intros A [_ HA%elem_of_subsets]%list_elem_of_filter.
      done. }
    destruct (layouts_solution_cons_tile X t _ HtX (Hsub b)) as [-> _].
    rewrite filter_fmap_comm.
    rewrite (filter_ext_in (λ A, Z.of_nat (size ({[t]} ∪ A)) = b)
                           (λ A, Z.of_nat (size A) = b - 1)); last first.
    { intros A HA. pose proof (subsets_not_elem l t A Ht HA) as HtA.
      rewrite size_union; [|set_solver]. rewrite size_singleton. lia. }
    destruct (layouts_solution_cons_tile X t _ HtX (Hsub (b - 1))) as [_ ->].
    rewrite !IH. fold n.
    assert (Hn : 0 ≤ n) by (unfold n; lia).
    replace (Z.of_nat (S (length l))) with (n + 1) by (unfold n; lia).
    replace (n + 1 - 1) with n by lia.
    assert (HG : ∀ c : Z, gset_to_gmap c X !! t = None).
    { intros c. by apply lookup_gset_to_gmap_None. }
    repeat case_bool_decide; try lia.
    + (* 1 ≤ b ≤ n *)
      rewrite !Solution_mul_tile //.
      replace (0 + b) with b by lia. replace (1 + (b - 1)) with b by lia.
      rewrite Solution_iadd_singleton. f_equal.
      unfold entry_add. cbn [fst snd]. f_equal.
      * apply map_eq. intros u.
        rewrite lookup_union_with gset_to_gmap_union_singleton.
        destruct (decide (u = t)) as [->|Hne].
        -- rewrite !lookup_insert_eq. simpl. f_equal. lia.
        -- rewrite !lookup_insert_ne //. rewrite !lookup_gset_to_gmap_dec.
           case_decide as Hu; simpl; [|done]. f_equal.
           assert (1 ≤ n).
           { destruct l; [set_solver|]. unfold n. simpl. lia. }
           replace (b - 1 - 1) with ((b - 1) - 1) by lia.
           rewrite -(comb_pascal (n - 1) (b - 1)); [|lia]. f_equal. lia.
      * rewrite (comb_pascal n b) //.
    + (* b = 0 *)
      assert (b = 0) as -> by lia.
      rewrite Solution_mul_tile // Solution_mul_empty_r Solution_iadd_empty_r.
      replace (0 + 0) with 0 by lia. f_equal.
      rewrite gset_to_gmap_union_singleton.
      rewrite !(comb_out_of_range _ (0 - 1)); [|lia..].
      rewrite !comb_0_r; [|lia..]. done.
    + (* b = n + 1 *)
      assert (b = n + 1) as -> by lia.
      rewrite Solution_mul_tile // Solution_mul_empty_r Solution_iadd_empty_l.
      replace (n + 1 - 1) with n by lia. replace (1 + n) with (n + 1) by lia. f_equal.
      rewrite gset_to_gmap_union_singleton.
      rewrite !(comb_diag n) // (comb_diag (n + 1)); [|lia].
      destruct l as [|t' l'].
      * unfold X. simpl. rewrite !gset_to_gmap_empty. done.
      * rewrite (comb_diag (n - 1)); [|unfold n; simpl; lia]. done.
    + rewrite !Solution_mul_empty_r. apply Solution_iadd_empty_l.
Qed.

Lemma filter_elem_of_perm {A} (f : A → Z) (B : list Z) (L : list A) :
  NoDup B →
  filter (λ x, f x ∈ B) L ≡ₚ B ≫= (λ b, filter (λ x, f x = b) L).
Proof.
  induction 1 as [|b B Hb HB IH].
  - simpl. induction L as [|x L IHL]; [done|].
    rewrite filter_cons. case_decide as Hx; [by apply elem_of_nil in Hx|done].
  - rewrite bind_cons -IH. clear IH.
    induction L as [|x L IHL]; [done|].
    rewrite !filter_cons.
    destruct (decide (f x = b)) as [Hxb|Hxb], (decide (f x ∈ B)) as [HxB|HxB],
      (decide (f x ∈ b :: B)) as [HxbB|HxbB]; simpl.
    all: try (exfalso; apply Hb; by rewrite -Hxb).
    all: try (exfalso; apply HxbB; apply elem_of_cons; by auto).
    all: try (exfalso; apply elem_of_cons in HxbB as [?|?]; by auto).
    + by rewrite IHL.
    + rewrite IHL. by rewrite Permutation_middle.
    + done.
Qed.

Lemma StronglySorted_lt_NoDup (l : list Z) : StronglySorted Z.lt l → NoDup l.
Proof.
  induction 1 as [|x l Hl IH Hall]; [constructor|].
  constructor; [|done]. intros Hin. rewrite Forall_forall in Hall.
  specialize (Hall x Hin). lia.
Qed.

(** The layouts of one equation are the subsets of its tiles whose size is
    one of its bomb numbers. *)
Lemma layouts_single e :
  layouts [e]
  = filter (λ A, Z.of_nat (size A) ∈ bombs e) (subsets (elements (tiles e))).
Proof.
  unfold layouts. rewrite store_tiles_cons store_tiles_nil (right_id_L ∅ (∪)).
  apply filter_ext_in. intros A HA%elem_of_subsets.
  rewrite list_to_set_elements_L in HA.
  rewrite Forall_singleton. unfold satisfies.
  replace (A ∩ tiles e) with A by set_solver. done.
Qed.

(** For one equation that keeps the representation invariant,
    [solve_area] counts the layouts of the equation. *)
Lemma solve_single_exact e :
  wf_eq e → solve_single e = layouts_solution (tiles e) (layouts [e]).
Proof.
  intros [Hsorted Hrange]. unfold solve_single.
  rewrite (foldl_iadd_big_sum
             (λ b, {[ b := (gset_to_gmap (comb (Z.of_nat (size (tiles e)) - 1) (b - 1))
                                         (tiles e),
                            comb (Z.of_nat (size (tiles e))) b) ]})).
  rewrite Solution_iadd_empty_l layouts_single.
  rewrite (layouts_solution_perm _ _ _
             (filter_elem_of_perm (λ A, Z.of_nat (size A)) (bombs e) _
                (StronglySorted_lt_NoDup _ Hsorted))).
  unfold layouts_solution at 1. rewrite big_sum_bind.
  apply big_sum_ext. intros b Hb.
  pose proof (layouts_by_size (elements (tiles e)) b (NoDup_elements _)) as Hsz.
  rewrite list_to_set_elements_L in Hsz.
  unfold layouts_solution in Hsz. rewrite Hsz.
  change (length (elements (tiles e))) with (size (tiles e)).
  rewrite bool_decide_eq_true_2; [done|].
  rewrite Forall_forall in Hrange. by apply Hrange.
Qed.

(** ** [find_tile_to_recurse_on] *)

Lemma find_tile_inner (ts : list tile) (ttr : tile) (counts : gmap tile Z) :
  NoDup ts →
  (∀ u, default 0 (counts !! u) ≤ default 0 (counts !! ttr)) →
  ∃ ttr' counts',
    foldl count_tile (ttr, counts) ts = (ttr', counts')
    ∧ (∀ u, default 0 (counts' !! u)
            = default 0 (counts !! u) + (if decide (u ∈ ts) then 1 else 0))
    ∧ (∀ u, default 0 (counts' !! u) ≤ default 0 (counts' !! ttr')).
Proof.
  intros Hnd. revert ttr counts.
  induction Hnd as [|t ts Ht Hnd IH]; intros ttr counts Hmax.
  - exists ttr, counts. split; [done|]. split; [|done].
    intros u. case_decide as Hu; [by apply elem_of_nil in Hu|lia].
  - cbn [foldl]. unfold count_tile at 2. cbv zeta.
    set (tc := default 0 (counts !! t) + 1).
    set (counts1 := <[t := tc]> counts).
    assert (Hc1 : ∀ u, default 0 (counts1 !! u)
                       = default 0 (counts !! u) + (if decide (u = t) then 1 else 0)).
    { intros u. unfold counts1. destruct (decide (u = t)) as [->|Hne].
      - rewrite lookup_insert_eq. simpl. unfold tc. lia.
      - rewrite lookup_insert_ne //. lia. }
    assert (Hcounts : ∀ ttr1, (∀ u, default 0 (counts1 !! u) ≤ default 0 (counts1 !! ttr1)) →
              ∃ ttr' counts',
                foldl count_tile (ttr1, counts1) ts = (ttr', counts')
                ∧ (∀ u, default 0 (counts' !! u)
                        = default 0 (counts !! u)
                          + (if decide (u ∈ t :: ts) then 1 else 0))
                ∧ (∀ u, default 0 (counts' !! u) ≤ default 0 (counts' !! ttr'))).
    { intros ttr1 Hmax1.
      destruct (IH ttr1 counts1 Hmax1) as (ttr' & counts' & Heq & Hcnt & Hmax').
      exists ttr', counts'. split; [done|]. split; [|done].
      intros u. rewrite Hcnt Hc1.
      repeat case_decide; subst; try lia; exfalso; set_solver. }
    assert (Htc : default 0 (counts1 !! t) = tc).
    { unfold counts1. by rewrite lookup_insert_eq. }
    case_bool_decide as Hlt.
    + apply Hcounts. intros u. rewrite Htc.
      destruct (decide (u = t)) as [->|Hne]; [lia|].
      rewrite Hc1. specialize (Hmax u). specialize (Hc1 ttr).
      repeat case_decide; subst; try done; lia.
    + apply Hcounts. intros u.
      destruct (decide (u = t)) as [->|Hne]; [lia|].
      rewrite Hc1 (Hc1 ttr). specialize (Hmax u).
      repeat case_decide; subst; try done; lia.
Qed.

Lemma find_tile_outer (cs : list BombEquation) (ttr : tile) (counts : gmap tile Z) :
  (∀ u, default 0 (counts !! u) ≤ default 0 (counts !! ttr)) →
  ∃ ttr' counts',
    foldl (λ st constraint, foldl count_tile st (elements (tiles constraint)))
          (ttr, counts) cs = (ttr', counts')
    ∧ (∀ u, default 0 (counts' !! u) = default 0 (counts !! u) + occurrences u cs)
    ∧ (∀ u, default 0 (counts' !! u) ≤ default 0 (counts' !! ttr')).
Proof.
  revert ttr counts. induction cs as [|c cs IH]; intros ttr counts Hmax.
  - exists ttr, counts. split; [done|]. split; [|done].
    intros u. unfold occurrences. simpl. lia.
  - cbn [foldl].
    destruct (find_tile_inner (elements (tiles c)) ttr counts (NoDup_elements _) Hmax)
      as (ttr1 & counts1 & -> & Hcnt1 & Hmax1).
    destruct (IH ttr1 counts1 Hmax1) as (ttr' & counts' & Heq & Hcnt & Hmax').
    exists ttr', counts'. split; [done|]. split; [|done].
    intros u. rewrite Hcnt Hcnt1. unfold occurrences. rewrite filter_cons.
    repeat case_decide; simpl; try lia; exfalso; set_solver.
Qed.

Lemma find_tile_to_recurse_on_eq cs :
  find_tile_to_recurse_on cs
  = (foldl (λ st constraint, foldl count_tile st (elements (tiles constraint)))
           ((-1, -1), {[ (-1, -1) := 0 ]}) cs).1.
Proof. reflexivity. Qed.

Lemma find_tile_most_common cs u :
  occurrences u cs ≤ occurrences (find_tile_to_recurse_on cs) cs.
Proof.
  rewrite find_tile_to_recurse_on_eq.
  destruct (find_tile_outer cs (-1, -1) {[ (-1, -1) := 0 ]})
    as (ttr' & counts' & -> & Hcnt & Hmax).
  { intros v. destruct (decide (v = (-1, -1))) as [->|Hne]; [done|].
    by rewrite lookup_singleton_ne // lookup_singleton_eq. }
  simpl. specialize (Hmax u). rewrite !Hcnt in Hmax.
  destruct (decide (u = (-1, -1))) as [->|Hne].
  - rewrite lookup_singleton_eq in Hmax.
    destruct (decide (ttr' = (-1, -1))) as [->|Hne']; [done|].
    rewrite lookup_singleton_ne // in Hmax.
  - rewrite lookup_singleton_ne // in Hmax.
    destruct (decide (ttr' = (-1, -1))) as [->|Hne'].
    + by rewrite lookup_singleton_eq in Hmax.
    + by rewrite lookup_singleton_ne // in Hmax.
Qed.

Lemma occurrences_pos t cs : 0 < occurrences t cs ↔ t ∈ store_tiles cs.
Proof.
  unfold occurrences. rewrite elem_of_store_tiles. split.
  - intros Hpos.
    destruct (filter (λ e, t ∈ tiles e) cs) as [|e l] eqn:Hf; [simpl in Hpos; lia|].
    assert (He : e ∈ filter (λ e, t ∈ tiles e) cs) by (rewrite Hf; by left).
    apply list_elem_of_filter in He as [? ?]. by exists e.
  - intros (e & He & Ht).
    assert (Hin : e ∈ filter (λ e, t ∈ tiles e) cs) by by apply list_elem_of_filter.
    destruct (filter (λ e, t ∈ tiles e) cs); [by apply elem_of_nil in Hin|simpl; lia].
Qed.

Lemma find_tile_in_store cs :
  store_tiles cs ≠ ∅ → find_tile_to_recurse_on cs ∈ store_tiles cs.
Proof.
  intros Hne. apply set_choose_L in Hne as [u Hu].
  apply occurrences_pos. apply occurrences_pos in Hu.
  pose proof (find_tile_most_common cs u). lia.
Qed.

(** ** [group_constraints] *)

Lemma pairwise_app {A} (R : A → A → Prop) (l1 l2 : list A) :
  pairwise R (l1 ++ l2)
  ↔ pairwise R l1 ∧ pairwise R l2 ∧ ∀ x y, x ∈ l1 → y ∈ l2 → R x y.
Proof.
  induction l1 as [|a l1 IH]; simpl.
  - split; [intros H; split; [done|split; [done|]]|by intros (_ & H & _)].
    intros x y Hx. by apply elem_of_nil in Hx.
  - rewrite IH Forall_app !Forall_forall. split.
    + intros ((Ha1 & Ha2) & H1 & H2 & H12). split; [done|]. split; [done|].
      intros x y [->|Hx]%elem_of_cons Hy; [by apply Ha2|by apply H12].
    + intros ((Ha1 & H1) & H2 & H12). split; [split; [done|]|].
      * intros y Hy. apply H12; [by left|done].
      * split; [done|]. split; [done|]. intros x y Hx Hy. apply H12; [by right|done].
Qed.

Lemma pairwise_perm {A} (R : A → A → Prop) (l1 l2 : list A) :
  (∀ x y, R x y → R y x) → l1 ≡ₚ l2 → pairwise R l1 → pairwise R l2.
Proof.
  intros Hsym Hp. induction Hp as [|x l l' Hp IH|x y l|l l' l'' Hp1 IH1 Hp2 IH2]; simpl.
  - done.
  - intros [Hx Hl]. split; [by rewrite -Hp|by apply IH].
  - intros [[Hyx Hy]%Forall_cons [Hx Hl]]. split; [|done].
    apply Forall_cons. split; [by apply Hsym|done].
  - intros H. by apply IH2, IH1.
Qed.

Lemma concat_perm {A} (l1 l2 : list (list A)) : l1 ≡ₚ l2 → concat l1 ≡ₚ concat l2.
Proof.
  induction 1 as [|x l l' Hp IH|x y l|l l' l'' Hp1 IH1 Hp2 IH2]; simpl.
  - done.
  - by rewrite IH.
  - rewrite !app_assoc. f_equiv. apply Permutation_app_comm.
  - by etrans.
Qed.

Lemma shares_tile_false (e : BombEquation) (a : area) :
  shares_tile e a = false ↔ tiles e ## a.2.
Proof.
  unfold shares_tile. rewrite -not_true_iff_false existsb_exists. split.
  - intros Hno t Ht Ha. apply Hno. exists t. split.
    + apply list_elem_of_In. by apply elem_of_elements.
    + by apply bool_decide_eq_true.
  - intros Hdisj (t & Ht%list_elem_of_In%elem_of_elements & Ha%bool_decide_eq_true).
    by apply (Hdisj t).
Qed.

Lemma first_common_spec (e : BombEquation) (areas : list area) :
  (first_common e areas = None
   ∧ filter (λ a, shares_tile e a = true) areas = []
   ∧ Forall (λ a, shares_tile e a = false) areas)
  ∨ ∃ pre first post,
      areas = pre ++ first :: post
      ∧ first_common e areas = Some (length pre)
      ∧ Forall (λ a, shares_tile e a = false) pre
      ∧ shares_tile e first = true
      ∧ filter (λ a, shares_tile e a = true) areas
        = first :: filter (λ a, shares_tile e a = true) post.
Proof.
  induction areas as [|a areas IH]; [by left|].
  cbn [first_common]. rewrite filter_cons.
  destruct (shares_tile e a) eqn:Ha.
  - right. exists [], a, areas. split; [done|]. split; [done|]. split; [done|].
    split; [done|]. by case_decide.
  - case_decide; [done|].
    destruct IH as [(-> & Hf & Hno)|(pre & first & post & -> & -> & Hpre & Hfirst & Hf)].
    + left. split; [done|]. split; [done|]. by constructor.
    + right. exists (a :: pre), first, post. split; [done|]. split; [done|].
      split; [by constructor|]. split; [done|]. done.
Qed.

Lemma list_remove_each_perm `{EqDecision A} (xs l R : list A) :
  l ≡ₚ xs ++ R → ∃ l', list_remove_each xs l = Ok l' ∧ l' ≡ₚ R.
Proof.
  revert l. induction xs as [|x xs IH]; intros l Hp.
  - exists l. done.
  - assert (Hin : x ∈ l) by (rewrite Hp; by left).
    destruct (list_remove_first_Ok x l Hin) as [l1 Hl1].
    pose proof (list_remove_first_perm x l l1 Hl1) as Hp1.
    destruct (IH l1) as (l' & Hl' & Hp').
    { apply (Permutation_cons_inv (a := x)). by rewrite -Hp1 Hp. }
    exists l'. split; [|done].
    unfold list_remove_each in *. cbn [foldlM]. rewrite Hl1. done.
Qed.

Lemma foldl_area_constraints (x : list BombEquation) (l : list area) :
  foldl (λ acc (a : area), acc ++ a.1) x l = x ++ concat l.*1.
Proof.
  revert x. induction l as [|a l IH]; intros x; simpl; [by rewrite app_nil_r|].
  by rewrite IH app_assoc.
Qed.

Lemma foldl_area_tiles (X : gset tile) (l : list area) :
  foldl (λ acc (a : area), acc ∪ a.2) X l = X ∪ ⋃ l.*2.
Proof.
  revert X. induction l as [|a l IH]; intros X; simpl.
  - by rewrite (right_id_L ∅ (∪)).
  - by rewrite IH (assoc_L (∪)).
Qed.

Lemma store_tiles_concat_areas (l : list area) :
  Forall (λ a : area, a.1 ≠ [] ∧ a.2 = store_tiles a.1) l →
  store_tiles (concat l.*1) = ⋃ l.*2.
Proof.
  induction 1 as [|a l [_ Ha] Hl IH]; [done|].
  simpl. by rewrite store_tiles_app IH Ha.
Qed.

Lemma group_step_spec (areas : list area) (e : BombEquation) :
  areas_ok areas →
  ∃ areas', group_step areas e = Ok areas'
            ∧ areas_ok areas'
            ∧ concat areas'.*1 ≡ₚ concat areas.*1 ++ [e].
Proof.
  intros [Hall Hpw]. unfold group_step.
  destruct (first_common_spec e areas)
    as [(-> & -> & Hno)|(pre & first & post & Hareas & -> & Hpre & Hfirst & ->)].
  - (* a new area *)
    exists (areas ++ [([e], tiles e)]). split; [done|]. split.
    + split.
      * apply Forall_app. split; [done|]. apply Forall_singleton. split; [done|].
        simpl. by rewrite store_tiles_cons store_tiles_nil (right_id_L ∅ (∪)).
      * apply pairwise_app. split; [done|]. split; [by simpl|].
        intros a b Ha ->%list_elem_of_singleton. simpl.
        symmetry. apply shares_tile_false.
        rewrite Forall_forall in Hno. by apply Hno.
    + rewrite fmap_app concat_app. simpl. done.
  - (* the areas in common are merged into the first of them *)
    set (others := filter (λ a, shares_tile e a = true) post).
    set (rest := pre ++ filter (λ a, ¬ shares_tile e a = true) post).
    set (merged := (foldl (λ acc (a : area), acc ++ a.1) first.1 others ++ [e],
                    foldl (λ acc (a : area), acc ∪ a.2) first.2 others ∪ tiles e) : area).
    assert (Hpost : post ≡ₚ others ++ filter (λ a, ¬ shares_tile e a = true) post).
    { symmetry. apply filter_app_complement. }
    assert (Hperm : areas ≡ₚ first :: others ++ rest).
    { rewrite Hareas. rewrite -Permutation_middle. f_equiv. unfold rest.
      rewrite {1}Hpost. rewrite !app_assoc. f_equiv. apply Permutation_app_comm. }
    assert (Hupd : <[length pre := merged]> areas = pre ++ merged :: post).
    { rewrite Hareas. replace (length pre) with (length pre + 0)%nat at 1 by lia.
      by rewrite insert_app_r. }
    rewrite Hupd.
    destruct (list_remove_each_perm (reverse others) (pre ++ merged :: post)
                (merged :: rest)) as (areas' & -> & Hperm').
    { rewrite reverse_Permutation -!Permutation_middle. f_equiv. unfold rest.
      rewrite {1}Hpost. rewrite !app_assoc. f_equiv. apply Permutation_app_comm. }
    exists areas'. split; [done|].
    assert (Hall' : Forall (λ a : area, a.1 ≠ [] ∧ a.2 = store_tiles a.1)
                           (first :: others ++ rest)) by by rewrite -Hperm.
    apply Forall_cons in Hall' as [[_ Hfirst2] [Hothers Hrest]%Forall_app].
    assert (Hpw' : pairwise (λ a b : area, a.2 ## b.2) (first :: others ++ rest)).
    { by apply (pairwise_perm _ areas). }
    destruct Hpw' as [Hfirst_disj (_ & Hrest_pw & Hothers_rest)%pairwise_app].
    apply Forall_app in Hfirst_disj as [_ Hfirst_rest].
    assert (Hmerged1 : merged.1 = first.1 ++ concat others.*1 ++ [e]).
    { unfold merged. simpl. by rewrite foldl_area_constraints -app_assoc. }
    assert (Hmerged2 : merged.2 = first.2 ∪ ⋃ others.*2 ∪ tiles e).
    { unfold merged. simpl. by rewrite foldl_area_tiles. }
    split; [split|].
    + rewrite Hperm'. apply Forall_cons. split; [|done]. split.
      * rewrite Hmerged1. intros Hnil. apply app_eq_nil in Hnil as [_ Hnil].
        by apply app_eq_nil in Hnil as [_ Hnil].
      * rewrite Hmerged1 Hmerged2 !store_tiles_app store_tiles_cons store_tiles_nil.
        rewrite (store_tiles_concat_areas others) // Hfirst2.
        by rewrite (right_id_L ∅ (∪)) (assoc_L (∪)).
    + apply (pairwise_perm _ (merged :: rest)); [by intros x y Hxy|done|].
      split; [|done]. apply Forall_forall. intros b Hb.
      rewrite Hmerged2. intros t [[Ht|Ht]%elem_of_union|Ht]%elem_of_union Htb.
      * rewrite Forall_forall in Hfirst_rest. by apply (Hfirst_rest b Hb t).
      * apply elem_of_union_list in Ht as (X & (o & -> & Ho)%list_elem_of_fmap & Ht).
        by apply (Hothers_rest o b Ho Hb t).
      * assert (Hsh : shares_tile e b = false).
        { unfold rest in Hb. apply elem_of_app in Hb as [Hb|Hb].
          - rewrite Forall_forall in Hpre. by apply Hpre.
          - apply list_elem_of_filter in Hb as [Hb _]. by apply not_true_is_false. }
        apply shares_tile_false in Hsh. by apply (Hsh t).
    + clearbody rest others merged.
      rewrite Hperm' Hperm. rewrite !fmap_cons !fmap_app.
      rewrite !concat_cons !concat_app Hmerged1. rewrite -!app_assoc.
      do 2 f_equiv. apply Permutation_app_comm.
Qed.

Lemma areas_ok_nil : areas_ok [].
Proof. split; [constructor|done]. Qed.

Lemma group_areas_spec (cs : list BombEquation) (areas : list area) :
  areas_ok areas →
  ∃ areas', foldlM group_step areas cs = Ok areas'
            ∧ areas_ok areas'
            ∧ concat areas'.*1 ≡ₚ concat areas.*1 ++ cs.
Proof.
  revert areas. induction cs as [|e cs IH]; intros areas Hok.
  - exists areas. split; [done|]. split; [done|]. by rewrite app_nil_r.
  - destruct (group_step_spec areas e Hok) as (areas1 & Hstep & Hok1 & Hp1).
    destruct (IH areas1 Hok1) as (areas' & Hfold & Hok' & Hp').
    exists areas'. split; [|split; [done|]].
    + cbn [foldlM]. rewrite Hstep. done.
    + rewrite Hp' Hp1. by rewrite -app_assoc.
Qed.

(** [group_constraints] returns: it splits the equations into groups,
    none of them empty, and no tile is mentioned by two groups. *)
Lemma group_constraints_spec (cs : list BombEquation) :
  ∃ groups, group_constraints cs = Ok groups
            ∧ concat groups ≡ₚ cs
            ∧ Forall (λ g, g ≠ []) groups
            ∧ pairwise (λ g1 g2, store_tiles g1 ## store_tiles g2) groups.
Proof.
  destruct (group_areas_spec cs [] areas_ok_nil) as (areas & Hfold & [Hall Hpw] & Hp).
  exists areas.*1. unfold group_constraints. rewrite Hfold. split; [done|].
  split; [done|]. split.
  - apply Forall_fmap. eapply Forall_impl; [done|]. by intros a [? _].
  - clear Hfold Hp. induction Hall as [|a areas [_ Ha] Hall IH]; [done|].
    destruct Hpw as [Ha_disj Hpw]. simpl. split; [|by apply IH].
    apply Forall_fmap. rewrite Forall_forall in Hall.
    rewrite Forall_forall in Ha_disj. apply Forall_forall. intros b Hb. simpl.
    destruct (Hall b Hb) as [_ Hb2]. rewrite -Ha -Hb2. by apply Ha_disj.
Qed.

(** ** [solve_area] counts the layouts of a store *)

Lemma solve_area_unfold fuel cs :
  solve_area (S fuel) cs
  = match cs with
    | [] => Ok {[ 0 := (∅, 1) ]}
    | [only_constraint] => Ok (solve_single only_constraint)
    | _ =>
        grouped_constraints ← group_constraints cs;
        foldlM (solve_group (solve_area fuel) (S fuel)) {[ 0 := (∅, 1) ]} grouped_constraints
    end.
Proof. reflexivity. Qed.

Lemma exact_solution_nil : exact_solution [] = {[ 0 := (∅, 1) ]}.
Proof.
  unfold exact_solution. rewrite layouts_nil store_tiles_nil layouts_solution_singleton.
  unfold layout_solution. by rewrite size_empty indicator_empty.
Qed.

Lemma exact_solution_perm cs1 cs2 : cs1 ≡ₚ cs2 → exact_solution cs1 = exact_solution cs2.
Proof.
  intros Hp. unfold exact_solution. by rewrite (store_tiles_perm _ _ Hp) (layouts_perm _ _ Hp).
Qed.

Lemma exact_solution_app cs1 cs2 :
  store_tiles cs1 ## store_tiles cs2 →
  exact_solution (cs1 ++ cs2) = Solution_mul (exact_solution cs1) (exact_solution cs2).
Proof. apply layouts_solution_app_disjoint. Qed.

Lemma exact_solution_fact t b :
  0 ≤ b ≤ 1 →
  exact_solution [BombEquation_init [t] [b]] = {[ b := ({[ t := b ]}, 1) ]}.
Proof.
  intros Hb. unfold exact_solution.
  rewrite store_tiles_cons store_tiles_nil (right_id_L ∅ (∪)).
  rewrite -solve_single_exact; [|apply wf_eq_single, StronglySorted_singleton].
  destruct (trivial_init t b Hb) as [Ht Hbs].
  unfold solve_single. rewrite Ht Hbs size_singleton. cbn [foldl].
  rewrite Solution_iadd_empty_l gset_to_gmap_singleton.
  assert (b = 0 ∨ b = 1) as [-> | ->] by lia; by vm_compute.
Qed.

Lemma filter_none {A} (P : A → Prop) `{∀ x, Decision (P x)} (l : list A) :
  (∀ x, x ∈ l → ¬ P x) → filter P l = [].
Proof.
  induction l as [|x l IH]; intros Hno; [done|].
  rewrite filter_cons. case_decide as HP.
  - exfalso. apply (Hno x); [by left|done].
  - apply IH. intros y Hy. apply Hno. by right.
Qed.

(** One branch of the case split on the tile [t]. *)
Lemma solve_branch_exact g t b acc :
  store_ok g → t ∈ store_tiles g → 0 ≤ b ≤ 1 →
  (∀ cs, store_ok cs → (size (store_tiles cs) < size (store_tiles g))%nat →
         ∃ f0, ∀ fuel, (f0 ≤ fuel)%nat → solve_area fuel cs = Ok (exact_solution cs)) →
  ∃ f0, ∀ fuel, (f0 ≤ fuel)%nat →
    solve_branch (solve_area fuel) (S fuel) g t acc b
    = Ok (Solution_iadd acc
            (layouts_solution (store_tiles g)
               (filter (λ A, satisfies A (BombEquation_init [t] [b])) (layouts g)))).
Proof.
  intros Hg Ht Hb IH.
  set (eq_b := BombEquation_init [t] [b]).
  assert (Hwf : Forall wf_eq [eq_b]).
  { apply Forall_singleton, wf_eq_single, StronglySorted_singleton. }
  destruct (trivial_init t b Hb) as [Htiles Hbombs]. fold eq_b in Htiles, Hbombs.
  destruct (integrate_terminates g [eq_b] Hg Hwf) as [[ok cs'] Hint].
  pose proof (Hint _ (Nat.lt_succ_diag_r _)) as Hint1.
  pose proof (integrate_sem _ _ _ _ _ Hg Hwf Hint1) as Hsem.
  pose proof (integrate_store_ok _ _ _ _ _ Hg Hwf Hint1) as Hok'.
  destruct ok.
  - destruct Hsem as [Hsat Htiles'].
    assert (Htg : store_tiles cs' = store_tiles g).
    { rewrite Htiles' store_tiles_cons store_tiles_nil Htiles. set_solver. }
    pose proof (integrate_trivial_kept _ _ _ _ _ Hg Hb Hint1) as Hin. fold eq_b in Hin.
    destruct (list_remove_first_Ok _ _ Hin) as [cs'' Hrm].
    pose proof (list_remove_first_perm _ _ _ Hrm) as Hperm.
    assert (Hok'' : store_ok cs'').
    { apply (store_ok_submseteq _ cs'); [|done]. rewrite Hperm. by apply submseteq_cons. }
    assert (Hdisj : store_tiles [eq_b] ## store_tiles cs'').
    { rewrite store_tiles_cons store_tiles_nil (right_id_L ∅ (∪)).
      destruct Hok' as (Hnd & _ & _ & Hiso).
      assert (Hnd' : NoDup (eq_b :: cs'')) by by rewrite -Hperm.
      apply NoDup_cons in Hnd' as [Hnotin _].
      intros u Hu (e' & He' & Hu')%elem_of_store_tiles.
      apply (Hiso eq_b e' Hin) with u; [rewrite Hperm; by right| |by intros ->|done..].
      by apply trivial_init_checks. }
    assert (Hsize : (size (store_tiles cs'') < size (store_tiles g))%nat).
    { rewrite -Htg (store_tiles_perm _ _ Hperm) store_tiles_cons.
      rewrite store_tiles_cons store_tiles_nil (right_id_L ∅ (∪)) in Hdisj.
      rewrite size_union // Htiles size_singleton. lia. }
    destruct (IH cs'' Hok'' Hsize) as [f0 Hrec].
    exists (Nat.max f0 (integrate_measure g [eq_b])). intros fuel Hfuel.
    unfold solve_branch. fold eq_b.
    rewrite Hint; [|lia]. cbn [result_bind mbind]. simpl.
    rewrite Hrm. simpl. rewrite Hrec; [|lia]. simpl. f_equal. f_equal.
    rewrite -(exact_solution_fact t b Hb). fold eq_b.
    rewrite -exact_solution_app //.
    change (eq_b :: cs'') with ([eq_b] ++ cs'') in Hperm.
    rewrite -(exact_solution_perm _ _ Hperm).
    unfold exact_solution. rewrite Htg. f_equal.
    unfold layouts. rewrite Htg list_filter_filter.
    apply list_filter_iff. intros A. rewrite Hsat Forall_singleton. tauto.
  - exists (integrate_measure g [eq_b]). intros fuel Hfuel.
    unfold solve_branch. fold eq_b.
    rewrite Hint; [|lia]. simpl. f_equal.
    rewrite filter_none; [by rewrite layouts_solution_nil Solution_iadd_empty_r|].
    intros A [_ HA]%elem_of_layouts Hsat. apply (Hsem A). split; [done|].
    by apply Forall_singleton.
Qed.

Lemma store_tiles_nonempty g : store_ok g → g ≠ [] → store_tiles g ≠ ∅.
Proof.
  intros (_ & Hwf & Hred & _) Hne. destruct g as [|e g]; [done|].
  apply Forall_cons in Hwf as [Hwf _]. apply Forall_cons in Hred as [Hred _].
  pose proof (reduced_nonempty e Hwf Hred) as Hsz.
  rewrite store_tiles_cons. intros Hempty.
  assert (tiles e = ∅) as He by set_solver.
  rewrite He size_empty in Hsz. lia.
Qed.

(** The layouts of a store, split by the value of the tile [t]. *)
Lemma layouts_split_tile g t :
  layouts g
  ≡ₚ filter (λ A, satisfies A (BombEquation_init [t] [0])) (layouts g)
     ++ filter (λ A, satisfies A (BombEquation_init [t] [1])) (layouts g).
Proof.
  rewrite -{1}(filter_app_complement (λ A, satisfies A (BombEquation_init [t] [1]))
                 (layouts g)).
  rewrite Permutation_app_comm. f_equiv.
  erewrite list_filter_iff; [done|].
  intros A. simpl. rewrite !satisfies_single_tile.
  case_decide; rewrite !list_elem_of_singleton; split; intros; try done; lia.
Qed.

(** One group: the case split on its most common tile. *)
Lemma solve_group_exact g sol :
  store_ok g → g ≠ [] →
  (∀ cs, store_ok cs → (size (store_tiles cs) < size (store_tiles g))%nat →
         ∃ f0, ∀ fuel, (f0 ≤ fuel)%nat → solve_area fuel cs = Ok (exact_solution cs)) →
  ∃ f0, ∀ fuel, (f0 ≤ fuel)%nat →
    solve_group (solve_area fuel) (S fuel) sol g
    = Ok (Solution_mul sol (exact_solution g)).
Proof.
  intros Hg Hne IH.
  pose proof (find_tile_in_store g (store_tiles_nonempty g Hg Hne)) as Ht.
  set (t := find_tile_to_recurse_on g) in *.
  destruct (solve_branch_exact g t 0 ∅ Hg Ht ltac:(lia) IH) as [f0 H0].
  set (G0 := Solution_iadd ∅
               (layouts_solution (store_tiles g)
                  (filter (λ A, satisfies A (BombEquation_init [t] [0])) (layouts g)))) in *.
  destruct (solve_branch_exact g t 1 G0 Hg Ht ltac:(lia) IH) as [f1 H1].
  exists (Nat.max f0 f1). intros fuel Hfuel.
  unfold solve_group. fold t. cbn [foldlM].
  rewrite H0; [|lia]. cbn [mbind result_bind]. rewrite H1; [|lia].
  cbn [mbind result_bind]. f_equal. f_equal.
  unfold G0. rewrite Solution_iadd_empty_l -layouts_solution_app.
  unfold exact_solution. symmetry. apply layouts_solution_perm, layouts_split_tile.
Qed.

Lemma store_tiles_concat (groups : list (list BombEquation)) :
  store_tiles (concat groups) = ⋃ (store_tiles <$> groups).
Proof.
  induction groups as [|g groups IH]; [done|].
  simpl. by rewrite store_tiles_app IH.
Qed.

(** The loop over the groups. *)
Lemma solve_groups_exact (groups : list (list BombEquation)) (done : list BombEquation) :
  Forall (λ g, store_ok g ∧ g ≠ []
               ∧ ∀ cs, store_ok cs → (size (store_tiles cs) < size (store_tiles g))%nat →
                       ∃ f0, ∀ fuel, (f0 ≤ fuel)%nat →
                                     solve_area fuel cs = Ok (exact_solution cs)) groups →
  pairwise (λ g1 g2, store_tiles g1 ## store_tiles g2) (done :: groups) →
  ∃ f0, ∀ fuel, (f0 ≤ fuel)%nat →
    foldlM (solve_group (solve_area fuel) (S fuel)) (exact_solution done) groups
    = Ok (exact_solution (done ++ concat groups)).
Proof.
  intros Hall. revert done. induction Hall as [|g groups (Hg & Hne & IHg) Hall IH];
    intros done Hpw.
  - exists 0%nat. intros fuel _. simpl. by rewrite app_nil_r.
  - destruct Hpw as [Hdone [Hg_rest Hrest]].
    apply Forall_cons in Hdone as [Hdone_g Hdone_rest].
    destruct (solve_group_exact g (exact_solution done) Hg Hne IHg) as [f0 H0].
    destruct (IH (done ++ g)) as [f1 H1].
    { split; [|done]. apply Forall_forall. intros g' Hg'.
      rewrite store_tiles_app.
      rewrite Forall_forall in Hdone_rest. rewrite Forall_forall in Hg_rest.
      pose proof (Hdone_rest g' Hg'). pose proof (Hg_rest g' Hg'). set_solver. }
    exists (Nat.max f0 f1). intros fuel Hfuel.
    cbn [foldlM]. rewrite H0; [|lia]. cbn [mbind result_bind].
    rewrite -exact_solution_app // H1; [|lia].
    by rewrite concat_cons app_assoc.
Qed.

Lemma size_store_tiles_group (groups : list (list BombEquation)) g :
  g ∈ groups → store_tiles g ⊆ store_tiles (concat groups).
Proof.
  intros Hg u (e & He & Hu)%elem_of_store_tiles. apply elem_of_store_tiles.
  exists e. split; [|done]. apply list_elem_of_In, in_concat.
  exists g. by rewrite -!list_elem_of_In.
Qed.

Lemma group_submseteq (groups : list (list BombEquation)) g :
  g ∈ groups → g ⊆+ concat groups.
Proof.
  intros (l1 & l2 & ->)%list_elem_of_split.
  rewrite concat_app concat_cons.
  apply submseteq_inserts_l, submseteq_inserts_r. done.
Qed.

Lemma solve_area_exact_bounded (n : nat) (cs : list BombEquation) :
  (size (store_tiles cs) < n)%nat → store_ok cs →
  ∃ f0, ∀ fuel, (f0 ≤ fuel)%nat → solve_area fuel cs = Ok (exact_solution cs).
Proof.
  revert cs. induction n as [|n IH]; intros cs Hsize Hok; [lia|].
  destruct cs as [|e1 [|e2 cs]].
  - exists 1%nat. intros [|fuel] Hfuel; [lia|].
    by rewrite solve_area_unfold exact_solution_nil.
  - exists 1%nat. intros [|fuel] Hfuel; [lia|].
    rewrite solve_area_unfold. f_equal.
    destruct Hok as (_ & [Hwf _]%Forall_cons & _).
    rewrite solve_single_exact //. unfold exact_solution.
    by rewrite store_tiles_cons store_tiles_nil (right_id_L ∅ (∪)).
  - set (cs0 := e1 :: e2 :: cs) in *.
    destruct (group_constraints_spec cs0) as (groups & Hgroups & Hperm & Hne & Hpw).
    destruct (solve_groups_exact groups []) as [f0 Hf0].
    + apply Forall_forall. intros g Hg.
      assert (Hsub : g ⊆+ cs0).
      { rewrite -Hperm. by apply group_submseteq. }
      split; [by apply (store_ok_submseteq g cs0)|].
      split; [rewrite Forall_forall in Hne; by apply Hne|].
      intros cs' Hok' Hlt. apply IH; [|done].
      assert (size (store_tiles g) ≤ size (store_tiles cs0))%nat; [|lia].
      apply subseteq_size. rewrite -(store_tiles_perm _ _ Hperm).
      by apply size_store_tiles_group.
    + split; [|done]. apply Forall_forall. intros g _.
      rewrite store_tiles_nil. set_solver.
    + exists (S f0). intros [|fuel] Hfuel; [lia|].
      rewrite solve_area_unfold. unfold cs0 at 1. fold cs0.
      rewrite Hgroups. cbn [mbind result_bind].
      rewrite -exact_solution_nil Hf0; [|lia].
      simpl. f_equal. by apply exact_solution_perm.
Qed.

(** On a store that satisfies the store invariant, [solve_area] returns
    the Solution that counts the layouts of the store. *)
Lemma solve_area_exact (cs : list BombEquation) :
  store_ok cs →
  ∃ f0, ∀ fuel, (f0 ≤ fuel)%nat → solve_area fuel cs = Ok (exact_solution cs).
Proof. apply (solve_area_exact_bounded (S (size (store_tiles cs)))). lia. Qed.

(** ** Grouping, the choice of the tile, and [solve_area] *)

Lemma pairwise_lookup {A} (R : A → A → Prop) (l : list A) (i j : nat) (x y : A) :
  (∀ a b, R a b → R b a) → pairwise R l →
  i ≠ j → l !! i = Some x → l !! j = Some y → R x y.
Proof.
  intros Hsym. revert i j. induction l as [|a l IH]; intros i j Hpw Hij Hi Hj; [done|].
  destruct Hpw as [Ha Hpw]. rewrite Forall_forall in Ha.
  destruct i as [|i], j as [|j]; simpl in *; simplify_eq.
  - apply Ha. by eapply list_elem_of_lookup_2.
  - apply Hsym, Ha. by eapply list_elem_of_lookup_2.
  - apply (IH i j); auto.
Qed.

(** X14.  [group_constraints] returns on every list of equations: it
    raises nothing, the groups hold the equations of the list, each as
    often as the list does, no group is empty, and two equations of
    different groups share no tile (so all the equations that share a tile
    with an equation are in its group, as the docstring says). *)
Theorem group_constraints_partition (cs : list BombEquation) :
  ∃ groups,
    group_constraints cs = Ok groups
    ∧ concat groups ≡ₚ cs
    ∧ Forall (λ g, g ≠ []) groups
    ∧ ∀ i j g1 g2 e1 e2,
        i ≠ j → groups !! i = Some g1 → groups !! j = Some g2 →
        e1 ∈ g1 → e2 ∈ g2 → tiles e1 ## tiles e2.
Proof.
  destruct (group_constraints_spec cs) as (groups & Hgroups & Hperm & Hne & Hpw).
  exists groups. split; [done|]. split; [done|]. split; [done|].
  intros i j g1 g2 e1 e2 Hij Hi Hj He1 He2.
  assert (Hdisj : store_tiles g1 ## store_tiles g2).
  { apply (pairwise_lookup (λ g1 g2, store_tiles g1 ## store_tiles g2) groups i j); auto. }
  intros u Hu1 Hu2. apply (Hdisj u); apply elem_of_store_tiles; eauto.
Qed.

Lemma find_tile_no_tiles cs :
  store_tiles cs = ∅ → find_tile_to_recurse_on cs = (-1, -1).
Proof.
  intros Hempty. rewrite find_tile_to_recurse_on_eq.
  assert (Hall : Forall (λ c, elements (tiles c) = []) cs).
  { apply Forall_forall. intros c Hc. apply elements_empty_iff.
    apply set_equiv. intros u. split; [|set_solver]. intros Hu.
    assert (u ∈ store_tiles cs) by (apply elem_of_store_tiles; eauto). set_solver. }
  assert (Hid : ∀ st, foldl (λ st constraint,
                               foldl count_tile st (elements (tiles constraint))) st cs
                      = st).
  { clear Hempty. induction Hall as [|c cs' Hc Hall IH]; intros st; [done|].
    cbn [foldl]. rewrite Hc. apply IH. }
  by rewrite Hid.
Qed.

(** X15.  [find_tile_to_recurse_on] returns a most common tile: no tile
    occurs in more equations of the list than the tile returned.  So the
    tile returned is a tile of the list when the list mentions a tile at
    all, and it is [(-1, -1)] when the list mentions none. *)
Theorem find_tile_to_recurse_on_most_common (cs : list BombEquation) :
  (∀ u, occurrences u cs ≤ occurrences (find_tile_to_recurse_on cs) cs)
  ∧ (store_tiles cs ≠ ∅ → find_tile_to_recurse_on cs ∈ store_tiles cs)
  ∧ (store_tiles cs = ∅ → find_tile_to_recurse_on cs = (-1, -1)).
Proof.
  split; [intros u; apply find_tile_most_common|].
  split; [apply find_tile_in_store|apply find_tile_no_tiles].
Qed.

Lemma exact_solution_counts cs k t :
  num_layouts_of (exact_solution cs) k = count_layouts cs k
  ∧ bomb_count_of (exact_solution cs) k t = count_layouts_with cs k t.
Proof.
  unfold exact_solution, count_layouts, count_layouts_with. split.
  - apply num_layouts_of_layouts.
  - apply bomb_count_of_layouts, Forall_layouts_subseteq.
Qed.

(** X16.  For one equation that keeps the representation invariant,
    [solve_area] raises nothing and returns the exact counts: under each
    key [k], the number of layouts of the tiles of the equation with [k]
    bombs that satisfy it, and for each tile the number of those with a
    bomb on the tile. *)
Theorem solve_area_single_exact e fuel :
  wf_eq e →
  ∃ solution,
    solve_area (S fuel) [e] = Ok solution
    ∧ ∀ k t, num_layouts_of solution k = count_layouts [e] k
             ∧ bomb_count_of solution k t = count_layouts_with [e] k t.
Proof.
  intros Hwf. exists (exact_solution [e]). split; [|intros; apply exact_solution_counts].
  rewrite solve_area_unfold solve_single_exact //. unfold exact_solution.
  by rewrite store_tiles_cons store_tiles_nil (right_id_L ∅ (∪)).
Qed.

Lemma solve_area_single_exact_witness :
  ∃ solution,
    solve_area 1 [BombEquation_init [(0, 0); (0, 1); (1, 0)] [0; 2]] = Ok solution
    ∧ ∀ k t, num_layouts_of solution k
             = count_layouts [BombEquation_init [(0, 0); (0, 1); (1, 0)] [0; 2]] k
             ∧ bomb_count_of solution k t
               = count_layouts_with [BombEquation_init [(0, 0); (0, 1); (1, 0)] [0; 2]] k t.
Proof.
  apply (solve_area_single_exact (BombEquation_init [(0, 0); (0, 1); (1, 0)] [0; 2]) 0).
  apply wf_eq_init. repeat constructor.
Defined.

(** X17.  On a store that satisfies the store invariant [solve_area]
    returns, and its Solution is the exact distribution of the layouts of
    the store: for each [k], [N_k] is the number of 0/1 assignments to the
    tiles of the store that satisfy every equation and place [k] bombs,
    and [F_k[t]] is the number of those that place a bomb on [t]. *)
Theorem solve_area_counts_layouts (cs : list BombEquation) :
  store_ok cs →
  ∃ f0, ∀ fuel, (f0 ≤ fuel)%nat →
    ∃ solution,
      solve_area fuel cs = Ok solution
      ∧ solution = exact_solution cs
      ∧ ∀ k t, num_layouts_of solution k = count_layouts cs k
               ∧ bomb_count_of solution k t = count_layouts_with cs k t.
Proof.
  intros Hok. destruct (solve_area_exact cs Hok) as [f0 Hf0].
  exists f0. intros fuel Hfuel. exists (exact_solution cs).
  split; [by apply Hf0|]. split; [done|]. intros; apply exact_solution_counts.
Qed.

Lemma solve_area_counts_layouts_witness :
  let cs := [BombEquation_init [(0, 0); (1, 1)] [1];
             BombEquation_init [(1, 1); (0, 1); (1, 0)] [2]] in
  ∃ f0, ∀ fuel, (f0 ≤ fuel)%nat →
    ∃ solution,
      solve_area fuel cs = Ok solution
      ∧ solution = exact_solution cs
      ∧ ∀ k t, num_layouts_of solution k = count_layouts cs k
               ∧ bomb_count_of solution k t = count_layouts_with cs k t.
Proof.
  apply (solve_area_counts_layouts
           [BombEquation_init [(0, 0); (1, 1)] [1];
            BombEquation_init [(1, 1); (0, 1); (1, 0)] [2]]).
  split; [apply (bool_decide_unpack _); by vm_compute|].
  split.
  { apply Forall_cons. split; [|apply Forall_singleton];
      apply wf_eq_init; repeat constructor. }
  split.
  { apply Forall_cons. split; [|apply Forall_singleton]; split; by vm_compute. }
  intros e e' He He' Htriv.
  apply elem_of_cons in He as [->|He];
    [|apply list_elem_of_singleton in He as ->]; by vm_compute in Htriv.
Defined.

(** ** The invariant of a Sweeper *)

Lemma elem_of_list_discard `{EqDecision A} (x u : A) (l : list A) :
  NoDup l → u ∈ list_discard x l ↔ u ∈ l ∧ u ≠ x.
Proof.
  induction 1 as [|y l Hy Hl IH]; simpl.
  - rewrite elem_of_nil. naive_solver.
  - case_decide as Hxy.
    + subst y. rewrite elem_of_cons. split; [|naive_solver].
      intros Hu. split; [by right|]. by intros ->.
    + rewrite !elem_of_cons IH. naive_solver.
Qed.

Lemma NoDup_list_discard `{EqDecision A} (x : A) (l : list A) :
  NoDup l → NoDup (list_discard x l).
Proof.
  induction 1 as [|y l Hy Hl IH]; simpl; [constructor|].
  case_decide; [done|]. constructor; [|done].
  rewrite elem_of_list_discard //. naive_solver.
Qed.

Lemma list_discard_each `{EqDecision A} (xs l : list A) :
  NoDup l →
  NoDup (foldl (λ u x, list_discard x u) l xs)
  ∧ ∀ u, u ∈ foldl (λ u x, list_discard x u) l xs ↔ u ∈ l ∧ u ∉ xs.
Proof.
  revert l. induction xs as [|x xs IH]; intros l Hl; simpl.
  - split; [done|]. intros u. rewrite elem_of_nil. naive_solver.
  - destruct (IH (list_discard x l) (NoDup_list_discard x l Hl)) as [Hnd Hin].
    split; [done|]. intros u. rewrite Hin elem_of_list_discard // not_elem_of_cons.
    naive_solver.
Qed.

Lemma BOMB_KEY_sorted v info counts :
  BOMB_KEY v !! info = Some counts → StronglySorted Z.lt counts.
Proof.
  destruct v; unfold BOMB_KEY; intros H%elem_of_list_to_map_2.
  all: repeat (apply elem_of_cons in H as [H|H];
               [injection H as _ ->;
                repeat first [ apply SSorted_nil | apply SSorted_cons
                             | apply Forall_nil_2 | apply Forall_cons_2 ]; lia|]).
  all: by apply elem_of_nil in H.
Qed.

Lemma observation_eqs_wf s row column info W :
  observation_eqs s row column info = Some W →
  Forall wf_eq W
  ∧ store_tiles W = list_to_set (observation_tiles s row column info).
Proof.
  unfold observation_eqs, observation_tiles.
  destruct (BOMB_KEY (sw_version s) !! info) as [counts|] eqn:Hkey.
  - intros [= <-]. split.
    + apply Forall_cons. split; [apply wf_eq_init, StronglySorted_singleton|].
      apply Forall_singleton, wf_eq_init. by eapply BOMB_KEY_sorted.
    + rewrite !store_tiles_cons store_tiles_nil !tiles_init. set_solver.
  - destruct (bool_decide (info = "B"%string) || bool_decide (info = "Rupoor"%string));
      [|done].
    intros [= <-]. split.
    + apply Forall_singleton, wf_eq_init, StronglySorted_singleton.
    + rewrite !store_tiles_cons store_tiles_nil !tiles_init. set_solver.
Qed.

Lemma integrate_tiles_subseteq fuel cs W ok cs' :
  integrate_new_bomb_eqs fuel cs W = Ok (ok, cs') →
  store_tiles cs' ⊆ store_tiles cs ∪ store_tiles W.
Proof.
  intros H.
  apply (integrate_ind
           (λ cs1 W1, store_tiles cs1 ∪ store_tiles W1 ⊆ store_tiles cs ∪ store_tiles W)
           (λ answer, store_tiles answer.2 ⊆ store_tiles cs ∪ store_tiles W)
           ) with (answer := (ok, cs')) (fuel := fuel) (cs := cs) (W := W); [| |done|done].
  - intros cs1 W1 answer Hinv Hit.
    apply integrate_iteration_inv in Hit
      as [[_ Heq]|[(W0 & new & _ & _ & Heq)|[(? & ? & ? & _ & _ & _ & _ & Heq)
                                              |(? & ? & ? & ? & ? & ? & _ & _ & _ & _ & Heq)]]];
      simplify_eq; simpl; set_solver.
  - intros cs1 W1 cs2 W2 Hinv Hit.
    by rewrite (integrate_iteration_tiles _ _ _ _ Hit).
Qed.

(** All that [integrate_new_info] does, in one statement. *)
Lemma integrate_new_info_spec fuel row column info s s' :
  integrate_new_info fuel row column info s = Ok s' →
  sw_version s' = sw_version s ∧ sw_height s' = sw_height s
  ∧ sw_width s' = sw_width s ∧ sw_bombs s' = sw_bombs s
  ∧ board_set (sw_board s) (row, column) info = Ok (sw_board s')
  ∧ sw_unconstrained_tiles s'
    = foldl (λ u x, list_discard x u) (sw_unconstrained_tiles s)
            (observation_tiles s row column info)
  ∧ match observation_eqs s row column info with
    | Some W =>
        ∃ ok, integrate_new_bomb_eqs fuel (sw_constraints s) W = Ok (ok, sw_constraints s')
              ∧ sw_message s' = (if ok : bool then sw_message s
                                 else "Impossible layout"%string)
    | None => sw_constraints s' = sw_constraints s ∧ sw_message s' = sw_message s
    end.
Proof.
  unfold integrate_new_info, observation_eqs, observation_tiles.
  intros (board & Hboard & H)%bind_Ok. simpl in H.
  destruct (BOMB_KEY (sw_version s) !! info) as [counts|].
  - apply bind_Ok in H as ([ok cs] & Hint & H). injection H as <-.
    rewrite Hboard. destruct ok; simpl; repeat split; eauto.
  - destruct (bool_decide (info = "B"%string) || bool_decide (info = "Rupoor"%string)).
    + apply bind_Ok in H as ([ok cs] & Hint & H). injection H as <-.
      rewrite Hboard. destruct ok; simpl; repeat split; eauto.
    + injection H as <-. rewrite Hboard. simpl. done.
Qed.

Lemma board_set_dims (board board' : list (list string)) t label (w : nat) :
  board_set board t label = Ok board' →
  Forall (λ r, length r = w) board →
  length board' = length board ∧ Forall (λ r, length r = w) board'.
Proof.
  unfold board_set, py_set_index, py_index.
  intros (r & Hr & (r' & Hr' & H)%bind_Ok)%bind_Ok Hall.
  repeat case_match; simplify_eq.
  all: rewrite length_insert; split; [done|].
  all: apply Forall_insert; [done|]; rewrite length_insert.
  all: rewrite Forall_forall in Hall; apply Hall; by eapply list_elem_of_lookup_2.
Qed.

Lemma board_ok_lookup s t :
  board_ok s → in_board s t →
  ∃ r, sw_board s !! Z.to_nat t.1 = Some r ∧ (Z.to_nat t.2 < length r)%nat.
Proof.
  intros (Hlen & Hall) [Hr Hc].
  destruct (lookup_lt_is_Some_2 (sw_board s) (Z.to_nat t.1)) as [r Hrow]; [lia|].
  exists r. split; [done|]. rewrite Forall_forall in Hall.
  rewrite (Hall r); [lia|by eapply list_elem_of_lookup_2].
Qed.

Lemma board_set_in_board s t label :
  board_ok s → in_board s t → ∃ board', board_set (sw_board s) t label = Ok board'.
Proof.
  intros Hb Ht. destruct (board_ok_lookup s t Hb Ht) as (r & Hr & Hc).
  destruct t as [row column]. destruct Ht as [? ?]. simpl in *.
  eexists. by apply (board_set_nonneg _ _ _ r); [lia..|done|done].
Qed.

Lemma board_get_in_board s t :
  board_ok s → in_board s t → ∃ label, board_get (sw_board s) t = Ok label.
Proof.
  intros Hb Ht. destruct (board_ok_lookup s t Hb Ht) as (r & Hr & Hc).
  destruct (lookup_lt_is_Some_2 r (Z.to_nat t.2) Hc) as [label Hlabel].
  destruct t as [row column]. destruct Ht as [? ?]. simpl in *.
  exists label. by apply (board_get_nonneg _ _ _ r); [lia..|done|done].
Qed.

Lemma observation_tiles_in_board s row column info t :
  in_board s (row, column) → t ∈ observation_tiles s row column info → in_board s t.
Proof.
  intros Hin. unfold observation_tiles.
  assert (Hn : t ∈ return_neighbours row column (sw_height s) (sw_width s) → in_board s t).
  { destruct t as [r c]. destruct Hin as [? ?]. simpl in *.
    intros (? & ? & _)%elem_of_return_neighbours; [|done..]. done. }
  destruct (BOMB_KEY (sw_version s) !! info).
  - intros [->|Ht]%elem_of_cons; [done|by apply Hn].
  - destruct (bool_decide (info = "B"%string) || bool_decide (info = "Rupoor"%string)).
    + by intros ->%list_elem_of_singleton.
    + by intros ?%elem_of_nil.
Qed.

Lemma observation_tiles_None s row column info :
  observation_eqs s row column info = None → observation_tiles s row column info = [].
Proof.
  unfold observation_eqs, observation_tiles.
  destruct (BOMB_KEY (sw_version s) !! info); [done|].
  by destruct (bool_decide (info = "B"%string) || bool_decide (info = "Rupoor"%string)).
Qed.

Lemma in_board_same s s' t :
  sw_height s' = sw_height s → sw_width s' = sw_width s → in_board s t → in_board s' t.
Proof. unfold in_board. by intros -> ->. Qed.

(** [integrate_new_info] on a tile of the board keeps the invariant. *)
Lemma integrate_new_info_keeps_ok fuel row column info s s' :
  sweeper_ok s → in_board s (row, column) →
  integrate_new_info fuel row column info s = Ok s' → sweeper_ok s'.
Proof.
  intros (Hboard & Hstore & Hnd & Hunc & Htiles & Hdisj) Hin H.
  destruct (integrate_new_info_spec _ _ _ _ _ _ H)
    as (Hv & Hh & Hw & Hb & Hset & Hunc' & Hobs).
  destruct (list_discard_each (observation_tiles s row column info)
              (sw_unconstrained_tiles s) Hnd) as [Hnd' Hin'].
  rewrite -Hunc' in Hnd', Hin'.
  assert (Hboard' : board_ok s').
  { destruct Hboard as (Hlen & Hall).
    destruct (board_set_dims _ _ _ _ _ Hset Hall) as [Hlen' Hall'].
    unfold board_ok. rewrite Hh Hw Hlen'. done. }
  assert (Hunc_in : ∀ t, t ∈ sw_unconstrained_tiles s' → in_board s' t).
  { intros t [Ht _]%Hin'. apply (in_board_same s s'); [done..|]. by apply Hunc. }
  destruct (observation_eqs s row column info) as [W|] eqn:HW.
  - destruct Hobs as (ok & Hint & _).
    destruct (observation_eqs_wf _ _ _ _ _ HW) as [Hwf HtW].
    pose proof (integrate_store_ok _ _ _ _ _ Hstore Hwf Hint) as Hstore'.
    pose proof (integrate_tiles_subseteq _ _ _ _ _ Hint) as Hsub.
    split; [done|]. split; [done|]. split; [done|]. split; [done|]. split.
    + intros t Ht%Hsub. apply (in_board_same s s'); [done..|].
      apply elem_of_union in Ht as [Ht|Ht]; [by apply Htiles|].
      rewrite HtW in Ht. apply elem_of_list_to_set in Ht.
      by eapply observation_tiles_in_board.
    + intros t [Ht Hnot]%Hin' Ht'%Hsub.
      apply elem_of_union in Ht' as [Ht'|Ht']; [by apply (Hdisj t)|].
      rewrite HtW in Ht'. by apply elem_of_list_to_set in Ht'.
  - destruct Hobs as [Hcs _]. unfold sweeper_ok. rewrite Hcs.
    split; [done|]. split; [done|]. split; [done|]. split; [done|]. split.
    + intros t Ht. apply (in_board_same s s'); [done..|]. by apply Htiles.
    + intros t [Ht _]%Hin'. by apply Hdisj.
Qed.

(** [integrate_new_info] on a tile of the board returns. *)
Lemma integrate_new_info_returns row column info s :
  sweeper_ok s → in_board s (row, column) →
  ∃ f0, ∀ fuel, (f0 ≤ fuel)%nat →
    ∃ s', integrate_new_info fuel row column info s = Ok s'.
Proof.
  intros (Hboard & Hstore & _) Hin.
  destruct (board_set_in_board s (row, column) info Hboard Hin) as [board Hset].
  destruct (observation_eqs s row column info) as [W|] eqn:HW.
  - destruct (observation_eqs_wf _ _ _ _ _ HW) as [Hwf _].
    destruct (integrate_terminates _ _ Hstore Hwf) as [[ok cs] Hint].
    exists (S (integrate_measure (sw_constraints s) W)). intros fuel Hfuel.
    destruct (integrate_new_info_observed fuel row column info s W board ok cs HW Hset)
      as (s' & Hs' & _); [apply Hint; lia|].
    by exists s'.
  - exists 0%nat. intros fuel _.
    rewrite integrate_new_info_unrecognised_eq // Hset. simpl. by eexists.
Qed.


Lemma elem_of_py_range (n i : Z) : i ∈ py_range n ↔ 0 ≤ i < n.
Proof.
  unfold py_range. rewrite list_elem_of_fmap. setoid_rewrite elem_of_seq. split.
  - intros (k & -> & Hk). lia.
  - intros Hi. exists (Z.to_nat i). lia.
Qed.

Lemma NoDup_py_range (n : Z) : NoDup (py_range n).
Proof.
  unfold py_range. apply NoDup_fmap_2; [|apply NoDup_seq].
  intros x y. lia.
Qed.

Lemma reset_tiles s :
  NoDup (sw_unconstrained_tiles (reset s))
  ∧ ∀ t, t ∈ sw_unconstrained_tiles (reset s) ↔ in_board s t.
Proof.
  simpl. split.
  - apply NoDup_bind; [| |apply NoDup_py_range].
    + intros i1 i2 t _ _ (j1 & ->%list_elem_of_singleton & _)%list_elem_of_bind
        (j2 & [= -> _]%list_elem_of_singleton & _)%list_elem_of_bind. done.
    + intros i _. apply NoDup_bind; [| |apply NoDup_py_range].
      * intros j1 j2 t _ _ ->%list_elem_of_singleton [= ->]%list_elem_of_singleton. done.
      * intros j _. apply NoDup_singleton.
  - intros [r c]. unfold in_board. simpl.
    rewrite list_elem_of_bind. setoid_rewrite list_elem_of_bind.
    setoid_rewrite list_elem_of_singleton. setoid_rewrite elem_of_py_range.
    split.
    + intros (i & (j & [= -> ->] & Hj) & Hi). done.
    + intros [Hr Hc]. exists r. split; [|done]. by exists c.
Qed.

(** A Sweeper that has just been reset satisfies the invariant. *)
Lemma sweeper_ok_reset s : sweeper_ok (reset s).
Proof.
  destruct (reset_tiles s) as [Hnd Hin].
  split; [|split; [apply store_ok_nil|split; [done|split; [|split]]]].
  - split; simpl; [by rewrite length_replicate|].
    apply Forall_replicate. by rewrite length_replicate.
  - intros t Ht%Hin. done.
  - intros t Ht. simpl in Ht. rewrite store_tiles_nil in Ht. set_solver.
  - intros t _. simpl. rewrite store_tiles_nil. set_solver.
Qed.

Lemma reachable_dims s0 s :
  reachable s0 s →
  sw_version s = sw_version s0 ∧ sw_height s = sw_height s0
  ∧ sw_width s = sw_width s0 ∧ sw_bombs s = sw_bombs s0.
Proof.
  induction 1 as [|s fuel row column info s' _ IH _ H]; [done|].
  destruct (integrate_new_info_spec _ _ _ _ _ _ H) as (-> & -> & -> & -> & _).
  done.
Qed.

(** Every state reached from [reset] by observations on tiles of the
    board satisfies the invariant. *)
Lemma reachable_ok s0 s : reachable s0 s → sweeper_ok s.
Proof.
  induction 1 as [|s fuel row column info s' _ IH Hin H]; [apply sweeper_ok_reset|].
  by eapply integrate_new_info_keeps_ok.
Qed.

(** ** [calculate_board] keeps the invariant *)

Lemma process_inv_start s : sweeper_ok s → process_inv s (s, []).
Proof.
  intros (Hboard & _ & Hnd & _). unfold process_inv. simpl.
  split_and!; try done.
Qed.

Lemma process_inv_board s s1 ct board :
  process_inv s (s1, ct) →
  length board = length (sw_board s1) →
  Forall (λ r, length r = Z.to_nat (sw_width s1)) board →
  process_inv s (set_board s1 board, ct).
Proof.
  intros (? & ? & ? & ? & ? & ? & [Hlen Hall] & ? & ? & ?) Hlen' Hall'.
  unfold process_inv, board_ok. simpl in *. rewrite Hlen'. done.
Qed.

Lemma process_inv_fact s s1 ct t b :
  process_inv s (s1, ct) → in_board s t → 0 ≤ b ≤ 1 →
  process_inv s (set_unconstrained_tiles s1 (list_discard t (sw_unconstrained_tiles s1)),
                 ct ++ [BombEquation_init [t] [b]]).
Proof.
  intros (? & ? & ? & ? & ? & ? & Hboard & Hnd & Hsub & Hct) Hin Hb.
  unfold process_inv. simpl in *.
  split_and!; try done.
  - by apply NoDup_list_discard.
  - intros u [Hu _]%elem_of_list_discard; [|done]. by apply Hsub.
  - apply Forall_app. split.
    + eapply Forall_impl; [done|]. simpl.
      intros e (t' & b' & -> & ? & ? & Hnot). exists t', b'.
      split; [done|]. split; [done|]. split; [done|].
      intros [Hu _]%elem_of_list_discard; done.
    + apply Forall_singleton. exists t, b.
      split; [done|]. split; [done|]. split; [done|].
      intros [_ Hne]%elem_of_list_discard; done.
Qed.

Lemma process_tile_ok percent_label total s st t count :
  process_inv s st → in_board s t →
  ∃ st', process_tile percent_label total st (t, count) = Ok st' ∧ process_inv s st'.
Proof.
  destruct st as [s1 ct]. intros Hinv Hin.
  assert (Hin1 : in_board s1 t).
  { destruct Hinv as (_ & Hh & Hw & _). simpl in *. unfold in_board. by rewrite Hh Hw. }
  assert (Hboard1 : board_ok s1) by apply Hinv.
  assert (Hset : ∀ label,
            ∃ board, board_set (sw_board s1) t label = Ok board
                     ∧ length board = length (sw_board s1)
                     ∧ Forall (λ r, length r = Z.to_nat (sw_width s1)) board).
  { intros label.
    destruct (board_set_in_board s1 t label Hboard1 Hin1) as [board Hboard].
    exists board. split; [done|].
    by apply (board_set_dims _ _ _ _ _ Hboard), Hboard1. }
  destruct (board_get_in_board s1 t Hboard1 Hin1) as [label Hlabel].
  unfold process_tile. repeat case_bool_decide.
  - rewrite Hlabel. simpl.
    destruct (BOMB_KEY (sw_version s1) !! label); [by eexists|].
    destruct (Hset "S"%string) as (board & -> & Hlen & Hall). simpl.
    eexists. split; [done|].
    apply (process_inv_fact s (set_board s1 board) ct t 0); [|done|lia].
    by apply process_inv_board.
  - simpl. rewrite Hlabel. simpl.
    pose proof (process_inv_fact s s1 ct t 1 Hinv Hin ltac:(lia)) as Hinv'.
    destruct (bool_decide (label = "B"%string) || bool_decide (label = "Rupoor"%string));
      [by eexists|].
    destruct (Hset "B/R"%string) as (board & -> & Hlen & Hall). simpl.
    eexists. split; [done|]. by apply process_inv_board.
  - destruct (Hset (percent_label count total)) as (board & -> & Hlen & Hall).
    simpl. eexists. split; [done|]. by apply process_inv_board.
Qed.

Lemma process_tiles_ok percent_label total s items st :
  process_inv s st → Forall (λ item : tile * Z, in_board s item.1) items →
  ∃ st', process_tiles percent_label total items st = Ok st' ∧ process_inv s st'.
Proof.
  intros Hinv Hitems. revert st Hinv.
  induction Hitems as [|[t count] items Ht Hitems IH]; intros st Hinv.
  - by exists st.
  - destruct (process_tile_ok percent_label total s st t count Hinv Ht) as (st1 & Hst1 & Hinv1).
    destruct (IH st1 Hinv1) as (st' & Hst' & Hinv').
    exists st'. split; [|done]. unfold process_tiles in *. cbn [foldlM]. by rewrite Hst1.
Qed.

Lemma layouts_solution_empty_iff (X : gset tile) (L : list (gset tile)) :
  layouts_solution X L = ∅ ↔ L = [].
Proof.
  split; [|intros ->; apply layouts_solution_nil].
  intros Hempty. destruct L as [|A L]; [done|]. exfalso.
  pose proof (num_layouts_of_layouts X (A :: L) (Z.of_nat (size A))) as Hn.
  rewrite Hempty in Hn. unfold num_layouts_of in Hn. rewrite lookup_empty in Hn.
  rewrite filter_cons in Hn. case_decide; [|done]. simpl in Hn. lia.
Qed.

Lemma sweeper_ok_set_message s m : sweeper_ok s → sweeper_ok (set_message s m).
Proof. done. Qed.

Lemma process_bomb_fractions_ok percent_label bomb_instances total s :
  sweeper_ok s → (∀ t, is_Some (bomb_instances !! t) → in_board s t) →
  ∃ f0 s', sweeper_ok s'
           ∧ ∀ fuel, (f0 ≤ fuel)%nat →
               process_bomb_fractions percent_label fuel bomb_instances total s = Ok s'.
Proof.
  intros Hok Hkeys. unfold process_bomb_fractions. case_bool_decide as Htotal.
  { exists 0%nat, (set_message s "Impossible layout"). split; [|done].
    by apply sweeper_ok_set_message. }
  destruct (process_tiles_ok percent_label total s (map_to_list bomb_instances) (s, []))
    as ([s1 ct] & Htiles & Hinv).
  { by apply process_inv_start. }
  { apply Forall_forall. intros [t c] Ht%elem_of_map_to_list. simpl. apply Hkeys. eauto. }
  destruct Hinv as (Hv & Hh & Hw & Hb & Hcs & Hm & Hboard & Hnd & Hsub & Hct).
  simpl in *.
  destruct Hok as (_ & Hstore & _ & Hunc & Hstore_in & Hdisj).
  assert (Hwf : Forall wf_eq ct).
  { eapply Forall_impl; [done|]. simpl. intros e (t & b & -> & _).
    apply wf_eq_single, StronglySorted_singleton. }
  rewrite -Hcs in Hstore.
  destruct (integrate_terminates _ _ Hstore Hwf) as [[ok cs'] Hint].
  exists (S (integrate_measure (sw_constraints s1) ct)), (set_constraints s1 cs').
  pose proof (Hint _ (Nat.lt_succ_diag_r _)) as Hint1.
  split.
  - assert (Hin_same : ∀ t, in_board s t → in_board (set_constraints s1 cs') t).
    { intros t. by apply in_board_same. }
    pose proof (integrate_tiles_subseteq _ _ _ _ _ Hint1) as Htiles_sub.
    assert (Hct_tiles : ∀ t, t ∈ store_tiles ct →
                             in_board s t ∧ t ∉ sw_unconstrained_tiles s1).
    { intros t (e & He & Ht)%elem_of_store_tiles.
      rewrite Forall_forall in Hct. destruct (Hct e He) as (t' & b & -> & _ & ? & ?).
      rewrite tiles_init list_to_set_single_tile in Ht.
      by apply elem_of_singleton in Ht as ->. }
    split; [done|]. split; [by eapply integrate_store_ok|]. split; [done|]. split; [|split].
    + intros t Ht. apply Hin_same, Hunc. by apply Hsub.
    + intros t Ht%Htiles_sub. apply Hin_same.
      apply elem_of_union in Ht as [Ht|Ht].
      * apply Hstore_in. by rewrite -Hcs.
      * by apply Hct_tiles.
    + intros t Ht Ht'%Htiles_sub. simpl in Ht.
      apply elem_of_union in Ht' as [Ht'|Ht'].
      * apply (Hdisj t); [by apply Hsub|by rewrite -Hcs].
      * by apply Hct_tiles in Ht' as [_ ?].
  - intros fuel Hfuel. rewrite Htiles. simpl. rewrite Hint; [done|lia].
Qed.

Lemma not_in_board_minus_one s : ¬ in_board s (-1, -1).
Proof. unfold in_board. simpl. lia. Qed.

(** [calculate_board] on a Sweeper that satisfies the invariant: it
    raises [KeyError] when no layout satisfies the store, and otherwise it
    returns a Sweeper that satisfies the invariant. *)
Lemma calculate_board_ok percent_label s :
  sweeper_ok s →
  ∃ f0, ∀ fuel, (f0 ≤ fuel)%nat →
    if decide (layouts (sw_constraints s) = [])
    then calculate_board percent_label fuel s = Raise KeyError
    else ∃ s', calculate_board percent_label fuel s = Ok s' ∧ sweeper_ok s'.
Proof.
  intros Hok. pose proof Hok as (_ & Hstore & _ & Hunc & Hstore_in & _).
  destruct (solve_area_exact _ Hstore) as [f0 Hsolve].
  case_decide as Hlay.
  - exists f0. intros fuel Hfuel. unfold calculate_board.
    rewrite Hsolve //. unfold exact_solution. rewrite Hlay layouts_solution_nil.
    simpl. by rewrite calculate_bomb_fractions_empty.
  - set (solution := exact_solution (sw_constraints s)) in *.
    assert (Hne : solution ≠ ∅).
    { unfold solution, exact_solution. by rewrite layouts_solution_empty_iff. }
    assert (Htiles : solution_tiles solution ⊆ store_tiles (sw_constraints s)).
    { apply solution_tiles_layouts. }
    destruct (calculate_bomb_fractions_spec s solution Hne) as (bi & Hbi & Hlookup).
    { intros Hin%Htiles%Hstore_in. by apply not_in_board_minus_one in Hin. }
    destruct (process_bomb_fractions_ok percent_label bi
                (total_layouts (Z.of_nat (length (sw_unconstrained_tiles s)))
                               (sw_bombs s) solution) s Hok)
      as (f1 & s' & Hok' & Hproc).
    { intros t. rewrite Hlookup. repeat case_decide.
      - intros _. by apply Hunc.
      - intros _. apply Hstore_in, Htiles. tauto.
      - by intros [? ?]. }
    exists (Nat.max f0 f1). intros fuel Hfuel. exists s'. split; [|done].
    unfold calculate_board. rewrite Hsolve; [|lia]. fold solution.
    simpl. rewrite Hbi. simpl. apply Hproc. lia.
Qed.

Lemma foldlM_mono {A B} (f g : B → A → result B) (l : list A) (b r : B) :
  (∀ b x b', f b x = Ok b' → g b x = Ok b') →
  foldlM f b l = Ok r → foldlM g b l = Ok r.
Proof.
  intros Hfg. revert b. induction l as [|x l IH]; intros b; simpl; [done|].
  intros (b' & Hf & Hrest)%bind_Ok. rewrite (Hfg _ _ _ Hf). simpl. by apply IH.
Qed.

(** More fuel does not change what [solve_area] returns. *)
Lemma solve_area_fuel_mono fuel fuel' cs solution :
  solve_area fuel cs = Ok solution → (fuel ≤ fuel')%nat →
  solve_area fuel' cs = Ok solution.
Proof.
  revert fuel' cs solution. induction fuel as [|fuel IH]; intros fuel' cs solution; [done|].
  destruct fuel' as [|fuel']; [lia|]. intros H Hle.
  rewrite solve_area_unfold in H. rewrite solve_area_unfold.
  destruct cs as [|e1 [|e2 cs]]; [done..|].
  apply bind_Ok in H as (groups & -> & H). simpl.
  revert H. apply foldlM_mono. intros sol g sol'.
  unfold solve_group. intros (gs & Hgs & Hsol)%bind_Ok.
  assert (Hgs' : foldlM (solve_branch (solve_area fuel') (S fuel') g
                           (find_tile_to_recurse_on g)) ∅ [0; 1] = Ok gs).
  { revert Hgs. apply foldlM_mono. intros acc b acc'. unfold solve_branch.
    intros ([ok copy] & Hint & Hrest)%bind_Ok.
    rewrite (integrate_fuel_mono _ (S fuel') _ _ _ Hint); [|lia]. simpl.
    destruct ok; [|done].
    apply bind_Ok in Hrest as (copy' & -> & Hrest). simpl.
    apply bind_Ok in Hrest as (sub & Hsub & Hrest).
    rewrite (IH fuel' _ _ Hsub); [|lia]. done. }
  by rewrite Hgs'.
Qed.

Lemma calculate_board_fuel_mono percent_label fuel fuel' s s' :
  calculate_board percent_label fuel s = Ok s' → (fuel ≤ fuel')%nat →
  calculate_board percent_label fuel' s = Ok s'.
Proof.
  unfold calculate_board.
  intros (solution & Hsolve & ([bi n] & Hbi & H)%bind_Ok)%bind_Ok Hle.
  rewrite (solve_area_fuel_mono _ fuel' _ _ Hsolve) //. simpl. rewrite Hbi. simpl.
  unfold process_bomb_fractions in *. case_bool_decide; [done|].
  apply bind_Ok in H as ([s1 ct] & Htiles & H). rewrite Htiles. simpl.
  apply bind_Ok in H as ([ok cs] & Hint & H).
  by rewrite (integrate_fuel_mono _ fuel' _ _ _ Hint).
Qed.

Lemma calculate_board_keeps_ok percent_label fuel s s' :
  sweeper_ok s → calculate_board percent_label fuel s = Ok s' → sweeper_ok s'.
Proof.
  intros Hok H. destruct (calculate_board_ok percent_label s Hok) as [f0 Hf0].
  specialize (Hf0 (Nat.max fuel f0) ltac:(lia)).
  rewrite (calculate_board_fuel_mono _ fuel _ _ _ H) in Hf0; [|lia].
  case_decide; [done|]. destruct Hf0 as (s'' & [= <-] & Hok'). done.
Qed.

(** Every state that a Sweeper reaches from [reset] by observations on
    tiles of its board and by [calculate_board] satisfies the invariant. *)
Lemma sweeper_run_ok percent_label s0 s : sweeper_run percent_label s0 s → sweeper_ok s.
Proof.
  induction 1 as [|s fuel row column info s' _ IH Hin H|s fuel s' _ IH H].
  - apply sweeper_ok_reset.
  - by eapply integrate_new_info_keeps_ok.
  - by eapply calculate_board_keeps_ok.
Qed.

(** ** The Sweeper between two calls *)

(** X18.  The unconstrained tiles of a Sweeper that has just been reset
    are the tiles of its board, each listed once. *)
Theorem reset_unconstrained_tiles (s : Sweeper) :
  NoDup (sw_unconstrained_tiles (reset s))
  ∧ (∀ t, t ∈ sw_unconstrained_tiles (reset s) ↔ in_board s t)
  ∧ sw_constraints (reset s) = []
  ∧ board_ok (reset s).
Proof.
  destruct (reset_tiles s) as [Hnd Hin]. split; [done|]. split; [done|].
  split; [done|]. apply sweeper_ok_reset.
Qed.

(** X19.  Every state that a Sweeper reaches from [reset] by observations
    on tiles of its board and by calls of [calculate_board] satisfies the
    invariant: the board has the size of the game, the store satisfies the
    store invariant, the tiles of the store and the unconstrained tiles
    are tiles of the board, no unconstrained tile is listed twice, and no
    tile is both unconstrained and mentioned by the store. *)
Theorem sweeper_run_invariant percent_label (s0 s : Sweeper) :
  sweeper_run percent_label s0 s →
  board_ok s
  ∧ store_ok (sw_constraints s)
  ∧ NoDup (sw_unconstrained_tiles s)
  ∧ (∀ t, t ∈ sw_unconstrained_tiles s → in_board s t)
  ∧ (∀ t, t ∈ store_tiles (sw_constraints s) → in_board s t)
  ∧ (∀ t, t ∈ sw_unconstrained_tiles s → t ∉ store_tiles (sw_constraints s)).
Proof. intros Hrun. by apply (sweeper_run_ok percent_label s0). Qed.

Lemma sweeper_run_bomb_at_origin :
  sweeper_run percent_label_exact (Sweeper_init Classic) bomb_at_origin.
Proof.
  apply (run_integrate _ _ (reset (Sweeper_init Classic)) 10 0 0 "B").
  - apply run_reset.
  - unfold in_board. apply (bool_decide_unpack _). by vm_compute.
  - by vm_compute.
Qed.

Lemma sweeper_run_invariant_witness :
  board_ok bomb_at_origin
  ∧ store_ok (sw_constraints bomb_at_origin)
  ∧ NoDup (sw_unconstrained_tiles bomb_at_origin)
  ∧ (∀ t, t ∈ sw_unconstrained_tiles bomb_at_origin → in_board bomb_at_origin t)
  ∧ (∀ t, t ∈ store_tiles (sw_constraints bomb_at_origin) → in_board bomb_at_origin t)
  ∧ (∀ t, t ∈ sw_unconstrained_tiles bomb_at_origin
          → t ∉ store_tiles (sw_constraints bomb_at_origin)).
Proof.
  apply (sweeper_run_invariant percent_label_exact (Sweeper_init Classic) bomb_at_origin).
  apply sweeper_run_bomb_at_origin.
Defined.

(** X20.  In such a state [integrate_new_info] on a tile of the board
    returns, whatever the label: it raises nothing, and the integration it
    starts ends. *)
Theorem integrate_new_info_total percent_label (s0 s : Sweeper) row column info :
  sweeper_run percent_label s0 s → in_board s (row, column) →
  ∃ f0, ∀ fuel, (f0 ≤ fuel)%nat →
    ∃ s', integrate_new_info fuel row column info s = Ok s'.
Proof.
  intros Hrun Hin. apply integrate_new_info_returns; [|done].
  by apply (sweeper_run_ok percent_label s0).
Qed.

Lemma integrate_new_info_total_witness :
  ∃ f0, ∀ fuel, (f0 ≤ fuel)%nat →
    ∃ s', integrate_new_info fuel 1 1 "3" bomb_at_origin = Ok s'.
Proof.
  apply (integrate_new_info_total percent_label_exact (Sweeper_init Classic)
           bomb_at_origin 1 1 "3").
  - apply sweeper_run_bomb_at_origin.
  - unfold in_board. apply (bool_decide_unpack _). by vm_compute.
Defined.

(** X21.  In such a state [calculate_board] raises [KeyError] when no
    layout satisfies the store, and returns otherwise; it raises no other
    exception, and the loops it runs end. *)
Theorem calculate_board_total percent_label (s0 s : Sweeper) :
  sweeper_run percent_label s0 s →
  ∃ f0, ∀ fuel, (f0 ≤ fuel)%nat →
    if decide (layouts (sw_constraints s) = [])
    then calculate_board percent_label fuel s = Raise KeyError
    else ∃ s', calculate_board percent_label fuel s = Ok s'.
Proof.
  intros Hrun.
  destruct (calculate_board_ok percent_label s (sweeper_run_ok percent_label s0 s Hrun))
    as [f0 Hf0].
  exists f0. intros fuel Hfuel. specialize (Hf0 fuel Hfuel).
  case_decide; [done|]. destruct Hf0 as (s' & Hs' & _). by exists s'.
Qed.

Lemma calculate_board_total_witness :
  ∃ f0, ∀ fuel, (f0 ≤ fuel)%nat →
    if decide (layouts (sw_constraints bomb_at_origin) = [])
    then calculate_board percent_label_exact fuel bomb_at_origin = Raise KeyError
    else ∃ s', calculate_board percent_label_exact fuel bomb_at_origin = Ok s'.
Proof.
  apply (calculate_board_total percent_label_exact (Sweeper_init Classic) bomb_at_origin).
  apply sweeper_run_bomb_at_origin.
Defined.

(** X22.  What an observation says about the layouts.  When
    [integrate_new_info] hands the equations [W] to the integrator, either
    the layouts that satisfy the new store are those that satisfy the old
    store and [W], and the message is as before; or the message is
    "Impossible layout", and then no layout satisfies the old store
    together with [W]. *)
Theorem integrate_new_info_sound percent_label (s0 s s' : Sweeper) fuel row column info W :
  sweeper_run percent_label s0 s →
  integrate_new_info fuel row column info s = Ok s' →
  observation_eqs s row column info = Some W →
  ((∀ A, Forall (satisfies A) (sw_constraints s')
         ↔ Forall (satisfies A) (sw_constraints s) ∧ Forall (satisfies A) W)
   ∧ sw_message s' = sw_message s)
  ∨ (sw_message s' = "Impossible layout"%string
     ∧ ∀ A, ¬ (Forall (satisfies A) (sw_constraints s) ∧ Forall (satisfies A) W)).
Proof.
  intros Hrun H HW.
  pose proof (sweeper_run_ok percent_label s0 s Hrun) as (_ & Hstore & _).
  destruct (integrate_new_info_spec _ _ _ _ _ _ H) as (_ & _ & _ & _ & _ & _ & Hobs).
  rewrite HW in Hobs. destruct Hobs as (ok & Hint & Hmsg).
  destruct (observation_eqs_wf _ _ _ _ _ HW) as [Hwf _].
  pose proof (integrate_sem _ _ _ _ _ Hstore Hwf Hint) as Hsem.
  destruct ok; [left|right].
  - split; [apply Hsem|done].
  - done.
Qed.

Lemma integrate_new_info_sound_witness :
  let s' := from_Ok bomb_at_origin (integrate_new_info 10 0 0 "0" bomb_at_origin) in
  let W := [BombEquation_init [(0, 0)] [0];
            BombEquation_init (return_neighbours 0 0 9 9) [0]] in
  ((∀ A, Forall (satisfies A) (sw_constraints s')
         ↔ Forall (satisfies A) (sw_constraints bomb_at_origin) ∧ Forall (satisfies A) W)
   ∧ sw_message s' = sw_message bomb_at_origin)
  ∨ (sw_message s' = "Impossible layout"%string
     ∧ ∀ A, ¬ (Forall (satisfies A) (sw_constraints bomb_at_origin)
               ∧ Forall (satisfies A) W)).
Proof.
  apply (integrate_new_info_sound percent_label_exact (Sweeper_init Classic)
           bomb_at_origin _ 10 0 0 "0").
  - apply sweeper_run_bomb_at_origin.
  - by vm_compute.
  - by vm_compute.
Defined.

(** X23.  An observation takes the observed tile out of the unconstrained
    tiles and, for a label of the bomb key, its neighbours as well; every
    other unconstrained tile stays. *)
Theorem integrate_new_info_unconstrained fuel row column info (s s' : Sweeper) :
  NoDup (sw_unconstrained_tiles s) →
  integrate_new_info fuel row column info s = Ok s' →
  NoDup (sw_unconstrained_tiles s')
  ∧ ∀ u, u ∈ sw_unconstrained_tiles s'
         ↔ u ∈ sw_unconstrained_tiles s ∧ u ∉ observation_tiles s row column info.
Proof.
  intros Hnd H.
  destruct (integrate_new_info_spec _ _ _ _ _ _ H) as (_ & _ & _ & _ & _ & -> & _).
  by apply list_discard_each.
Qed.

Lemma integrate_new_info_unconstrained_witness :
  NoDup (sw_unconstrained_tiles bomb_at_origin)
  ∧ ∀ u, u ∈ sw_unconstrained_tiles bomb_at_origin
         ↔ u ∈ sw_unconstrained_tiles (Sweeper_init Classic)
           ∧ u ∉ observation_tiles (Sweeper_init Classic) 0 0 "B".
Proof.
  apply (integrate_new_info_unconstrained 10 0 0 "B" (Sweeper_init Classic) bomb_at_origin).
  - apply (reset_tiles (Sweeper_init Classic)).
  - by vm_compute.
Defined.

(** ** What [calculate_bomb_fractions] counts *)

Lemma Zsum_app {A} (f : A → Z) (l1 l2 : list A) : Zsum f (l1 ++ l2) = Zsum f l1 + Zsum f l2.
Proof. induction l1 as [|x l1 IH]; simpl; lia. Qed.

Lemma Zsum_ext {A} (f g : A → Z) (l : list A) :
  (∀ x, x ∈ l → f x = g x) → Zsum f l = Zsum g l.
Proof.
  induction l as [|x l IH]; intros Hfg; simpl; [done|].
  rewrite Hfg; [|by left]. rewrite IH; [done|]. intros y Hy. apply Hfg. by right.
Qed.

Lemma sum_items_Zsum (h : Z → gmap tile Z → Z → Z) items :
  sum_items h items = Zsum (λ x : Z * (gmap tile Z * Z), h x.1 x.2.1 x.2.2) items.
Proof.
  induction items as [|[k [F N]] items IH]; [done|].
  rewrite sum_items_cons IH. done.
Qed.

Lemma num_layouts_of_encode {A} (h : A → Z) (l : list A) :
  num_layouts_of (big_sum (λ x, {[ 0 := (∅, h x) ]}) l) 0 = Zsum h l.
Proof.
  induction l as [|x l IH]; [done|].
  simpl. rewrite num_layouts_of_iadd IH. unfold num_layouts_of at 1.
  by rewrite lookup_singleton_eq.
Qed.

(** A sum over the items of a Solution that is additive in the entries
    is additive in the Solution. *)
Lemma sum_items_iadd (h : Z → gmap tile Z → Z → Z) (a b : Solution) :
  (∀ k (e e' : gmap tile Z * Z),
     h k (entry_add e e').1 (entry_add e e').2 = h k e.1 e.2 + h k e'.1 e'.2) →
  sum_items h (map_to_list (Solution_iadd a b))
  = sum_items h (map_to_list a) + sum_items h (map_to_list b).
Proof.
  intros Hadd. rewrite !sum_items_Zsum.
  rewrite -!(num_layouts_of_encode (λ x : Z * (gmap tile Z * Z), h x.1 x.2.1 x.2.2)).
  rewrite (big_sum_iadd_map
             (λ x : Z * (gmap tile Z * Z), {[ 0 := (∅, h x.1 x.2.1 x.2.2) ]})).
  - by rewrite num_layouts_of_iadd.
  - intros k e e'. simpl. rewrite Solution_iadd_singleton. f_equal.
    unfold entry_add. simpl.
    assert (Hempty : union_with (λ x y : Z, Some (x + y)) (∅ : gmap tile Z) ∅ = ∅).
    { apply map_eq. intros t. by rewrite lookup_union_with !lookup_empty. }
    rewrite Hempty. f_equal. apply (Hadd k e e').
Qed.

Lemma sum_items_layouts (h : Z → gmap tile Z → Z → Z) (X : gset tile) (L : list (gset tile)) :
  (∀ k (e e' : gmap tile Z * Z),
     h k (entry_add e e').1 (entry_add e e').2 = h k e.1 e.2 + h k e'.1 e'.2) →
  sum_items h (map_to_list (layouts_solution X L))
  = Zsum (λ A, h (Z.of_nat (size A)) (indicator X A) 1) L.
Proof.
  intros Hadd. induction L as [|A L IH].
  - by rewrite layouts_solution_nil map_to_list_empty.
  - change (layouts_solution X (A :: L))
      with (Solution_iadd (layout_solution X A) (layouts_solution X L)).
    rewrite sum_items_iadd // IH. simpl. f_equal.
    unfold layout_solution. rewrite map_to_list_singleton. simpl. lia.
Qed.

Lemma total_layouts_layouts U B X L :
  total_layouts U B (layouts_solution X L)
  = Zsum (λ A, comb U (B - Z.of_nat (size A))) L.
Proof.
  unfold total_layouts. rewrite sum_items_layouts.
  - apply Zsum_ext. intros A _. lia.
  - intros k e e'. simpl. lia.
Qed.

Lemma unconstrained_count_layouts U B X L :
  unconstrained_count U B (layouts_solution X L)
  = Zsum (λ A, comb (U - 1) (B - Z.of_nat (size A) - 1)) L.
Proof.
  unfold unconstrained_count. rewrite sum_items_layouts.
  - apply Zsum_ext. intros A _. lia.
  - intros k e e'. simpl. lia.
Qed.

Lemma constrained_count_layouts U B X L t :
  Forall (λ A, A ⊆ X) L →
  constrained_count U B (layouts_solution X L) t
  = Zsum (λ A, (if decide (t ∈ A) then 1 else 0) * comb U (B - Z.of_nat (size A))) L.
Proof.
  intros HL. unfold constrained_count. rewrite sum_items_layouts.
  - apply Zsum_ext. intros A HA. rewrite lookup_indicator.
    rewrite Forall_forall in HL. specialize (HL A HA).
    repeat case_decide; simpl; try lia. set_solver.
  - intros k e e'. simpl. rewrite lookup_union_with.
    destruct (e.1 !! t), (e'.1 !! t); simpl; lia.
Qed.

(** The number of subsets with [b] elements of a list of different
    tiles, and the number of those that contain a given tile. *)
Lemma subsets_count (l : list tile) (b : Z) :
  NoDup l →
  Z.of_nat (length (filter (λ S, Z.of_nat (size S) = b) (subsets l)))
  = comb (Z.of_nat (length l)) b.
Proof.
  intros Hl.
  pose proof (num_layouts_of_layouts (list_to_set l)
                (filter (λ S, Z.of_nat (size S) = b) (subsets l)) b) as Hn.
  rewrite list_filter_filter in Hn.
  rewrite (list_filter_iff (λ S, Z.of_nat (size S) = b ∧ Z.of_nat (size S) = b)
                           (λ S, Z.of_nat (size S) = b)) in Hn; [|tauto].
  rewrite -Hn layouts_by_size //. unfold num_layouts_of.
  case_bool_decide.
  - by rewrite lookup_singleton_eq.
  - rewrite lookup_empty comb_out_of_range; [done|lia].
Qed.

Lemma subsets_count_with (l : list tile) (b : Z) (u : tile) :
  NoDup l → u ∈ l →
  Z.of_nat (length (filter (λ S, Z.of_nat (size S) = b ∧ u ∈ S) (subsets l)))
  = comb (Z.of_nat (length l) - 1) (b - 1).
Proof.
  intros Hl Hu.
  pose proof (bomb_count_of_layouts (list_to_set l)
                (filter (λ S, Z.of_nat (size S) = b) (subsets l)) b u) as Hn.
  rewrite list_filter_filter in Hn.
  rewrite (list_filter_iff
             (λ S, (Z.of_nat (size S) = b ∧ u ∈ S) ∧ Z.of_nat (size S) = b)
             (λ S, Z.of_nat (size S) = b ∧ u ∈ S)) in Hn; [|tauto].
  rewrite -Hn; last first.
  { apply Forall_forall. by intros S [_ HS%elem_of_subsets]%list_elem_of_filter. }
  rewrite layouts_by_size //. unfold bomb_count_of.
  case_bool_decide.
  - rewrite lookup_singleton_eq lookup_gset_to_gmap_dec.
    case_decide as Hin; [done|]. exfalso. apply Hin. by apply elem_of_list_to_set.
  - rewrite lookup_empty comb_out_of_range; [done|lia].
Qed.

Lemma length_filter_bind {A B} (P : B → Prop) `{∀ x, Decision (P x)}
    (f : A → list B) (l : list A) :
  Z.of_nat (length (filter P (l ≫= f)))
  = Zsum (λ x, Z.of_nat (length (filter P (f x)))) l.
Proof.
  induction l as [|x l IH]; [done|].
  rewrite bind_cons filter_app length_app. simpl. lia.
Qed.

Lemma layouts_product_bind (L1 L2 : list (gset tile)) :
  layouts_product L1 L2 = L1 ≫= (λ A, (λ S, A ∪ S) <$> L2).
Proof.
  assert (Hinner : ∀ A : gset tile, L2 ≫= (λ S, [A ∪ S]) = (λ S, A ∪ S) <$> L2).
  { intros A. induction L2 as [|S L2 IH2]; [done|].
    by rewrite bind_cons fmap_cons IH2. }
  unfold layouts_product. induction L1 as [|A L1 IH]; [done|].
  by rewrite !bind_cons IH Hinner.
Qed.

Section global.

Variable s : Sweeper.
Hypothesis Hok : sweeper_ok s.


Lemma known_tiles_disjoint :
  store_tiles (sw_constraints s) ## (list_to_set (sw_unconstrained_tiles s) : gset tile).
Proof.
  destruct Hok as (_ & _ & _ & _ & _ & Hdisj).
  intros t Ht Hu%elem_of_list_to_set. by apply (Hdisj t).
Qed.

(** The layouts of the game: a layout of the store together with a set
    of unconstrained tiles, with as many bombs as the game has. *)
Lemma global_layouts_product :
  global_layouts s
  ≡ₚ filter (λ G, Z.of_nat (size G) = (sw_bombs s))
       (layouts_product (layouts (sw_constraints s)) (subsets (sw_unconstrained_tiles s))).
Proof.
  pose proof known_tiles_disjoint as Hdisj.
  destruct Hok as (_ & _ & Hnd & _).
  apply NoDup_Permutation.
  - apply NoDup_filter, NoDup_subsets, NoDup_elements.
  - apply NoDup_filter.
    apply (NoDup_layouts_product (store_tiles (sw_constraints s))
             (list_to_set (sw_unconstrained_tiles s))); [done| | | |].
    + apply Forall_layouts_subseteq.
    + apply Forall_forall. by intros S HS%elem_of_subsets.
    + apply NoDup_layouts.
    + by apply NoDup_subsets.
  - intros G. unfold global_layouts.
    rewrite !list_elem_of_filter elem_of_subsets list_to_set_elements_L.
    rewrite elem_of_layouts_product. unfold known_tiles. split.
    + intros [[HB Hsat] Hsub]. split; [done|].
      exists (G ∩ store_tiles (sw_constraints s)), (G ∩ list_to_set (sw_unconstrained_tiles s)).
      split; [|split].
      * apply elem_of_layouts. split; [set_solver|]. by apply Forall_satisfies_inter.
      * apply elem_of_subsets. set_solver.
      * set_solver.
    + intros [HB (A & S & [HA Hsat]%elem_of_layouts & HS%elem_of_subsets & ->)].
      split; [|set_solver]. split; [done|].
      apply (Forall_satisfies_inter _ (sw_constraints s) (store_tiles (sw_constraints s))); [done|].
      replace ((A ∪ S) ∩ store_tiles (sw_constraints s)) with (A ∩ store_tiles (sw_constraints s)) by set_solver.
      by apply Forall_satisfies_inter.
Qed.

Lemma size_layout_union (A S : gset tile) :
  A ∈ layouts (sw_constraints s) → S ∈ subsets (sw_unconstrained_tiles s) →
  Z.of_nat (size (A ∪ S)) = Z.of_nat (size A) + Z.of_nat (size S)
  ∧ (∀ t, t ∈ store_tiles (sw_constraints s) → t ∈ A ∪ S ↔ t ∈ A)
  ∧ (∀ t, t ∈ sw_unconstrained_tiles s → t ∈ A ∪ S ↔ t ∈ S).
Proof.
  pose proof known_tiles_disjoint as Hdisj.
  intros [HA _]%elem_of_layouts HS%elem_of_subsets.
  split; [|split].
  - rewrite size_union; [|set_solver]. lia.
  - intros t Ht. set_solver.
  - intros t Ht%(elem_of_list_to_set (C := gset tile)). set_solver.
Qed.

(** The number of layouts of the game. *)
Lemma global_layouts_total :
  Z.of_nat (length (global_layouts s)) = total_layouts (Z.of_nat (length (sw_unconstrained_tiles s))) (sw_bombs s) (exact_solution (sw_constraints s)).
Proof.
  destruct Hok as (_ & _ & Hnd & _).
  rewrite global_layouts_product layouts_product_bind length_filter_bind.
  unfold exact_solution. rewrite total_layouts_layouts.
  apply Zsum_ext. intros A HA.
  rewrite filter_fmap_comm length_fmap.
  rewrite (filter_ext_in _ (λ S, Z.of_nat (size S) = (sw_bombs s) - Z.of_nat (size A))); last first.
  { intros S HS. destruct (size_layout_union A S HA HS) as [-> _]. lia. }
  by rewrite subsets_count.
Qed.

(** The number of layouts of the game with a bomb on a tile of the
    store. *)
Lemma global_layouts_constrained t :
  t ∈ store_tiles (sw_constraints s) →
  Z.of_nat (length (filter (λ G, t ∈ G) (global_layouts s)))
  = constrained_count (Z.of_nat (length (sw_unconstrained_tiles s))) (sw_bombs s) (exact_solution (sw_constraints s)) t.
Proof.
  intros Ht. destruct Hok as (_ & _ & Hnd & _).
  rewrite global_layouts_product list_filter_filter layouts_product_bind length_filter_bind.
  unfold exact_solution.
  rewrite constrained_count_layouts; [|apply Forall_layouts_subseteq].
  apply Zsum_ext. intros A HA.
  rewrite filter_fmap_comm length_fmap.
  destruct (decide (t ∈ A)) as [HtA|HtA].
  - rewrite (filter_ext_in _ (λ S, Z.of_nat (size S) = (sw_bombs s) - Z.of_nat (size A))); last first.
    { intros S HS. destruct (size_layout_union A S HA HS) as (-> & Hin & _).
      rewrite Hin //. split; [intros [_ ?]; lia|intros ?; split; [done|lia]]. }
    rewrite subsets_count //. lia.
  - rewrite filter_none; [simpl; lia|].
    intros S HS [Hin _]. destruct (size_layout_union A S HA HS) as (_ & Hin' & _).
    by apply Hin' in Hin.
Qed.

(** The number of layouts of the game with a bomb on an unconstrained
    tile. *)
Lemma global_layouts_unconstrained t :
  t ∈ sw_unconstrained_tiles s →
  Z.of_nat (length (filter (λ G, t ∈ G) (global_layouts s)))
  = unconstrained_count (Z.of_nat (length (sw_unconstrained_tiles s))) (sw_bombs s) (exact_solution (sw_constraints s)).
Proof.
  intros Ht. destruct Hok as (_ & _ & Hnd & _).
  rewrite global_layouts_product list_filter_filter layouts_product_bind length_filter_bind.
  unfold exact_solution. rewrite unconstrained_count_layouts.
  apply Zsum_ext. intros A HA.
  rewrite filter_fmap_comm length_fmap.
  rewrite (filter_ext_in _ (λ S, Z.of_nat (size S) = (sw_bombs s) - Z.of_nat (size A) ∧ t ∈ S));
    last first.
  { intros S HS. destruct (size_layout_union A S HA HS) as (-> & _ & Hin).
    rewrite Hin //. split; [intros [? ?]; split; [lia|done]|intros [? ?]; split; [done|lia]]. }
  rewrite subsets_count_with //.
Qed.

End global.

Lemma solution_tiles_layouts_cons (X A : gset tile) (L : list (gset tile)) :
  solution_tiles (layouts_solution X (A :: L)) = X.
Proof.
  apply set_eq. intros t. split; [apply solution_tiles_layouts|].
  intros Ht.
  change (layouts_solution X (A :: L))
    with (Solution_iadd (layout_solution X A) (layouts_solution X L)).
  apply elem_of_solution_tiles_iadd. left. by rewrite solution_tiles_layout.
Qed.

Lemma global_layouts_subseteq s G : G ∈ global_layouts s → G ⊆ known_tiles s.
Proof.
  intros [_ HG%elem_of_subsets]%list_elem_of_filter.
  by rewrite list_to_set_elements_L in HG.
Qed.

(** What [calculate_bomb_fractions] returns on the Solution of the
    store: the number of layouts of the game and, for each known tile, the
    number of those with a bomb on the tile. *)
Lemma calculate_bomb_fractions_global s :
  sweeper_ok s → layouts (sw_constraints s) ≠ [] →
  ∃ bomb_instances,
    calculate_bomb_fractions s (exact_solution (sw_constraints s))
    = Ok (bomb_instances, Z.of_nat (length (global_layouts s)))
    ∧ ∀ t, bomb_instances !! t
           = if decide (t ∈ known_tiles s)
             then Some (Z.of_nat (length (filter (λ G, t ∈ G) (global_layouts s))))
             else None.
Proof.
  intros Hok Hlay. pose proof Hok as (_ & _ & _ & Hunc & Hstore_in & Hdisj).
  set (solution := exact_solution (sw_constraints s)).
  assert (Htiles : solution_tiles solution = store_tiles (sw_constraints s)).
  { unfold solution, exact_solution.
    destruct (layouts (sw_constraints s)) as [|A L]; [done|].
    apply solution_tiles_layouts_cons. }
  assert (Hne : solution ≠ ∅).
  { unfold solution, exact_solution. by rewrite layouts_solution_empty_iff. }
  destruct (calculate_bomb_fractions_spec s solution Hne) as (bi & Hbi & Hlookup).
  { rewrite Htiles. intros Hin%Hstore_in. by apply not_in_board_minus_one in Hin. }
  exists bi. rewrite Hbi (global_layouts_total s Hok). split; [done|].
  intros t. rewrite Hlookup Htiles. unfold known_tiles.
  destruct (decide (t ∈ sw_unconstrained_tiles s)) as [Hu|Hu].
  - assert (Hk : t ∈ store_tiles (sw_constraints s)
                     ∪ (list_to_set (sw_unconstrained_tiles s) : gset tile)).
    { apply elem_of_union. right. by apply elem_of_list_to_set. }
    destruct (decide (t ∈ store_tiles (sw_constraints s)
                          ∪ (list_to_set (sw_unconstrained_tiles s) : gset tile)))
      as [_|Hn]; [|done].
    by rewrite (global_layouts_unconstrained s Hok t Hu).
  - destruct (decide (t ∈ store_tiles (sw_constraints s))) as [Ht|Ht].
    + assert (Hneq : t ≠ (-1, -1)).
      { intros ->. by apply Hstore_in, not_in_board_minus_one in Ht. }
      destruct (decide (t ∈ store_tiles (sw_constraints s) ∧ t ≠ (-1, -1)))
        as [_|Hn]; [|by destruct Hn].
      destruct (decide (t ∈ store_tiles (sw_constraints s)
                            ∪ (list_to_set (sw_unconstrained_tiles s) : gset tile)))
        as [_|Hn]; [|exfalso; apply Hn, elem_of_union; by left].
      by rewrite (global_layouts_constrained s Hok t Ht).
    + destruct (decide (t ∈ store_tiles (sw_constraints s) ∧ t ≠ (-1, -1)))
        as [[? _]|_]; [done|].
      destruct (decide (t ∈ store_tiles (sw_constraints s)
                            ∪ (list_to_set (sw_unconstrained_tiles s) : gset tile)))
        as [Hin|_]; [|done].
      exfalso. apply elem_of_union in Hin as [?|Hin]; [done|].
      by apply elem_of_list_to_set in Hin.
Qed.

(** ** The board after [calculate_board] *)

Lemma cell_in_board s t : board_ok s → in_board s t → is_Some (cell (sw_board s) t).
Proof.
  intros Hb Ht. destruct (board_ok_lookup s t Hb Ht) as (r & Hr & Hc).
  destruct (lookup_lt_is_Some_2 r _ Hc) as [label Hlabel].
  exists label. unfold cell. by rewrite Hr.
Qed.

Lemma board_get_cell board t label :
  0 ≤ t.1 → 0 ≤ t.2 → cell board t = Some label → board_get board t = Ok label.
Proof.
  unfold cell. intros H1 H2 Hcell.
  destruct (board !! Z.to_nat t.1) as [r|] eqn:Hr; [|done]. simpl in Hcell.
  destruct t as [row column]. by apply (board_get_nonneg _ _ _ r).
Qed.

Lemma board_set_cell board t old label :
  0 ≤ t.1 → 0 ≤ t.2 → cell board t = Some old →
  board_set board t label = Ok (set_cell board t label).
Proof.
  unfold cell, set_cell. intros H1 H2 Hcell.
  destruct (board !! Z.to_nat t.1) as [r|] eqn:Hr; [|done]. simpl in Hcell.
  destruct t as [row column]. apply (board_set_nonneg _ _ _ r); [done..|].
  by eapply lookup_lt_Some.
Qed.

Lemma cell_set_cell board t t' label :
  0 ≤ t.1 → 0 ≤ t.2 → 0 ≤ t'.1 → 0 ≤ t'.2 →
  cell (set_cell board t label) t'
  = if decide (t' = t) then (λ _, label) <$> cell board t else cell board t'.
Proof.
  intros H1 H2 H1' H2'. unfold set_cell, cell.
  destruct (board !! Z.to_nat t.1) as [r|] eqn:Hr.
  - destruct (decide (t' = t)) as [->|Hne].
    + rewrite list_lookup_insert_eq; [|by eapply lookup_lt_Some]. simpl.
      destruct (r !! Z.to_nat t.2) eqn:Hc.
      * rewrite list_lookup_insert_eq; [done|by eapply lookup_lt_Some].
      * rewrite list_insert_ge; [by rewrite Hc|]. by apply lookup_ge_None.
    + destruct (decide (Z.to_nat t'.1 = Z.to_nat t.1)) as [Heq|Hrow].
      * rewrite Heq list_lookup_insert_eq; [|by eapply lookup_lt_Some]. rewrite Hr. simpl.
        rewrite list_lookup_insert_ne; [done|].
        intros Hcol. apply Hne. destruct t, t'. simpl in *. f_equal; lia.
      * by rewrite list_lookup_insert_ne.
  - destruct (decide (t' = t)) as [->|Hne]; [by rewrite Hr|done].
Qed.

Lemma set_cell_same board t old : cell board t = Some old → set_cell board t old = board.
Proof.
  unfold cell, set_cell. destruct (board !! Z.to_nat t.1) as [r|] eqn:Hr; [|done].
  simpl. intros Hc. rewrite (list_insert_id r) // list_insert_id //.
Qed.

Lemma set_cell_dims board t label (w : nat) :
  Forall (λ r, length r = w) board →
  length (set_cell board t label) = length board
  ∧ Forall (λ r, length r = w) (set_cell board t label).
Proof.
  intros Hall. unfold set_cell.
  destruct (board !! Z.to_nat t.1) as [r|] eqn:Hr; [|done].
  rewrite length_insert. split; [done|].
  apply Forall_insert; [done|]. rewrite length_insert.
  rewrite Forall_forall in Hall. apply Hall. by eapply list_elem_of_lookup_2.
Qed.

(** One iteration of the loop of [process_bomb_fractions], on a tile with
    non-negative coordinates whose cell holds [old]. *)
Lemma process_tile_spec percent_label total s1 ct t count old :
  0 ≤ t.1 → 0 ≤ t.2 → cell (sw_board s1) t = Some old →
  ∃ s2,
    process_tile percent_label total (s1, ct) (t, count)
    = Ok (s2, ct ++ tile_facts (sw_version s1) count total old t)
    ∧ sw_version s2 = sw_version s1 ∧ sw_height s2 = sw_height s1
    ∧ sw_width s2 = sw_width s1 ∧ sw_bombs s2 = sw_bombs s1
    ∧ sw_constraints s2 = sw_constraints s1 ∧ sw_message s2 = sw_message s1
    ∧ sw_board s2
      = set_cell (sw_board s1) t (tile_label percent_label (sw_version s1) count total old)
    ∧ sw_unconstrained_tiles s2
      = match tile_facts (sw_version s1) count total old t with
        | [] => sw_unconstrained_tiles s1
        | _ => list_discard t (sw_unconstrained_tiles s1)
        end.
Proof.
  intros H1 H2 Hcell.
  pose proof (board_get_cell _ _ _ H1 H2 Hcell) as Hget.
  assert (Hset : ∀ label, board_set (sw_board s1) t label
                          = Ok (set_cell (sw_board s1) t label)).
  { intros label. by apply (board_set_cell _ _ old). }
  unfold process_tile, tile_facts, tile_label.
  case_bool_decide as H0; [|case_bool_decide as Ht].
  - rewrite Hget. simpl. destruct (BOMB_KEY (sw_version s1) !! old).
    + exists s1. rewrite app_nil_r. split_and!; try done.
      by rewrite set_cell_same.
    + rewrite Hset. simpl. eexists. split; [done|]. split_and!; done.
  - simpl. rewrite Hget. simpl.
    destruct (bool_decide (old = "B"%string) || bool_decide (old = "Rupoor"%string)).
    + eexists. split; [done|]. split_and!; try done. simpl. by rewrite set_cell_same.
    + rewrite Hset. simpl. eexists. split; [done|]. split_and!; done.
  - rewrite Hset. simpl. eexists. rewrite app_nil_r. split; [done|]. split_and!; done.
Qed.

Lemma tile_facts_cases v count total old t :
  tile_facts v count total old t = []
  ∨ ∃ b, tile_facts v count total old t = [BombEquation_init [t] [b]] ∧ 0 ≤ b ≤ 1.
Proof.
  unfold tile_facts. repeat case_bool_decide; [destruct (BOMB_KEY v !! old)|..].
  - by left.
  - right. exists 0. split; [done|lia].
  - right. exists 1. split; [done|lia].
  - by left.
Qed.

Lemma store_tiles_fact t b : store_tiles [BombEquation_init [t] [b]] = {[ t ]}.
Proof.
  rewrite store_tiles_cons store_tiles_nil tiles_init list_to_set_single_tile.
  by rewrite (right_id_L ∅ (∪)).
Qed.

Lemma facts_of_cons v total board t count items :
  facts_of v total board ((t, count) :: items)
  = match cell board t with
    | Some old => tile_facts v count total old t
    | None => []
    end ++ facts_of v total board items.
Proof. done. Qed.

Lemma facts_of_ext v total b1 b2 items :
  (∀ item, item ∈ items → cell b1 item.1 = cell b2 item.1) →
  facts_of v total b1 items = facts_of v total b2 items.
Proof.
  induction items as [|[t count] items IH]; intros Hcell; [done|].
  rewrite !facts_of_cons. rewrite (Hcell (t, count)); [|by left].
  rewrite IH; [done|]. intros item Hitem. apply Hcell. by right.
Qed.

(** The loop of [process_bomb_fractions] over tiles of the board, each
    listed once. *)
Lemma process_tiles_spec percent_label total items s1 ct :
  board_ok s1 → NoDup (sw_unconstrained_tiles s1) → NoDup items.*1 →
  Forall (λ item : tile * Z, in_board s1 item.1) items →
  ∃ s2,
    process_tiles percent_label total items (s1, ct)
    = Ok (s2, ct ++ facts_of (sw_version s1) total (sw_board s1) items)
    ∧ (sw_version s2 = sw_version s1 ∧ sw_height s2 = sw_height s1
       ∧ sw_width s2 = sw_width s1 ∧ sw_bombs s2 = sw_bombs s1
       ∧ sw_constraints s2 = sw_constraints s1 ∧ sw_message s2 = sw_message s1)
    ∧ board_ok s2
    ∧ NoDup (sw_unconstrained_tiles s2)
    ∧ (∀ u, u ∈ sw_unconstrained_tiles s2
            ↔ u ∈ sw_unconstrained_tiles s1
              ∧ u ∉ store_tiles (facts_of (sw_version s1) total (sw_board s1) items))
    ∧ (∀ t, 0 ≤ t.1 → 0 ≤ t.2 →
            cell (sw_board s2) t
            = match (list_to_map items : gmap tile Z) !! t with
              | Some count =>
                  tile_label percent_label (sw_version s1) count total
                    <$> cell (sw_board s1) t
              | None => cell (sw_board s1) t
              end).
Proof.
  intros Hboard Hnd Hkeys Hin. revert s1 ct Hboard Hnd Hin.
  induction items as [|[t count] items IH]; intros s1 ct Hboard Hnd Hin.
  - exists s1. rewrite app_nil_r. split; [done|]. split; [done|].
    split; [done|]. split; [done|]. split; [|done].
    intros u. change (facts_of _ _ _ []) with (@nil BombEquation).
    rewrite store_tiles_nil. set_solver.
  - apply NoDup_cons in Hkeys as [Ht_notin Hkeys]. simpl in Ht_notin.
    apply Forall_cons in Hin as [Ht Hin]. simpl in Ht.
    destruct (cell_in_board s1 t Hboard Ht) as [old Hold].
    pose proof Ht as [[Ht1 _] [Ht2 _]].
    destruct (process_tile_spec percent_label total s1 ct t count old Ht1 Ht2 Hold)
      as (s1' & Hstep & Hv & Hh & Hw & Hb & Hcs & Hm & Hbd & Hunc).
    assert (Hboard' : board_ok s1').
    { destruct Hboard as [Hlen Hall]. unfold board_ok. rewrite Hbd Hh Hw.
      destruct (set_cell_dims (sw_board s1) t
                  (tile_label percent_label (sw_version s1) count total old)
                  _ Hall) as [-> ?]. done. }
    assert (Hnd' : NoDup (sw_unconstrained_tiles s1')).
    { rewrite Hunc. destruct (tile_facts _ _ _ _ _); [done|].
      by apply NoDup_list_discard. }
    assert (Hin' : Forall (λ item : tile * Z, in_board s1' item.1) items).
    { eapply Forall_impl; [done|]. intros item. by apply in_board_same. }
    assert (Hcell_other : ∀ t', 0 ≤ t'.1 → 0 ≤ t'.2 → t' ≠ t →
                                cell (sw_board s1') t' = cell (sw_board s1) t').
    { intros t' ? ? Hne. rewrite Hbd cell_set_cell //. by rewrite decide_False. }
    assert (Hfacts : facts_of (sw_version s1') total (sw_board s1') items
                     = facts_of (sw_version s1) total (sw_board s1) items).
    { rewrite Hv. apply facts_of_ext. intros [t' c'] Hitem. simpl.
      rewrite Forall_forall in Hin. pose proof (Hin _ Hitem) as [[? _] [? _]].
      apply Hcell_other; [done..|]. intros ->. apply Ht_notin.
      apply list_elem_of_fmap. by exists (t, c'). }
    destruct (IH Hkeys s1' (ct ++ tile_facts (sw_version s1) count total old t)
                Hboard' Hnd' Hin')
      as (s2 & Hfold & (Hv2 & Hh2 & Hw2 & Hb2 & Hcs2 & Hm2) & Hboard2 & Hnd2 & Hunc2 & Hcell2).
    exists s2. rewrite facts_of_cons Hold. split.
    { unfold process_tiles in *. cbn [foldlM]. rewrite Hstep. simpl.
      rewrite Hfold Hfacts. by rewrite app_assoc. }
    split; [by rewrite Hv2 Hh2 Hw2 Hb2 Hcs2 Hm2|].
    split; [done|]. split; [done|]. split.
    + intros u. rewrite Hunc2 Hfacts store_tiles_app Hunc.
      destruct (tile_facts_cases (sw_version s1) count total old t)
        as [->|(b & -> & _)].
      * rewrite store_tiles_nil. set_solver.
      * rewrite store_tiles_fact elem_of_list_discard //. set_solver.
    + intros t' H1' H2'. rewrite Hcell2 // Hv.
      destruct (decide (t' = t)) as [->|Hne].
      * rewrite lookup_insert_eq.
        rewrite (not_elem_of_list_to_map_1 items t) //.
        rewrite Hbd cell_set_cell // decide_True // Hold. done.
      * rewrite lookup_insert_ne //. by rewrite Hcell_other.
Qed.

Lemma elem_of_facts_of v total board items e :
  e ∈ facts_of v total board items
  ↔ ∃ t count old, (t, count) ∈ items ∧ cell board t = Some old
                   ∧ e ∈ tile_facts v count total old t.
Proof.
  unfold facts_of. rewrite list_elem_of_bind. split.
  - intros ([t count] & He & Hitem). simpl in He.
    destruct (cell board t) as [old|] eqn:Hold; [|by apply elem_of_nil in He].
    by exists t, count, old.
  - intros (t & count & old & Hitem & Hold & He). exists (t, count). simpl.
    by rewrite Hold.
Qed.

Lemma filter_length_all {A} (P : A → Prop) `{∀ x, Decision (P x)} (l : list A) :
  length (filter P l) = length l → Forall P l.
Proof.
  induction l as [|x l IH]; [constructor|].
  rewrite filter_cons. pose proof (length_filter P l) as Hle.
  case_decide; simpl; intros Hlen; [|lia].
  constructor; [done|]. apply IH. lia.
Qed.

Lemma filter_length_none {A} (P : A → Prop) `{∀ x, Decision (P x)} (l : list A) :
  length (filter P l) = 0%nat → Forall (λ x, ¬ P x) l.
Proof.
  induction l as [|x l IH]; [constructor|].
  rewrite filter_cons. case_decide; simpl; intros Hlen; [lia|].
  constructor; [done|]. by apply IH.
Qed.

(** The facts that [process_bomb_fractions] collects from the counts of
    the layouts of the game hold in every layout of the game. *)
Lemma tile_facts_hold s v old t G e :
  G ∈ global_layouts s → global_layouts s ≠ [] →
  e ∈ tile_facts v (layout_count s t) (Z.of_nat (length (global_layouts s))) old t →
  satisfies G e.
Proof.
  intros HG Hne. unfold tile_facts, layout_count.
  case_bool_decide as H0; [|case_bool_decide as Ht].
  - destruct (BOMB_KEY v !! old); [by intros ?%elem_of_nil|].
    intros ->%list_elem_of_singleton. apply satisfies_single_tile.
    assert (Hnone : Forall (λ G, ¬ t ∈ G) (global_layouts s)).
    { apply (filter_length_none (λ G, t ∈ G)). lia. }
    rewrite Forall_forall in Hnone. specialize (Hnone G HG).
    case_decide; [done|]. by left.
  - intros ->%list_elem_of_singleton. apply satisfies_single_tile.
    assert (Hall : Forall (λ G, t ∈ G) (global_layouts s)).
    { apply (filter_length_all (λ G, t ∈ G)). lia. }
    rewrite Forall_forall in Hall. specialize (Hall G HG).
    case_decide; [|done]. by left.
  - by intros ?%elem_of_nil.
Qed.

Lemma board_ext (b1 b2 : list (list string)) (w : nat) :
  length b1 = length b2 →
  Forall (λ r, length r = w) b1 → Forall (λ r, length r = w) b2 →
  (∀ t, 0 ≤ t.1 → 0 ≤ t.2 → cell b1 t = cell b2 t) →
  b1 = b2.
Proof.
  intros Hlen H1 H2 Hcell. apply list_eq_same_length with (length b1); [done..|].
  intros i r1 r2 Hi Hr1 Hr2.
  rewrite Forall_forall in H1. rewrite Forall_forall in H2.
  pose proof (H1 r1 (list_elem_of_lookup_2 _ _ _ Hr1)) as Hw1.
  pose proof (H2 r2 (list_elem_of_lookup_2 _ _ _ Hr2)) as Hw2.
  apply list_eq_same_length with w; [done..|].
  intros j x y Hj Hx Hy.
  specialize (Hcell (Z.of_nat i, Z.of_nat j) ltac:(simpl; lia) ltac:(simpl; lia)).
  unfold cell in Hcell. simpl in Hcell. rewrite !Nat2Z.id Hr1 Hr2 in Hcell.
  simpl in Hcell. congruence.
Qed.

Lemma tile_label_idempotent percent_label v count total old :
  tile_label percent_label v count total
    (tile_label percent_label v count total old)
  = tile_label percent_label v count total old.
Proof.
  unfold tile_label. case_bool_decide; [|case_bool_decide].
  - destruct (BOMB_KEY v !! old) eqn:Hold; [by rewrite Hold|].
    by destruct v.
  - destruct (bool_decide (old = "B"%string) || bool_decide (old = "Rupoor"%string))
      eqn:Hold; [by rewrite Hold|done].
  - done.
Qed.

Lemma elem_of_global_layouts s G :
  G ∈ global_layouts s
  ↔ G ⊆ known_tiles s ∧ Z.of_nat (size G) = sw_bombs s
    ∧ Forall (satisfies G) (sw_constraints s).
Proof.
  unfold global_layouts.
  rewrite list_elem_of_filter elem_of_subsets list_to_set_elements_L. tauto.
Qed.

Lemma global_layouts_equiv s1 s2 :
  known_tiles s2 = known_tiles s1 → sw_bombs s2 = sw_bombs s1 →
  (∀ G, G ∈ global_layouts s1 → Forall (satisfies G) (sw_constraints s2)) →
  (∀ G, Forall (satisfies G) (sw_constraints s2) → Forall (satisfies G) (sw_constraints s1)) →
  global_layouts s2 = global_layouts s1.
Proof.
  intros Hk Hb H12 H21. unfold global_layouts. rewrite Hk Hb.
  apply filter_ext_in. intros G HG. split.
  - intros [? ?]. split; [done|]. by apply H21.
  - intros [? ?]. split; [done|]. apply H12.
    apply list_elem_of_filter. by split.
Qed.

Lemma global_layouts_layouts s :
  global_layouts s ≠ [] → layouts (sw_constraints s) ≠ [].
Proof.
  destruct (global_layouts s) as [|G L] eqn:HG; [done|]. intros _.
  assert (HGin : G ∈ global_layouts s) by (rewrite HG; by left).
  apply elem_of_global_layouts in HGin as (_ & _ & Hsat).
  apply layouts_complete in Hsat. intros Hnil. rewrite Hnil in Hsat.
  by apply elem_of_nil in Hsat.
Qed.

(** What [calculate_board] does in a state that has a layout: the game
    and its layouts stay as they are, and each known tile is labelled by
    the number of layouts with a bomb on it. *)
Lemma calculate_board_spec percent_label s :
  sweeper_ok s → global_layouts s ≠ [] →
  ∃ f0 s',
    (∀ fuel, (f0 ≤ fuel)%nat → calculate_board percent_label fuel s = Ok s')
    ∧ (sw_version s' = sw_version s ∧ sw_height s' = sw_height s
       ∧ sw_width s' = sw_width s ∧ sw_bombs s' = sw_bombs s
       ∧ sw_message s' = sw_message s)
    ∧ known_tiles s' = known_tiles s
    ∧ global_layouts s' = global_layouts s
    ∧ (∀ t, 0 ≤ t.1 → 0 ≤ t.2 →
            cell (sw_board s') t
            = if decide (t ∈ known_tiles s)
              then tile_label percent_label (sw_version s) (layout_count s t)
                     (Z.of_nat (length (global_layouts s))) <$> cell (sw_board s) t
              else cell (sw_board s) t).
Proof.
  intros Hok Hglobal.
  pose proof Hok as (Hboard & Hstore & Hnd & Hunc & Hstore_in & Hdisj).
  destruct (solve_area_exact _ Hstore) as [f0 Hsolve].
  pose proof (global_layouts_layouts s Hglobal) as Hlay.
  assert (Hex : ∃ G, G ∈ global_layouts s).
  { destruct (global_layouts s) as [|G L]; [done|]. exists G. by left. }
  destruct (calculate_bomb_fractions_global s Hok Hlay) as (bi & Hbi & Hlookup).
  set (total := Z.of_nat (length (global_layouts s))) in *.
  assert (Htotal : total ≠ 0).
  { unfold total. destruct (global_layouts s); [done|]. simpl. lia. }
  assert (Hknown_in : ∀ t, t ∈ known_tiles s → in_board s t).
  { intros t [Ht|Ht%elem_of_list_to_set]%elem_of_union; [by apply Hstore_in|by apply Hunc]. }
  assert (Hitems : ∀ t c, (t, c) ∈ map_to_list bi → t ∈ known_tiles s ∧ c = layout_count s t).
  { intros t c Hin%elem_of_map_to_list. rewrite Hlookup in Hin.
    destruct (decide (t ∈ known_tiles s)); [|done]. split; [done|].
    unfold layout_count. congruence. }
  destruct (process_tiles_spec percent_label total (map_to_list bi) s [])
    as (s2 & Htiles & (Hv & Hh & Hw & Hb & Hcs & Hm) & Hboard2 & Hnd2 & Hunc2 & Hcell);
    [done|done|apply NoDup_fst_map_to_list| |].
  { apply Forall_forall. intros [t c] Hin. simpl. apply Hknown_in.
    by apply Hitems in Hin as [? _]. }
  simpl in Htiles.
  set (ct := facts_of (sw_version s) total (sw_board s) (map_to_list bi)) in *.
  assert (Hct : ∀ e, e ∈ ct → ∃ t b old, e = BombEquation_init [t] [b]
                        ∧ t ∈ known_tiles s
                        ∧ e ∈ tile_facts (sw_version s) (layout_count s t) total old t).
  { intros e (t & c & old & Hin & Hold & He)%elem_of_facts_of.
    apply Hitems in Hin as [Ht ->].
    destruct (tile_facts_cases (sw_version s) (layout_count s t) total old t)
      as [Hnil|(b & Hb1 & _)].
    - rewrite Hnil in He. by apply elem_of_nil in He.
    - exists t, b, old. split; [|done]. rewrite Hb1 in He.
      by apply list_elem_of_singleton in He. }
  assert (Hwf : Forall wf_eq ct).
  { apply Forall_forall. intros e (t & b & old & -> & _)%Hct.
    apply wf_eq_single, StronglySorted_singleton. }
  assert (Hct_tiles : store_tiles ct ⊆ known_tiles s).
  { intros t (e & (t' & b & old & -> & Ht' & _)%Hct & Ht)%elem_of_store_tiles.
    rewrite tiles_init list_to_set_single_tile in Ht.
    by apply elem_of_singleton in Ht as ->. }
  assert (Hct_sat : ∀ G, G ∈ global_layouts s → Forall (satisfies G) ct).
  { intros G HG. apply Forall_forall. intros e (t & b & old & _ & _ & He)%Hct.
    by eapply tile_facts_hold. }
  rewrite -Hcs in Hstore.
  destruct (integrate_terminates _ _ Hstore Hwf) as [[ok cs'] Hint].
  pose proof (Hint _ (Nat.lt_succ_diag_r _)) as Hint1.
  pose proof (integrate_sem _ _ _ _ _ Hstore Hwf Hint1) as Hsem.
  destruct ok; last first.
  { exfalso. destruct Hex as [G HGin].
    apply (Hsem G). split; [|by apply Hct_sat].
    rewrite Hcs. by apply elem_of_global_layouts in HGin as (_ & _ & ?). }
  destruct Hsem as [Hsat Hstiles]. rewrite Hcs in Hsat Hstiles.
  exists (Nat.max f0 (S (integrate_measure (sw_constraints s2) ct))),
         (set_constraints s2 cs').
  assert (Hknown : known_tiles (set_constraints s2 cs') = known_tiles s).
  { unfold known_tiles. simpl. rewrite Hstiles. apply set_eq. intros t.
    rewrite !elem_of_union !elem_of_list_to_set Hunc2.
    destruct (decide (t ∈ store_tiles ct)) as [Hin|Hnin].
    - pose proof (Hct_tiles t Hin) as Hk. unfold known_tiles in Hk.
      rewrite elem_of_union elem_of_list_to_set in Hk. tauto.
    - tauto. }
  split; [|split; [done|split; [done|split]]].
  - intros fuel Hfuel. unfold calculate_board. rewrite Hsolve; [|lia]. simpl.
    rewrite Hbi. simpl. unfold process_bomb_fractions.
    rewrite bool_decide_eq_false_2; [|done]. rewrite Htiles. simpl.
    rewrite Hint; [|lia]. done.
  - apply global_layouts_equiv; [done|done| |].
    + intros G HG. simpl. apply Hsat. split; [|by apply Hct_sat].
      by apply elem_of_global_layouts in HG as (_ & _ & ?).
    + intros G HG. simpl in HG. by apply Hsat in HG as [? _].
  - intros t Ht1 Ht2. simpl. rewrite (Hcell t Ht1 Ht2).
    rewrite list_to_map_to_list Hlookup.
    destruct (decide (t ∈ known_tiles s)); done.
Qed.

(** In a state whose store has a layout while the game has none,
    [calculate_board] only sets the message. *)
Lemma calculate_board_impossible percent_label s :
  sweeper_ok s → layouts (sw_constraints s) ≠ [] → global_layouts s = [] →
  ∃ f0, ∀ fuel, (f0 ≤ fuel)%nat →
    calculate_board percent_label fuel s = Ok (set_message s "Impossible layout").
Proof.
  intros Hok Hlay Hglobal. pose proof Hok as (_ & Hstore & _).
  destruct (solve_area_exact _ Hstore) as [f0 Hsolve].
  destruct (calculate_bomb_fractions_global s Hok Hlay) as (bi & Hbi & _).
  exists f0. intros fuel Hfuel. unfold calculate_board. rewrite Hsolve; [|done].
  simpl. rewrite Hbi. simpl. unfold process_bomb_fractions. by rewrite Hglobal.
Qed.

Lemma calculate_board_result percent_label fuel f0 s s' r :
  calculate_board percent_label fuel s = Ok s' →
  (∀ fuel', (f0 ≤ fuel')%nat → calculate_board percent_label fuel' s = r) →
  r = Ok s'.
Proof.
  intros H Hr. rewrite -(Hr (Nat.max fuel f0)); [|lia].
  apply (calculate_board_fuel_mono _ fuel); [done|lia].
Qed.

(** What a call of [calculate_board] that returns leaves behind: a second
    call returns as well, and with the same state of the board. *)
Lemma calculate_board_again percent_label fuel s s' :
  sweeper_ok s → calculate_board percent_label fuel s = Ok s' →
  ∃ f0, ∀ fuel', (f0 ≤ fuel')%nat →
    ∃ s'', calculate_board percent_label fuel' s' = Ok s''
           ∧ sw_board s'' = sw_board s'.
Proof.
  intros Hok H. pose proof (calculate_board_keeps_ok _ _ _ _ Hok H) as Hok'.
  destruct (decide (layouts (sw_constraints s) = [])) as [Hlay|Hlay].
  { destruct (calculate_board_ok percent_label s Hok) as [f0 Hf0].
    pose proof (Hf0 (Nat.max fuel f0) ltac:(lia)) as Hr.
    destruct (decide (layouts (sw_constraints s) = [])); [|done].
    rewrite (calculate_board_fuel_mono _ fuel _ _ _ H) in Hr; [|lia]. done. }
  destruct (decide (global_layouts s = [])) as [Hglobal|Hglobal].
  - destruct (calculate_board_impossible percent_label s Hok Hlay Hglobal) as [f0 Hf0].
    pose proof (calculate_board_result _ _ _ _ _ _ H Hf0) as [= <-].
    destruct (calculate_board_impossible percent_label _ Hok' Hlay Hglobal) as [f1 Hf1].
    exists f1. intros fuel' Hfuel'. eexists. split; [by apply Hf1|done].
  - destruct (calculate_board_spec percent_label s Hok Hglobal)
      as (f0 & s1 & Hf0 & (Hv & Hh & Hw & Hb & Hm) & Hknown & Hgl & Hcell).
    pose proof (calculate_board_result _ _ _ _ _ _ H Hf0) as [= <-].
    rewrite -Hgl in Hglobal.
    destruct (calculate_board_spec percent_label s1 Hok' Hglobal)
      as (f1 & s2 & Hf1 & (Hv2 & Hh2 & Hw2 & Hb2 & Hm2) & Hknown2 & Hgl2 & Hcell2).
    exists f1. intros fuel' Hfuel'. exists s2. split; [by apply Hf1|].
    pose proof (calculate_board_keeps_ok _ _ _ _ Hok' (Hf1 _ Hfuel')) as Hok2.
    destruct Hok' as ([Hlen1 Hrows1] & _). destruct Hok2 as ([Hlen2 Hrows2] & _).
    apply (board_ext _ _ (Z.to_nat (sw_width s1))); [| |done|].
    + by rewrite Hlen1 Hlen2 Hh2.
    + by rewrite -Hw2.
    + intros t Ht1 Ht2. rewrite (Hcell2 t Ht1 Ht2) Hknown (Hcell t Ht1 Ht2).
      destruct (decide (t ∈ known_tiles s)); [|done].
      unfold layout_count. rewrite Hgl Hv.
      destruct (cell (sw_board s) t); [|done]. simpl.
      by rewrite tile_label_idempotent.
Qed.

(** The layouts of the game stay as they are over a call of
    [calculate_board] that returns. *)
Lemma calculate_board_layouts percent_label fuel s s' :
  sweeper_ok s → calculate_board percent_label fuel s = Ok s' →
  known_tiles s' = known_tiles s ∧ global_layouts s' = global_layouts s.
Proof.
  intros Hok H.
  destruct (decide (layouts (sw_constraints s) = [])) as [Hlay|Hlay].
  { destruct (calculate_board_ok percent_label s Hok) as [f0 Hf0].
    pose proof (Hf0 (Nat.max fuel f0) ltac:(lia)) as Hr.
    destruct (decide (layouts (sw_constraints s) = [])); [|done].
    rewrite (calculate_board_fuel_mono _ fuel _ _ _ H) in Hr; [|lia]. done. }
  destruct (decide (global_layouts s = [])) as [Hglobal|Hglobal].
  - destruct (calculate_board_impossible percent_label s Hok Hlay Hglobal) as [f0 Hf0].
    by pose proof (calculate_board_result _ _ _ _ _ _ H Hf0) as [= <-].
  - destruct (calculate_board_spec percent_label s Hok Hglobal)
      as (f0 & s1 & Hf0 & _ & Hknown & Hgl & _).
    by pose proof (calculate_board_result _ _ _ _ _ _ H Hf0) as [= <-].
Qed.

Lemma sweeper_run_small_one : sweeper_run percent_label_exact small_board small_one.
Proof.
  apply (run_integrate _ _ (reset small_board) 10 0 0 "1").
  - apply run_reset.
  - unfold in_board. apply (bool_decide_unpack _). by vm_compute.
  - by vm_compute.
Qed.

Lemma sweeper_run_small_two : sweeper_run percent_label_exact small_board small_two.
Proof.
  apply (run_integrate _ _
           (from_Ok small_board (integrate_new_info 10 0 0 "B" small_board)) 10 0 1 "B").
  - apply (run_integrate _ _ (reset small_board) 10 0 0 "B").
    + apply run_reset.
    + unfold in_board. apply (bool_decide_unpack _). by vm_compute.
    + by vm_compute.
  - unfold in_board. apply (bool_decide_unpack _). by vm_compute.
  - by vm_compute.
Qed.

(** ** The counts and the labels of [calculate_board] *)

(** X24.  In a state that a Sweeper reaches, on the Solution that
    [solve_area] returns for the store, [calculate_bomb_fractions] returns
    the number of layouts of the game: the sets of known tiles (the tiles
    of the store and the unconstrained tiles) that hold as many bombs as
    the game has and satisfy every equation of the store.  It maps each
    known tile to the number of these layouts with a bomb on the tile, and
    no other tile. *)
Theorem calculate_bomb_fractions_counts_game percent_label (s0 s : Sweeper) fuel solution :
  sweeper_run percent_label s0 s →
  solve_area fuel (sw_constraints s) = Ok solution →
  solution ≠ ∅ →
  ∃ bomb_instances,
    calculate_bomb_fractions s solution
    = Ok (bomb_instances, Z.of_nat (length (global_layouts s)))
    ∧ ∀ t, bomb_instances !! t
           = if decide (t ∈ known_tiles s) then Some (layout_count s t) else None.
Proof.
  intros Hrun Hsolve Hne.
  pose proof (sweeper_run_ok percent_label s0 s Hrun) as Hok.
  pose proof Hok as (_ & Hstore & _).
  destruct (solve_area_exact _ Hstore) as [f0 Hf0].
  pose proof (Hf0 (Nat.max fuel f0) ltac:(lia)) as Hexact.
  rewrite (solve_area_fuel_mono fuel _ _ _ Hsolve) in Hexact; [|lia].
  injection Hexact as ->.
  apply calculate_bomb_fractions_global; [done|].
  intros Hlay. apply Hne. unfold exact_solution. by rewrite Hlay layouts_solution_nil.
Qed.

Lemma calculate_bomb_fractions_counts_game_witness :
  let s := small_one in
  let solution := from_Ok ∅ (solve_area 10 (sw_constraints s)) in
  ∃ bomb_instances,
    calculate_bomb_fractions s solution
    = Ok (bomb_instances, Z.of_nat (length (global_layouts s)))
    ∧ ∀ t, bomb_instances !! t
           = if decide (t ∈ known_tiles s) then Some (layout_count s t) else None.
Proof.
  apply (calculate_bomb_fractions_counts_game percent_label_exact small_board small_one 10
           (from_Ok ∅ (solve_area 10 (sw_constraints small_one)))).
  - apply sweeper_run_small_one.
  - by vm_compute.
  - apply (bool_decide_unpack _). by vm_compute.
Defined.

(** X25.  In a state that a Sweeper reaches and that has a layout of the
    game, [calculate_board] returns and leaves the message as it is.  Of
    the board it changes the known tiles only, from the number of layouts
    with a bomb on the tile: with none, the tile keeps a label that is a
    key of [BOMB_KEY] and is labelled "S" otherwise; with all of them, it
    keeps the label "B" or "Rupoor" and is labelled "B/R" otherwise; in
    between it gets the percentage. *)
Theorem calculate_board_labels percent_label (s0 s : Sweeper) :
  sweeper_run percent_label s0 s → global_layouts s ≠ [] →
  ∃ f0 s',
    (∀ fuel, (f0 ≤ fuel)%nat → calculate_board percent_label fuel s = Ok s')
    ∧ sw_message s' = sw_message s
    ∧ ∀ t, 0 ≤ t.1 → 0 ≤ t.2 →
           cell (sw_board s') t
           = if decide (t ∈ known_tiles s)
             then tile_label percent_label (sw_version s) (layout_count s t)
                    (Z.of_nat (length (global_layouts s))) <$> cell (sw_board s) t
             else cell (sw_board s) t.
Proof.
  intros Hrun Hglobal.
  destruct (calculate_board_spec percent_label s (sweeper_run_ok _ _ _ Hrun) Hglobal)
    as (f0 & s' & Hf0 & (_ & _ & _ & _ & Hm) & _ & _ & Hcell).
  by exists f0, s'.
Qed.

Lemma calculate_board_labels_witness :
  ∃ f0 s',
    (∀ fuel, (f0 ≤ fuel)%nat → calculate_board percent_label_exact fuel small_one = Ok s')
    ∧ sw_message s' = sw_message small_one
    ∧ ∀ t, 0 ≤ t.1 → 0 ≤ t.2 →
           cell (sw_board s') t
           = if decide (t ∈ known_tiles small_one)
             then tile_label percent_label_exact (sw_version small_one)
                    (layout_count small_one t)
                    (Z.of_nat (length (global_layouts small_one)))
                    <$> cell (sw_board small_one) t
             else cell (sw_board small_one) t.
Proof.
  apply (calculate_board_labels percent_label_exact small_board small_one).
  - apply sweeper_run_small_one.
  - apply (bool_decide_unpack _). by vm_compute.
Defined.

(** X26.  A call of [calculate_board] that returns changes neither the
    known tiles nor the layouts of the game: the facts that it adds to the
    store hold in every layout, and the tiles that it takes from the
    unconstrained tiles are tiles of these facts. *)
Theorem calculate_board_keeps_layouts percent_label (s0 s s' : Sweeper) fuel :
  sweeper_run percent_label s0 s →
  calculate_board percent_label fuel s = Ok s' →
  known_tiles s' = known_tiles s ∧ global_layouts s' = global_layouts s.
Proof.
  intros Hrun. apply calculate_board_layouts. by apply (sweeper_run_ok percent_label s0).
Qed.

Lemma calculate_board_keeps_layouts_witness :
  let s' := from_Ok small_one (calculate_board percent_label_exact 10 small_one) in
  known_tiles s' = known_tiles small_one ∧ global_layouts s' = global_layouts small_one.
Proof.
  apply (calculate_board_keeps_layouts percent_label_exact small_board small_one _ 10).
  - apply sweeper_run_small_one.
  - by vm_compute.
Defined.

(** X27.  After a call of [calculate_board] that returns, a second call
    with no observation in between returns as well and leaves every cell
    of the board as the first call left it. *)
Theorem calculate_board_idempotent percent_label (s0 s s' : Sweeper) fuel :
  sweeper_run percent_label s0 s →
  calculate_board percent_label fuel s = Ok s' →
  ∃ f0, ∀ fuel', (f0 ≤ fuel')%nat →
    ∃ s'', calculate_board percent_label fuel' s' = Ok s''
           ∧ sw_board s'' = sw_board s'.
Proof.
  intros Hrun. apply calculate_board_again. by apply (sweeper_run_ok percent_label s0).
Qed.

Lemma calculate_board_idempotent_witness :
  let s' := from_Ok small_one (calculate_board percent_label_exact 10 small_one) in
  ∃ f0, ∀ fuel', (f0 ≤ fuel')%nat →
    ∃ s'', calculate_board percent_label_exact fuel' s' = Ok s''
           ∧ sw_board s'' = sw_board s'.
Proof.
  apply (calculate_board_idempotent percent_label_exact small_board small_one _ 10).
  - apply sweeper_run_small_one.
  - by vm_compute.
Defined.

(** X28.  In a state that a Sweeper reaches whose store has a layout
    while the game has none (no layout of the store extends to as many
    bombs as the game has), [calculate_board] sets the message to
    "Impossible layout" and changes nothing else. *)
Theorem calculate_board_impossible_layout percent_label (s0 s : Sweeper) :
  sweeper_run percent_label s0 s →
  layouts (sw_constraints s) ≠ [] → global_layouts s = [] →
  ∃ f0, ∀ fuel, (f0 ≤ fuel)%nat →
    calculate_board percent_label fuel s = Ok (set_message s "Impossible layout").
Proof.
  intros Hrun. apply calculate_board_impossible. by apply (sweeper_run_ok percent_label s0).
Qed.

Lemma calculate_board_impossible_layout_witness :
  ∃ f0, ∀ fuel, (f0 ≤ fuel)%nat →
    calculate_board percent_label_exact fuel small_two
    = Ok (set_message small_two "Impossible layout").
Proof.
  apply (calculate_board_impossible_layout percent_label_exact small_board small_two).
  - apply sweeper_run_small_two.
  - apply (bool_decide_unpack _). by vm_compute.
  - by vm_compute.
Defined.

(** ** After a contradiction *)



(** After a contradiction that the Sweeper detected, [calculate_board] may
    raise: with a bomb reported on [(1, 2)], a "6" on [(1, 1)] and then a
    "1" on [(1, 2)], the message is set, the failed integration leaves a
    store that no layout satisfies, and [calculate_board] raises
    [KeyError]. *)
Lemma calculate_board_raises_after_contradiction :
  ∃ s1 s2 s3,
    integrate_new_info 20 1 2 "B" (Sweeper_init Classic) = Ok s1
    ∧ integrate_new_info 20 1 1 "6" s1 = Ok s2
    ∧ integrate_new_info 20 1 2 "1" s2 = Ok s3
    ∧ sweeper_run percent_label_exact (Sweeper_init Classic) s3
    ∧ sw_message s2 = ""%string
    ∧ sw_message s3 = "Impossible layout"%string
    ∧ calculate_board percent_label_exact 20 s3 = Raise KeyError.
Proof.
  pose (s1 := from_Ok (Sweeper_init Classic)
                (integrate_new_info 20 1 2 "B" (Sweeper_init Classic))).
  pose (s2 := from_Ok s1 (integrate_new_info 20 1 1 "6" s1)).
  pose (s3 := from_Ok s2 (integrate_new_info 20 1 2 "1" s2)).
  assert (H1 : integrate_new_info 20 1 2 "B" (Sweeper_init Classic) = Ok s1)
    by by vm_compute.
  assert (H2 : integrate_new_info 20 1 1 "6" s1 = Ok s2) by by vm_compute.
  assert (H3 : integrate_new_info 20 1 2 "1" s2 = Ok s3) by by vm_compute.
  exists s1, s2, s3. do 3 (split; [done|]). split.
  { apply (run_integrate _ _ s2 20 1 2 "1"); [|unfold in_board; apply (bool_decide_unpack _); by vm_compute|done].
    apply (run_integrate _ _ s1 20 1 1 "6"); [|unfold in_board; apply (bool_decide_unpack _); by vm_compute|done].
    apply (run_integrate _ _ (reset (Sweeper_init Classic)) 20 1 2 "B");
      [apply run_reset|unfold in_board; apply (bool_decide_unpack _); by vm_compute|by vm_compute]. }
  do 2 (split; [by vm_compute|]). by vm_compute.
Qed.

(** ** [solve_area] on a store, and [calculate_board] twice *)

Lemma Zsum_one {A} (l : list A) : Zsum (λ _, 1) l = Z.of_nat (length l).
Proof. induction l as [|x l IH]; simpl; lia. Qed.

(** The sum of [N_k] over the keys of the Solution of a store is the
    number of layouts of the store. *)
Lemma exact_solution_total cs :
  sum_items (λ _ _ N, N) (map_to_list (exact_solution cs)) = Z.of_nat (length (layouts cs)).
Proof.
  unfold exact_solution. rewrite (sum_items_layouts (λ _ _ N, N)); [apply Zsum_one|done].
Qed.

(** C1 (as amended).  On a store that satisfies the store invariant (no
    equation twice, bomb numbers strictly ascending between [0] and the
    number of tiles, no splittable or impossible equation, a trivial
    equation alone on its tile) [solve_area] returns, and its Solution is
    the exact distribution of the layouts of the store: [N_k] is the number
    of 0/1 assignments to the tiles of the store that satisfy every
    equation and place [k] bombs, [F_k[t]] is the number of those that
    place a bomb on [t], and the sum of [N_k] over the keys is the number
    of satisfying assignments. *)
Theorem solve_area_exact_distribution (cs : list BombEquation) :
  store_ok cs →
  ∃ f0, ∀ fuel, (f0 ≤ fuel)%nat →
    ∃ solution,
      solve_area fuel cs = Ok solution
      ∧ (∀ k, num_layouts_of solution k = count_layouts cs k)
      ∧ (∀ k t, bomb_count_of solution k t = count_layouts_with cs k t)
      ∧ sum_items (λ _ _ N, N) (map_to_list solution) = Z.of_nat (length (layouts cs)).
Proof.
  intros Hok. destruct (solve_area_exact cs Hok) as [f0 Hf0].
  exists f0. intros fuel Hfuel. exists (exact_solution cs).
  split; [by apply Hf0|]. split; [intros k; apply (exact_solution_counts cs k (0, 0))|].
  split; [intros k t; apply exact_solution_counts|]. apply exact_solution_total.
Qed.

Lemma solve_area_exact_distribution_witness :
  let cs := [BombEquation_init [(0, 0); (0, 1)] [1];
             BombEquation_init [(0, 1); (1, 1); (1, 0)] [1; 2]] in
  ∃ f0, ∀ fuel, (f0 ≤ fuel)%nat →
    ∃ solution,
      solve_area fuel cs = Ok solution
      ∧ (∀ k, num_layouts_of solution k = count_layouts cs k)
      ∧ (∀ k t, bomb_count_of solution k t = count_layouts_with cs k t)
      ∧ sum_items (λ _ _ N, N) (map_to_list solution) = Z.of_nat (length (layouts cs)).
Proof.
  apply (solve_area_exact_distribution
           [BombEquation_init [(0, 0); (0, 1)] [1];
            BombEquation_init [(0, 1); (1, 1); (1, 0)] [1; 2]]).
  split; [apply (bool_decide_unpack _); by vm_compute|].
  split.
  { apply Forall_cons. split; [|apply Forall_singleton];
      apply wf_eq_init; repeat constructor. }
  split.
  { apply Forall_cons. split; [|apply Forall_singleton]; split; by vm_compute. }
  intros e e' He He' Htriv.
  apply elem_of_cons in He as [->|He];
    [|apply list_elem_of_singleton in He as ->]; by vm_compute in Htriv.
Defined.

(** C1 as stated fails on a list in which a trivial equation is not alone
    on its tile.  For [(0, 0)] a bomb and one bomb among [(0, 0)] and
    [(0, 1)], the only layout is the bomb on [(0, 0)]; [solve_area] finds
    the trivial equation in the list, removes it and counts the two
    layouts of the other equation under two bombs. *)
Lemma solve_area_trivial_not_isolated :
  let cs := [BombEquation_init [(0, 0)] [1]; BombEquation_init [(0, 0); (0, 1)] [1]] in
  ∃ solution,
    (∀ fuel, (3 ≤ fuel)%nat → solve_area fuel cs = Ok solution)
    ∧ num_layouts_of solution 2 = 2 ∧ count_layouts cs 2 = 0
    ∧ num_layouts_of solution 1 = 0 ∧ count_layouts cs 1 = 1
    ∧ sum_items (λ _ _ N, N) (map_to_list solution) = 2
    ∧ length (layouts cs) = 1%nat.
Proof.
  intros cs.
  exists (from_Ok ∅ (solve_area 3 cs)). split.
  { intros fuel Hfuel. apply (solve_area_fuel_mono 3); [by vm_compute|done]. }
  do 5 (split; [by vm_compute|]). by vm_compute.
Qed.


